(** * pichu: a chess move recommender (move generation, make/unmake,
      lazy game tree, evaluation, alpha-beta search)

    Shallow embedding of [pichu.py].  The program keeps one global [board]
    (a list of eight rows of eight one-character strings) which the search
    mutates in place and restores; every function of the program is therefore
    a computation over that board that may read it, write it, or stop with a
    Python exception.  Floating-point numbers are modelled by rationals: all
    weights of the program are dyadic (1.0, 3.5, 5.25, 10.0, 200.0, 0.25,
    0.5) and every sum the program forms is exact in binary64. *)

From Stdlib Require Import ZArith QArith Qabs List Ascii String Bool Lia.
Import ListNotations.

Local Open Scope char_scope.
Local Open Scope Z_scope.

(** ** The board monad: state (the global board) and exceptions *)

Definition Board : Type := list (list ascii).

Definition M (A : Type) : Type := Board -> option (A * Board).

Definition ret {A} (a : A) : M A := fun b => Some (a, b).

Definition bind {A B} (m : M A) (k : A -> M B) : M B :=
  fun b => match m b with
           | Some (a, b') => k a b'
           | None => None
           end.

(** A Python exception (IndexError, KeyError, TypeError, AttributeError,
    RecursionError): the computation stops without a result. *)
Definition raise {A} : M A := fun _ => None.

Notation "x <- m ;; k" := (bind m (fun x => k))
  (at level 61, m at next level, right associativity).
Notation "' pat <- m ;; k" := (bind m (fun x => match x with pat => k end))
  (at level 61, pat pattern, m at next level, right associativity).
Notation "m ;;; k" := (bind m (fun _ => k))
  (at level 61, right associativity).

Definition lift_option {A} (o : option A) : M A :=
  match o with
  | Some a => ret a
  | None => raise
  end.

(** [for x in l: acc = f(acc, x)] *)
Fixpoint foldM {A B} (f : B -> A -> M B) (l : list A) (acc : B) : M B :=
  match l with
  | [] => ret acc
  | x :: l' => acc' <- f acc x ;; foldM f l' acc'
  end.

(** [for x in l: f(x)] *)
Fixpoint for_each {A} (l : list A) (f : A -> M unit) : M unit :=
  match l with
  | [] => ret tt
  | x :: l' => f x ;;; for_each l' f
  end.

(** [a and m], with Python's short circuit. *)
Definition and_then (a : bool) (m : M bool) : M bool :=
  if a then m else ret false.

(** ** Lists indexed the Python way

    [l[i]] for an index inside [range(0, len(l))].  Python wraps a negative
    index round to the end of the list; the model is stricter and treats every
    index outside [range(0, len(l))] as a fault, so that a run without a fault
    has only touched cells inside the lists. *)
Definition index {A} (l : list A) (i : Z) : option A :=
  if 0 <=? i then nth_error l (Z.to_nat i) else None.

Fixpoint update_nth {A} (l : list A) (n : nat) (v : A) : list A :=
  match l, n with
  | [], _ => []
  | _ :: l', O => v :: l'
  | x :: l', S n' => x :: update_nth l' n' v
  end.

(** [board[r][c]] *)
Definition get_cell (r c : Z) : M ascii :=
  fun b => match index b r with
           | Some row => match index row c with
                         | Some x => Some (x, b)
                         | None => None
                         end
           | None => None
           end.

(** [board[r][c] = v] *)
Definition set_cell (r c : Z) (v : ascii) : M unit :=
  fun b => match index b r with
           | Some row => match index row c with
                         | Some _ =>
                             Some (tt, update_nth b (Z.to_nat r)
                                         (update_nth row (Z.to_nat c) v))
                         | None => None
                         end
           | None => None
           end.

(** The whole board, for [for row in board]. *)
Definition get_board : M Board := fun b => Some (b, b).

(** [x in range(0, 8)] *)
Definition in_range8 (x : Z) : bool := (0 <=? x) && (x <? 8).

(** [range(0, 8)] *)
Definition range8 : list Z := [0; 1; 2; 3; 4; 5; 6; 7].

(** ** Dictionaries

    A dictionary is an association list in insertion order; assigning to a key
    that is present replaces its value in place.  Python 2 iterates a
    dictionary in hash order; every loop over a dictionary in this program
    either writes distinct cells, or looks for one entry, or adds exact
    numbers, so its result does not depend on that order. *)
Section Dict.
Context {K V : Type} (eqb : K -> K -> bool).

Fixpoint dict_get (d : list (K * V)) (k : K) : option V :=
  match d with
  | [] => None
  | (k', v) :: d' => if eqb k k' then Some v else dict_get d' k
  end.

Fixpoint dict_set (d : list (K * V)) (k : K) (v : V) : list (K * V) :=
  match d with
  | [] => [(k, v)]
  | (k', v') :: d' =>
      if eqb k k' then (k', v) :: d' else (k', v') :: dict_set d' k v
  end.

Definition dict_mem (d : list (K * V)) (k : K) : bool :=
  match dict_get d k with Some _ => true | None => false end.
End Dict.

Definition keys {K V} (d : list (K * V)) : list K := map fst d.

Definition key_eqb (k k' : Z * Z) : bool :=
  (fst k =? fst k') && (snd k =? snd k').

(** ** Pieces *)

Definition white_pieces : list ascii := ["P"; "R"; "B"; "Q"; "K"; "N"].
Definition black_pieces : list ascii := ["p"; "r"; "b"; "q"; "k"; "n"].
Definition single_move_pieces : list ascii := ["N"; "n"; "K"; "k"].

(** [x in l] *)
Definition in_list (x : ascii) (l : list ascii) : bool :=
  existsb (Ascii.eqb x) l.

Definition pieces_wgt : list (ascii * Q) :=
  [("P", 1 # 1); ("B", 7 # 2); ("N", 7 # 2); ("R", 21 # 4); ("Q", 10 # 1);
   ("K", 200 # 1);
   ("p", - 1 # 1); ("b", - 7 # 2); ("n", - 7 # 2); ("r", - 21 # 4);
   ("q", - 10 # 1); ("k", - 200 # 1)]%Q.

(** [a > b] on floats *)
Definition Qgt_bool (a b : Q) : bool := negb (Qle_bool a b).

(** ** Moves *)

Record Move : Type := mkMove {
  changes : list (Z * Z * ascii);
  undo_changes : list (Z * Z * ascii)
}.

(** [Move()] *)
Definition Move_new : Move := mkMove [] [].

(** [move.add_change(r, c, piece)] *)
Definition add_change (mv : Move) (r c : Z) (piece : ascii) : M Move :=
  old <- get_cell r c ;;
  ret (mkMove (dict_set key_eqb (changes mv) (r, c) piece)
              (dict_set key_eqb (undo_changes mv) (r, c) old)).

(** [move.unmake()] *)
Definition unmake (mv : Move) : M unit :=
  for_each (keys (changes mv))
           (fun k => v <- lift_option (dict_get key_eqb (undo_changes mv) k) ;;
                     set_cell (fst k) (snd k) v).

(** [move.make()] *)
Definition make (mv : Move) : M unit :=
  for_each (keys (changes mv))
           (fun k => v <- lift_option (dict_get key_eqb (changes mv) k) ;;
                     set_cell (fst k) (snd k) v).

(** ** Move generation *)

(** [wp_moves(moves, r, c)]; the list [moves] is returned updated. *)
Definition wp_moves (moves : list Move) (r c : Z) : M (list Move) :=
  let r1 := r + 1 in
  if r1 <? 8 then
    t1 <- and_then (c + 1 <? 8)
            (x <- get_cell r1 (c + 1) ;; ret (in_list x black_pieces)) ;;
    moves <- (if t1 then
                move <- add_change Move_new r1 (c + 1)
                          (if r1 =? 7 then "Q" else "P") ;;
                move <- add_change move r c "." ;;
                ret (move :: moves)
              else ret moves) ;;
    t2 <- and_then (c - 1 >? -1)
            (x <- get_cell r1 (c - 1) ;; ret (in_list x black_pieces)) ;;
    moves <- (if t2 then
                move <- add_change Move_new r1 (c - 1)
                          (if r1 =? 7 then "Q" else "P") ;;
                move <- add_change move r c "." ;;
                ret (move :: moves)
              else ret moves) ;;
    x <- get_cell r1 c ;;
    moves <- (if Ascii.eqb x "." then
                move <- add_change Move_new r1 c
                          (if r1 =? 7 then "Q" else "P") ;;
                move <- add_change move r c "." ;;
                ret (moves ++ [move])
              else ret moves) ;;
    t4 <- and_then (r =? 1)
            (x <- get_cell 2 c ;;
             and_then (Ascii.eqb x ".")
               (y <- get_cell 3 c ;; ret (Ascii.eqb y "."))) ;;
    if t4 then
      move <- add_change Move_new (r + 2) c "P" ;;
      move <- add_change move r c "." ;;
      ret (moves ++ [move])
    else ret moves
  else ret moves.

(** [bp_moves(moves, r, c)] *)
Definition bp_moves (moves : list Move) (r c : Z) : M (list Move) :=
  let r1 := r - 1 in
  if r1 >? -1 then
    t1 <- and_then (c + 1 <? 8)
            (x <- get_cell r1 (c + 1) ;; ret (in_list x white_pieces)) ;;
    moves <- (if t1 then
                move <- add_change Move_new r1 (c + 1)
                          (if r1 =? 0 then "q" else "p") ;;
                move <- add_change move r c "." ;;
                ret (move :: moves)
              else ret moves) ;;
    t2 <- and_then (c - 1 >? -1)
            (x <- get_cell r1 (c - 1) ;; ret (in_list x white_pieces)) ;;
    moves <- (if t2 then
                move <- add_change Move_new r1 (c - 1)
                          (if r1 =? 0 then "q" else "p") ;;
                move <- add_change move r c "." ;;
                ret (move :: moves)
              else ret moves) ;;
    x <- get_cell r1 c ;;
    moves <- (if Ascii.eqb x "." then
                move <- add_change Move_new r1 c
                          (if r1 =? 0 then "q" else "p") ;;
                move <- add_change move r c "." ;;
                ret (moves ++ [move])
              else ret moves) ;;
    t4 <- and_then (r =? 6)
            (x <- get_cell 5 c ;;
             and_then (Ascii.eqb x ".")
               (y <- get_cell 4 c ;; ret (Ascii.eqb y "."))) ;;
    if t4 then
      move <- add_change Move_new (r - 2) c "p" ;;
      move <- add_change move r c "." ;;
      ret (moves ++ [move])
    else ret moves
  else ret moves.

(** Python's recursion limit: a call chain deeper than this raises. *)
Definition recursion_limit : nat := 1000.

(** [add_move_in_dir(moves, color, r, c, dr, dc, depth)].  The three tests of
    the target cell read [board[r1][c1]] on an unchanged board; it is read
    once.  The recursion of the source does not end for [dr = dc = 0] on an
    empty origin, hence the fuel. *)
Fixpoint add_move_in_dir_fuel (fuel : nat) (moves : list Move)
    (color : string) (r c dr dc depth : Z) : M (list Move) :=
  match fuel with
  | O => raise
  | S fuel' =>
      let r1 := r + depth * dr in
      let c1 := c + depth * dc in
      if negb (in_range8 r1) || negb (in_range8 c1) then ret moves
      else
        x <- get_cell r1 c1 ;;
        if (in_list x white_pieces && String.eqb color "w")
           || (in_list x black_pieces && String.eqb color "b")
        then ret moves
        else if (in_list x black_pieces && String.eqb color "w")
                || (in_list x white_pieces && String.eqb color "b")
        then
          p <- get_cell r c ;;
          move <- add_change Move_new r1 c1 p ;;
          move <- add_change move r c "." ;;
          wx <- lift_option (dict_get Ascii.eqb pieces_wgt x) ;;
          p' <- get_cell r c ;;
          wp <- lift_option (dict_get Ascii.eqb pieces_wgt p') ;;
          if Qgt_bool (Qabs wx) (Qabs wp)
          then ret (move :: moves)
          else ret (moves ++ [move])
        else if Ascii.eqb x "." then
          p <- get_cell r c ;;
          move <- add_change Move_new r1 c1 p ;;
          move <- add_change move r c "." ;;
          let moves := moves ++ [move] in
          p' <- get_cell r c ;;
          if in_list p' single_move_pieces then ret moves
          else add_move_in_dir_fuel fuel' moves color r c dr dc (depth + 1)
        else ret moves
  end.

Definition add_move_in_dir (moves : list Move) (color : string)
    (r c dr dc : Z) : M (list Move) :=
  add_move_in_dir_fuel recursion_limit moves color r c dr dc 1.

Definition r_moves (moves : list Move) (color : string) (r c : Z)
  : M (list Move) :=
  moves <- add_move_in_dir moves color r c 1 0 ;;
  moves <- add_move_in_dir moves color r c (-1) 0 ;;
  moves <- add_move_in_dir moves color r c 0 1 ;;
  add_move_in_dir moves color r c 0 (-1).

Definition b_moves (moves : list Move) (color : string) (r c : Z)
  : M (list Move) :=
  foldM (fun moves dr =>
           foldM (fun moves dc => add_move_in_dir moves color r c dr dc)
                 [-1; 1] moves)
        [-1; 1] moves.

Definition q_moves (moves : list Move) (color : string) (r c : Z)
  : M (list Move) :=
  moves <- r_moves moves color r c ;;
  b_moves moves color r c.

Definition n_moves (moves : list Move) (color : string) (r c : Z)
  : M (list Move) :=
  foldM (fun moves dr =>
           foldM (fun moves dc =>
                    if Z.abs dr + Z.abs dc =? 3
                    then add_move_in_dir moves color r c dr dc
                    else ret moves)
                 [-2; -1; 1; 2] moves)
        [-2; -1; 1; 2] moves.

(** Truth value of a Python integer. *)
Definition truthy (n : Z) : bool := negb (n =? 0).

(** The test of the source is [abs(dr) + abs(dc) is 1 or 2], which Python
    reads as [(abs(dr) + abs(dc) is 1) or 2]. *)
Definition k_moves (moves : list Move) (color : string) (r c : Z)
  : M (list Move) :=
  foldM (fun moves dr =>
           foldM (fun moves dc =>
                    if (Z.abs dr + Z.abs dc =? 1) || truthy 2
                    then add_move_in_dir moves color r c dr dc
                    else ret moves)
                 [-1; 0; 1] moves)
        [-1; 0; 1] moves.

(** [possible_moves(color)].  The [elif] chain tests the same cell
    [board[r][c]]; it is read once. *)
Definition possible_moves (color : string) : M (list Move) :=
  if String.eqb color "w" then
    foldM (fun moves r =>
             foldM (fun moves c =>
                      x <- get_cell r c ;;
                      if Ascii.eqb x "P" then wp_moves moves r c
                      else if Ascii.eqb x "R" then r_moves moves color r c
                      else if Ascii.eqb x "B" then b_moves moves color r c
                      else if Ascii.eqb x "N" then n_moves moves color r c
                      else if Ascii.eqb x "Q" then q_moves moves color r c
                      else if Ascii.eqb x "K" then k_moves moves color r c
                      else ret moves)
                   range8 moves)
          range8 []
  else if String.eqb color "b" then
    foldM (fun moves r =>
             foldM (fun moves c =>
                      x <- get_cell r c ;;
                      if Ascii.eqb x "p" then bp_moves moves r c
                      else if Ascii.eqb x "r" then r_moves moves color r c
                      else if Ascii.eqb x "b" then b_moves moves color r c
                      else if Ascii.eqb x "n" then n_moves moves color r c
                      else if Ascii.eqb x "q" then q_moves moves color r c
                      else if Ascii.eqb x "k" then k_moves moves color r c
                      else ret moves)
                   range8 moves)
          range8 []
  else ret [].

(** ** Scores: floats with the two infinities *)

Inductive Num : Type :=
| NegInf : Num
| Fin : Q -> Num
| PosInf : Num.

(** [a <= b] *)
Definition num_le (a b : Num) : bool :=
  match a, b with
  | NegInf, _ => true
  | _, PosInf => true
  | Fin x, Fin y => Qle_bool x y
  | _, _ => false
  end.

(** [a == b] *)
Definition num_eq (a b : Num) : bool := num_le a b && num_le b a.

(** [max(a, b)]: the first argument unless the second is greater. *)
Definition num_max (a b : Num) : Num := if num_le b a then a else b.

(** [min(a, b)]: the first argument unless the second is smaller. *)
Definition num_min (a b : Num) : Num := if num_le a b then a else b.

(** ** The game tree *)

#[warnings="-register-all"]
Inductive State : Type := mkState {
  move : option Move;
  val : Num;
  player_turn : bool;
  successors : list State
}.

(** [State(move, player_turn)] *)
Definition State_new (mv : option Move) (turn : bool) : State :=
  mkState mv (Fin 0) turn [].

(** [state.val = v] *)
Definition set_val (state : State) (v : Num) : State :=
  mkState (move state) v (player_turn state) (successors state).

Definition set_successors (state : State) (l : list State) : State :=
  mkState (move state) (val state) (player_turn state) l.

Definition material_wgt : Q := 10 # 1.
Definition pawn_structure_wgt : Q := 1 # 1.
Definition mobility_wgt : Q := 5 # 1.

Definition square_values : list (Z * Z * Q) :=
  [((2, 1), (1 # 4)%Q); ((2, 2), (1 # 2)%Q); ((2, 3), (1 # 2)%Q);
   ((2, 4), (1 # 2)%Q); ((2, 5), (1 # 2)%Q); ((2, 6), (1 # 4)%Q);
   ((3, 1), (1 # 4)%Q); ((3, 2), (1 # 2)%Q); ((3, 3), (1 # 1)%Q);
   ((3, 4), (1 # 1)%Q); ((3, 5), (1 # 2)%Q); ((3, 6), (1 # 4)%Q);
   ((4, 1), (1 # 4)%Q); ((4, 2), (1 # 2)%Q); ((4, 3), (1 # 1)%Q);
   ((4, 4), (1 # 1)%Q); ((4, 5), (1 # 2)%Q); ((4, 6), (1 # 4)%Q);
   ((5, 1), (1 # 4)%Q); ((5, 2), (1 # 2)%Q); ((5, 3), (1 # 2)%Q);
   ((5, 4), (1 # 2)%Q); ((5, 5), (1 # 2)%Q); ((5, 6), (1 # 4)%Q)].

(** [is_game_over(state)] *)
Definition is_game_over (state : State) : M bool :=
  match move state with
  | Some mv =>
      foldM (fun found key =>
               if found : bool then ret true
               else
                 u <- lift_option (dict_get key_eqb (undo_changes mv) key) ;;
                 t1 <- and_then (Ascii.eqb u "K")
                         (n <- lift_option (dict_get key_eqb (changes mv) key) ;;
                          ret (in_list n black_pieces)) ;;
                 if t1 then ret true
                 else
                   u' <- lift_option
                           (dict_get key_eqb (undo_changes mv) key) ;;
                   and_then (Ascii.eqb u' "k")
                     (n <- lift_option (dict_get key_eqb (changes mv) key) ;;
                      ret (in_list n white_pieces)))
            (keys (undo_changes mv)) false
  | None => ret false
  end.

(** The points one successor adds in [mobility]: the inner loop over
    [next.move.changes]. *)
Definition mobility_of_move (mv : Move) (m : Q) : M Q :=
  foldM (fun m key =>
           n <- lift_option (dict_get key_eqb (changes mv) key) ;;
           if negb (in_list n ["."; "K"; "k"])
              && dict_mem key_eqb square_values key
           then
             v <- lift_option (dict_get key_eqb square_values key) ;;
             ret (m + v)%Q
           else ret m)
        (keys (changes mv)) m.

(** [printout()]: the string that is printed. *)
Definition printout : M string :=
  foldM (fun s r =>
           foldM (fun s c =>
                    x <- get_cell r c ;;
                    ret (s ++ String x EmptyString)%string)
                 range8 s)
        range8 EmptyString.

(** [get_2d_board(strBoard)] *)
Definition get_2d_board (strBoard : string) : option Board :=
  fold_right
    (fun r tiles =>
       match tiles with
       | None => None
       | Some tiles =>
           match
             fold_right
               (fun c row =>
                  match row, String.get (Z.to_nat (r * 8 + c)) strBoard with
                  | Some row, Some x => Some (x :: row)
                  | _, _ => None
                  end)
               (Some []) range8
           with
           | Some row => Some (row :: tiles)
           | None => None
           end
       end)
    (Some []) range8.

Section Engine.

(** [sys.argv[1]] *)
Variable player_color : string.

Definition opponent_color : string :=
  if String.eqb player_color "w" then "b"%string else "w"%string.

(** [state.get_successors()]: the node with its cache filled, and the list
    that is returned. *)
Definition get_successors (state : State) : M (State * list State) :=
  if Z.of_nat (List.length (successors state)) =? 0 then
    moves <- possible_moves
               (if player_turn state then player_color
                else opponent_color) ;;
    let state :=
      fold_left
        (fun st mv =>
           set_successors st
             (successors st
              ++ [State_new (Some mv)
                    (if player_turn st then false else true)]))
        moves state in
    ret (state, successors state)
  else ret (state, successors state).

(** [material()] *)
Definition material : M Q :=
  board <- get_board ;;
  white_pts <-
    foldM (fun pts row =>
             foldM (fun pts piece =>
                      if negb (Ascii.eqb piece ".") then
                        w <- lift_option
                               (dict_get Ascii.eqb pieces_wgt piece) ;;
                        ret (pts + w)%Q
                      else ret pts)
                   row pts)
          board 0%Q ;;
  ret (if String.eqb player_color "w" then white_pts
       else (- 1 * white_pts)%Q).

(** [mobility(state)] *)
Definition mobility (state : State) : M (State * Q) :=
  '(state, succs) <- get_successors state ;;
  m <- foldM (fun m next =>
                mv <- lift_option (move next) ;;
                mobility_of_move mv m)
             succs 0%Q ;;
  ret (state, if player_turn state then m else (- 1 * m)%Q).

(** The body of the two loops of [pawn_structure] for the pawn [pawn],
    whose defenders stand on row [r + back]. *)
Definition pawn_structure_at (pawn : ascii) (back : Z) (pts : Q) (r c : Z)
  : M Q :=
  x <- get_cell r c ;;
  if Ascii.eqb x pawn then
    let ur := r + back in
    let lc := c - 1 in
    let rc := c + 1 in
    t1 <- and_then (in_range8 ur && in_range8 lc)
            (y <- get_cell ur lc ;; ret (Ascii.eqb y pawn)) ;;
    let pts := if t1 then (pts + 1)%Q else pts in
    t2 <- and_then (in_range8 ur && in_range8 rc)
            (y <- get_cell ur rc ;; ret (Ascii.eqb y pawn)) ;;
    ret (if t2 then (pts + 1)%Q else pts)
  else ret pts.

(** [pawn_structure(state)] *)
Definition pawn_structure (state : State) : M Q :=
  let pts := 0%Q in
  if player_turn state then
    if String.eqb player_color "w" then
      foldM (fun pts r =>
               foldM (fun pts c => pawn_structure_at "P" (-1) pts r c)
                     range8 pts)
            range8 pts
    else
      foldM (fun pts r =>
               foldM (fun pts c => pawn_structure_at "p" 1 pts r c)
                     range8 pts)
            range8 pts
  else ret pts.

(** [evaluate(state)]: [mobility] fills the successor cache of the node,
    so the node is returned with the score. *)
Definition evaluate (state : State) : M (State * Q) :=
  mat <- material ;;
  ps <- pawn_structure state ;;
  '(state, mob) <- mobility state ;;
  ret (state,
       (material_wgt * mat + pawn_structure_wgt * ps
        + mobility_wgt * mob)%Q).

(** The loop of the maximising branch of [alphabeta] over the successors
    that are left, [search] being the recursive call at [depth - 1].  The
    successors are returned as the loop leaves them. *)
Fixpoint max_loop (search : State -> Num -> Num -> M (State * Num))
    (succs : list State) (v alpha beta : Num) : M (list State * Num) :=
  match succs with
  | [] => ret ([], v)
  | next_state :: rest =>
      mv <- lift_option (move next_state) ;;
      make mv ;;;
      '(next_state, x) <- search next_state alpha beta ;;
      let v := num_max v x in
      mv <- lift_option (move next_state) ;;
      unmake mv ;;;
      let alpha := num_max alpha v in
      if num_le beta alpha then ret (next_state :: rest, v)
      else
        '(rest, v) <- max_loop search rest v alpha beta ;;
        ret (next_state :: rest, v)
  end.

(** The loop of the minimising branch. *)
Fixpoint min_loop (search : State -> Num -> Num -> M (State * Num))
    (succs : list State) (v alpha beta : Num) : M (list State * Num) :=
  match succs with
  | [] => ret ([], v)
  | next_state :: rest =>
      mv <- lift_option (move next_state) ;;
      make mv ;;;
      '(next_state, x) <- search next_state alpha beta ;;
      let v := num_min v x in
      mv <- lift_option (move next_state) ;;
      unmake mv ;;;
      let beta := num_min beta v in
      if num_le beta alpha then ret (next_state :: rest, v)
      else
        '(rest, v) <- min_loop search rest v alpha beta ;;
        ret (next_state :: rest, v)
  end.

(** The exit of [alphabeta] at depth 0 or at a finished game. *)
Definition alphabeta_leaf (state : State) : M (State * Num) :=
  '(state, v) <- evaluate state ;;
  let state := set_val state (Fin v) in
  ret (state, val state).

(** [alphabeta(state, depth, alpha, beta)] for a depth that is not
    negative: the node as the call leaves it, and the value returned. *)
Fixpoint alphabeta (state : State) (depth : nat) (alpha beta : Num)
    {struct depth} : M (State * Num) :=
  match depth with
  | O => alphabeta_leaf state
  | S depth' =>
      over <- is_game_over state ;;
      if over then alphabeta_leaf state
      else if player_turn state then
        let state := set_val state NegInf in
        '(state, succs) <- get_successors state ;;
        '(succs, v) <- max_loop (fun s => alphabeta s depth')
                         succs (val state) alpha beta ;;
        let state := set_val (set_successors state succs) v in
        ret (state, val state)
      else
        let state := set_val state PosInf in
        '(state, succs) <- get_successors state ;;
        '(succs, v) <- min_loop (fun s => alphabeta s depth')
                         succs (val state) alpha beta ;;
        let state := set_val (set_successors state succs) v in
        ret (state, val state)
  end.

(** The inner loop of the driver: the first successor whose value is the
    root's is made, printed and unmade. *)
Fixpoint print_best (succs : list State) (v : Num) : M (option string) :=
  match succs with
  | [] => ret None
  | next_state :: rest =>
      if num_eq (val next_state) v then
        mv <- lift_option (move next_state) ;;
        make mv ;;;
        s <- printout ;;
        unmake mv ;;;
        ret (Some s)
      else print_best rest v
  end.

(** One round of the driver loop, at depth [d]. *)
Definition driver_round (current : State) (d : nat)
  : M (State * option string) :=
  '(current, score) <- alphabeta current d NegInf PosInf ;;
  '(current, succs) <- get_successors current ;;
  out <- print_best succs (val current) ;;
  ret (current, out).

(** The driver loop over the depths [ds] ([range(2, 102)] in the source),
    from [current]; the lines printed, in order. *)
Fixpoint driver (current : State) (ds : list nat) : M (list string) :=
  match ds with
  | [] => ret []
  | d :: ds' =>
      '(current, out) <- driver_round current d ;;
      outs <- driver current ds' ;;
      ret (match out with Some s => s :: outs | None => outs end)
  end.

End Engine.

(** [current = State(None, True)] *)
Definition current : State := State_new None true.

(** ** Specification vocabulary *)

(** The cell [(r, c)] of a board, and the board with that cell replaced. *)
Definition cell (b : Board) (r c : Z) : ascii :=
  nth (Z.to_nat c) (nth (Z.to_nat r) b []) ".".

Definition put (b : Board) (r c : Z) (v : ascii) : Board :=
  update_nth b (Z.to_nat r)
    (update_nth (nth (Z.to_nat r) b []) (Z.to_nat c) v).

Definition on_board (r c : Z) : Prop := 0 <= r < 8 /\ 0 <= c < 8.

(** Eight rows of eight cells. *)
Definition shape8b (b : Board) : bool :=
  (List.length b =? 8)%nat && forallb (fun row => (List.length row =? 8)%nat) b.

Definition shape8 (b : Board) : Prop := shape8b b = true.

(** The symbols of the board strings. *)
Definition is_piece (x : ascii) : bool :=
  in_list x white_pieces || in_list x black_pieces.

Definition is_symbol (x : ascii) : bool := is_piece x || Ascii.eqb x ".".

(** A board the loader accepts: 8 x 8, every cell a piece or empty. *)
Definition valid_boardb (b : Board) : bool :=
  shape8b b && forallb (forallb is_symbol) b.

Definition valid_board (b : Board) : Prop := valid_boardb b = true.

(** The pieces of a side, as [add_move_in_dir] tests them. *)
Definition own_piece (color : string) (x : ascii) : bool :=
  (in_list x white_pieces && String.eqb color "w")
  || (in_list x black_pieces && String.eqb color "b").

Definition opposing_piece (color : string) (x : ascii) : bool :=
  (in_list x black_pieces && String.eqb color "w")
  || (in_list x white_pieces && String.eqb color "b").

(** The weight of a piece, 0 for a symbol without one. *)
Definition weight (x : ascii) : Q :=
  match dict_get Ascii.eqb pieces_wgt x with
  | Some w => w
  | None => 0%Q
  end.

(** The move that puts [p] on [(r1, c1)] and empties [(r, c)], with the
    contents of the two cells on [b] recorded for the undo. *)
Definition step_move (b : Board) (r1 c1 : Z) (p : ascii) (r c : Z) : Move :=
  mkMove [((r1, c1), p); ((r, c), ".")]
         [((r1, c1), cell b r1 c1); ((r, c), cell b r c)].

(** A move whose undo dictionary was recorded on [b]: both dictionaries have
    the same keys, every key is a cell of the board, and the undo value of a
    key is the content of that cell on [b]. *)
Definition recorded_on (b : Board) (mv : Move) : Prop :=
  keys (undo_changes mv) = keys (changes mv)
  /\ Forall (fun k =>
               on_board (fst k) (snd k)
               /\ dict_get key_eqb (undo_changes mv) k
                  = Some (cell b (fst k) (snd k)))
            (keys (changes mv)).

(** A move that writes symbols of the board strings only. *)
Definition writes_symbols (mv : Move) : Prop :=
  Forall (fun kv => is_symbol (snd kv) = true) (changes mv).

(** The board after the writes of a dictionary, for the keys [ks]. *)
Definition write_all (d : list (Z * Z * ascii)) (ks : list (Z * Z))
    (b : Board) : Board :=
  fold_left (fun b k =>
               match dict_get key_eqb d k with
               | Some v => put b (fst k) (snd k) v
               | None => b
               end)
            ks b.

(** The board after [mv.make()]. *)
Definition made (mv : Move) (b : Board) : Board :=
  write_all (changes mv) (keys (changes mv)) b.

(** The two dictionaries of a node's move, if it has one, have the same
    keys, as [add_change] builds them. *)
Definition dicts_agree (mv : option Move) : Prop :=
  match mv with
  | Some m => keys (undo_changes m) = keys (changes m)
  | None => True
  end.

(** The king that a move takes, if any: an entry whose undo value is a king
    and whose new value is a piece of the other side.  From the words of the
    specification of terminal nodes. *)
Definition king_captured (mv : Move) : bool :=
  existsb (fun key =>
             match dict_get key_eqb (undo_changes mv) key,
                   dict_get key_eqb (changes mv) key with
             | Some u, Some n =>
                 (Ascii.eqb u "K" && in_list n black_pieces)
                 || (Ascii.eqb u "k" && in_list n white_pieces)
             | _, _ => false
             end)
          (keys (undo_changes mv)).

(** The tree below [state] fits the board [b]: every successor in a filled
    cache carries a move recorded on [b], and the tree below the successor
    fits the board after that move. *)
Inductive consistent : Board -> State -> Prop :=
| consistent_node : forall b mv v turn succs,
    dicts_agree mv ->
    consistent_list b succs ->
    consistent b (mkState mv v turn succs)
with consistent_list : Board -> list State -> Prop :=
| consistent_nil : forall b, consistent_list b []
| consistent_cons : forall b s rest mv,
    move s = Some mv ->
    recorded_on b mv ->
    writes_symbols mv ->
    consistent (made mv b) s ->
    consistent_list b rest ->
    consistent_list b (s :: rest).

(** ** Running a computation

    [runs m b Q]: from the board [b], [m] returns a result [a] and leaves a
    board [b'] with [Q a b'].  [reads m b P]: moreover the board is left as
    it was. *)
Definition runs {A} (m : M A) (b : Board) (Q : A -> Board -> Prop) : Prop :=
  match m b with
  | Some (a, b') => Q a b'
  | None => False
  end.

Definition reads {A} (m : M A) (b : Board) (P : A -> Prop) : Prop :=
  runs m b (fun a b' => b' = b /\ P a).

(** [m] never changes the board. *)
Definition readonly {A} (m : M A) : Prop :=
  forall b a b', m b = Some (a, b') -> b' = b.

(** ** Vocabulary of the claims *)

(** A move as the generator builds it: a piece put on a cell of the board,
    the origin, another cell of the board, emptied, and the undo values read
    from [b]. *)
Definition generated_on (b : Board) (mv : Move) : Prop :=
  exists r1 c1 p r c,
    on_board r1 c1 /\ on_board r c /\ (r1, c1) <> (r, c)
    /\ (p = cell b r c \/ In p ["Q"; "P"; "q"; "p"])
    /\ mv = step_move b r1 c1 p r c.

(** What a call on the node [s] keeps: the move into the node, the side to
    move, and the fit of the tree with the board. *)
Definition node_kept (b : Board) (s s' : State) : Prop :=
  move s' = move s /\ player_turn s' = player_turn s /\ consistent b s'.

(** What the loops need of the recursive call. *)
Definition search_ok (search : State -> Num -> Num -> M (State * Num))
  : Prop :=
  forall child b1 alpha beta,
    valid_board b1 -> consistent b1 child ->
    reads (search child alpha beta) b1
          (fun r => node_kept b1 child (fst r)).

(** The position of the comment at the end of [pichu.py]. *)
Definition sample_board : Board :=
  match get_2d_board ("........" ++ "........" ++ "R..P...." ++ "p.k....."
                      ++ "........" ++ "........" ++ "........"
                      ++ "k.r.....")%string with
  | Some b => b
  | None => []
  end.

(** The moves of White on [sample_board], and the first of them: the pawn
    on (2, 3) takes the king on (3, 2). *)
Definition sample_moves : list Move :=
  match possible_moves "w" sample_board with
  | Some (moves, _) => moves
  | None => []
  end.

Definition sample_capture : Move := step_move sample_board 3 2 "P" 2 3.

(** A board on which White has nothing to move. *)
Definition lone_king_board : Board :=
  match get_2d_board ("........" ++ "........" ++ "........" ++ "........"
                      ++ "........" ++ "........" ++ "........"
                      ++ "k.......")%string with
  | Some b => b
  | None => []
  end.

(** The successors [get_successors] builds from the moves of the side to
    move. *)
Definition children (turn : bool) (moves : list Move) : list State :=
  map (fun mv => State_new (Some mv) (if turn then false else true)) moves.

(** A board with one white pawn, on (1, 0). *)
Definition pawn_board : Board :=
  match get_2d_board ("........" ++ "P......." ++ "........" ++ "........"
                      ++ "........" ++ "........" ++ "........"
                      ++ "k.......")%string with
  | Some b => b
  | None => []
  end.

(** The undo dictionary of [mv] records a king replaced by a piece of the
    other side. *)
Definition records_king_capture (mv : Move) : Prop :=
  exists key n,
    dict_get key_eqb (changes mv) key = Some n
    /\ ((dict_get key_eqb (undo_changes mv) key = Some "K"
         /\ in_list n black_pieces = true)
        \/ (dict_get key_eqb (undo_changes mv) key = Some "k"
            /\ in_list n white_pieces = true)).

(** The node after the pawn of [sample_board] has taken the king, and the
    node after a king has stepped off its square. *)
Definition king_taken : State := State_new (Some sample_capture) false.

Definition king_stepped : State :=
  State_new (Some (mkMove [((1, 1), "K"); ((0, 0), ".")]
                          [((1, 1), "."); ((0, 0), "K")])) false.

(** The sum of a list of integers. *)
Definition Zsum (l : list Z) : Z := fold_right Z.add 0 l.

(** The cell one rank behind [(r, c)] ([back] is -1 for White, 1 for
    Black) on the column [c'] holds a pawn [pawn]. *)
Definition defender_at (b : Board) (pawn : ascii) (back r c' : Z) : bool :=
  in_range8 (r + back) && in_range8 c'
  && Ascii.eqb (cell b (r + back) c') pawn.

(** From the words of the claim: the number of pawns [pawn] that have a
    defender diagonally behind them. *)
Definition defended_pawns (b : Board) (pawn : ascii) (back : Z) : Z :=
  Zsum (map (fun r =>
               Zsum (map (fun c =>
                            if Ascii.eqb (cell b r c) pawn
                               && (defender_at b pawn back r (c - 1)
                                   || defender_at b pawn back r (c + 1))
                            then 1 else 0)
                         range8))
            range8).

(** The number of defences: pairs of a pawn and a defender diagonally
    behind it. *)
Definition defences_at (b : Board) (pawn : ascii) (back r c : Z) : Z :=
  if Ascii.eqb (cell b r c) pawn
  then (if defender_at b pawn back r (c - 1) then 1 else 0)
       + (if defender_at b pawn back r (c + 1) then 1 else 0)
  else 0.

Definition pawn_defences (b : Board) (pawn : ascii) (back : Z) : Z :=
  Zsum (map (fun r => Zsum (map (defences_at b pawn back r) range8))
            range8).

(** A white pawn on (3, 2) defended by the pawns on (2, 1) and (2, 3). *)
Definition chain_board : Board :=
  match get_2d_board ("....K..." ++ "........" ++ ".P.P...." ++ "..P....."
                      ++ "........" ++ "........" ++ "........"
                      ++ "....k...")%string with
  | Some b => b
  | None => []
  end.

(** The diagonal captures of the white pawn on [(r, c)], the one to the
    left first, and its advances. *)
Definition wp_captures (b : Board) (r c : Z) : list Move :=
  if r + 1 <? 8 then
    (if (c - 1 >? -1) && in_list (cell b (r + 1) (c - 1)) black_pieces
     then [step_move b (r + 1) (c - 1)
             (if r + 1 =? 7 then "Q" else "P") r c]
     else [])
    ++ (if (c + 1 <? 8) && in_list (cell b (r + 1) (c + 1)) black_pieces
        then [step_move b (r + 1) (c + 1)
                (if r + 1 =? 7 then "Q" else "P") r c]
        else [])
  else [].

Definition wp_advances (b : Board) (r c : Z) : list Move :=
  if r + 1 <? 8 then
    (if Ascii.eqb (cell b (r + 1) c) "."
     then [step_move b (r + 1) c (if r + 1 =? 7 then "Q" else "P") r c]
     else [])
    ++ (if (r =? 1) && (Ascii.eqb (cell b 2 c) "."
                        && Ascii.eqb (cell b 3 c) ".")
        then [step_move b (r + 2) c "P" r c]
        else [])
  else [].

(** The same for the black pawn on [(r, c)]. *)
Definition bp_captures (b : Board) (r c : Z) : list Move :=
  if r - 1 >? -1 then
    (if (c - 1 >? -1) && in_list (cell b (r - 1) (c - 1)) white_pieces
     then [step_move b (r - 1) (c - 1)
             (if r - 1 =? 0 then "q" else "p") r c]
     else [])
    ++ (if (c + 1 <? 8) && in_list (cell b (r - 1) (c + 1)) white_pieces
        then [step_move b (r - 1) (c + 1)
                (if r - 1 =? 0 then "q" else "p") r c]
        else [])
  else [].

Definition bp_advances (b : Board) (r c : Z) : list Move :=
  if r - 1 >? -1 then
    (if Ascii.eqb (cell b (r - 1) c) "."
     then [step_move b (r - 1) c (if r - 1 =? 0 then "q" else "p") r c]
     else [])
    ++ (if (r =? 6) && (Ascii.eqb (cell b 5 c) "."
                        && Ascii.eqb (cell b 4 c) ".")
        then [step_move b (r - 2) c "p" r c]
        else [])
  else [].

(** A rook on (2, 2) beside a pawn on (2, 3) and below a queen on (3, 2),
    and a white pawn on (4, 4) below a black pawn on (5, 5). *)
Definition ordering_board : Board :=
  match get_2d_board ("K......." ++ "........" ++ "..Rp...." ++ "..q....."
                      ++ "....P..." ++ ".....p.." ++ "........"
                      ++ ".......k")%string with
  | Some b => b
  | None => []
  end.

(** The eight adjacent offsets, in the order of the loops of [k_moves]. *)
Definition adjacent_offsets : list (Z * Z) :=
  [(-1, -1); (-1, 0); (-1, 1); (0, -1); (0, 1); (1, -1); (1, 0); (1, 1)].

(** From the words of the claim: the step of the king on [(r, c)] by the
    offset [d], if the target is on the board and does not hold a piece of
    the king's colour, and all such steps. *)
Definition king_step (b : Board) (color : string) (r c : Z) (d : Z * Z)
  : list Move :=
  if in_range8 (r + fst d) && in_range8 (c + snd d)
     && negb (own_piece color (cell b (r + fst d) (c + snd d)))
  then [step_move b (r + fst d) (c + snd d) (cell b r c) r c]
  else [].

Definition king_steps (b : Board) (color : string) (r c : Z) : list Move :=
  flat_map (king_step b color r c) adjacent_offsets.

(** The king of [color] stands on [(r, c)]. *)
Definition king_at (b : Board) (color : string) (r c : Z) : Prop :=
  (color = "w"%string /\ cell b r c = "K")
  \/ (color = "b"%string /\ cell b r c = "k").

(** A white king in the corner (0, 0), beside its own pawn on (0, 1), with a
    black knight on (1, 1). *)
Definition corner_board : Board :=
  match get_2d_board ("KP......" ++ ".n......" ++ "........" ++ "........"
                      ++ "........" ++ "........" ++ "........"
                      ++ ".......k")%string with
  | Some b => b
  | None => []
  end.

(** ** Vocabulary of the further properties *)

(** A cell a piece of [color] may move to: empty, or held by the other
    side. *)
Definition target_ok (color : string) (x : ascii) : bool :=
  Ascii.eqb x "." || opposing_piece color x.

(** The piece on [(r, c)] reaches a cell in [k] steps of [(dr, dc)], [k]
    counted from [depth]: the cells of the steps before the last are on the
    board and empty, the last cell is on the board and may be moved to, and
    a piece that moves a single step takes no second step.  [mv] is the move
    to that cell. *)
Definition reach_from (b : Board) (color : string) (r c : Z) (d : Z * Z)
    (depth : Z) (mv : Move) : Prop :=
  exists k,
    depth <= k
    /\ on_board (r + k * fst d) (c + k * snd d)
    /\ (forall j, depth <= j < k ->
                  on_board (r + j * fst d) (c + j * snd d)
                  /\ cell b (r + j * fst d) (c + j * snd d) = ".")
    /\ target_ok color (cell b (r + k * fst d) (c + k * snd d)) = true
    /\ (in_list (cell b r c) single_move_pieces = true -> k = depth)
    /\ mv = step_move b (r + k * fst d) (c + k * snd d) (cell b r c) r c.

Definition reach (b : Board) (color : string) (r c : Z) (d : Z * Z)
    (mv : Move) : Prop :=
  reach_from b color r c d 1 mv.

(** The directions of the rook, of the bishop and of the queen, and the
    jumps of the knight, in the order of the source. *)
Definition rook_dirs : list (Z * Z) := [(1, 0); (-1, 0); (0, 1); (0, -1)].

Definition bishop_dirs : list (Z * Z) :=
  [(-1, -1); (-1, 1); (1, -1); (1, 1)].

Definition queen_dirs : list (Z * Z) := rook_dirs ++ bishop_dirs.

Definition knight_jumps : list (Z * Z) :=
  [(-2, -1); (-2, 1); (-1, -2); (-1, 2); (1, -2); (1, 2); (2, -1); (2, 1)].

(** The moves of the piece on [(r, c)], by the rule of its kind. *)
Definition piece_move (b : Board) (color : string) (r c : Z) (mv : Move)
  : Prop :=
  let x := cell b r c in
  own_piece color x = true
  /\ ((x = "P" /\ In mv (wp_captures b r c ++ wp_advances b r c))
      \/ (x = "p" /\ In mv (bp_captures b r c ++ bp_advances b r c))
      \/ ((x = "R" \/ x = "r")
          /\ exists d, In d rook_dirs /\ reach b color r c d mv)
      \/ ((x = "B" \/ x = "b")
          /\ exists d, In d bishop_dirs /\ reach b color r c d mv)
      \/ ((x = "Q" \/ x = "q")
          /\ exists d, In d queen_dirs /\ reach b color r c d mv)
      \/ ((x = "N" \/ x = "n")
          /\ exists d, In d knight_jumps /\ reach b color r c d mv)
      \/ ((x = "K" \/ x = "k")
          /\ exists d, In d adjacent_offsets /\ reach b color r c d mv)).

(** The computation [m] on the list [moves] returns the list with the moves
    [S] added, at any place, and leaves the board as it is. *)
Definition adds (b : Board) (m : M (list Move)) (moves : list Move)
    (S : Move -> Prop) : Prop :=
  reads m b (fun moves' => forall mv, In mv moves' <-> In mv moves \/ S mv).

(** The piece a move puts on its destination, on the row [r1]: the piece
    that moves, or a queen for a pawn that reaches the farthest row. *)
Definition placed_piece (x : ascii) (r1 : Z) : ascii :=
  if Ascii.eqb x "P" then (if r1 =? 7 then "Q" else "P")
  else if Ascii.eqb x "p" then (if r1 =? 0 then "q" else "p")
  else x.

(** A move of a piece of [color] from [(r, c)] to [(r1, c1)], another cell,
    empty or held by the other side. *)
Definition pseudo_legal (b : Board) (color : string) (mv : Move) : Prop :=
  exists r1 c1 r c,
    on_board r1 c1 /\ on_board r c /\ (r1, c1) <> (r, c)
    /\ own_piece color (cell b r c) = true
    /\ target_ok color (cell b r1 c1) = true
    /\ mv = step_move b r1 c1 (placed_piece (cell b r c) r1) r c.

(** A white pawn on (6, 3), one step from the farthest row. *)
Definition promotion_board : Board :=
  match get_2d_board ("K......." ++ "........" ++ "........" ++ "........"
                      ++ "........" ++ "........" ++ "...P...."
                      ++ ".......k")%string with
  | Some b => b
  | None => []
  end.

(** ** Vocabulary of the search *)

(** [a < b] *)
Definition num_lt (a b : Num) : bool := negb (num_le b a).

(** The moves [possible_moves] finds for a colour on [b]. *)
Definition moves_of (color : string) (b : Board) : list Move :=
  match possible_moves color b with
  | Some (moves, _) => moves
  | None => []
  end.

(** A node is terminal when the move into it has taken a king. *)
Definition terminal (mv : option Move) : bool :=
  match mv with
  | Some m => king_captured m
  | None => false
  end.

(** What the window [(alpha, beta)] lets a search say of the value [m]:
    the result [v] is [m] when [m] lies inside the window, is at most
    [alpha] when [m] is, and at least [beta] when [m] is. *)
Definition within_window (alpha beta m v : Num) : Prop :=
  (num_le m alpha = true -> num_le v alpha = true)
  /\ (num_le beta m = true -> num_le beta v = true)
  /\ (num_lt alpha m = true -> num_lt m beta = true -> num_eq v m = true).

Section SearchVocabulary.
Variable player_color : string.

(** The colour that moves at a node. *)
Definition side_to_move (turn : bool) : string :=
  if turn then player_color else opponent_color player_color.

(** The score of the position [b] with [turn] to move: what [evaluate]
    returns at a node that has not been expanded. *)
Definition static_value (b : Board) (turn : bool) : Q :=
  match evaluate player_color (State_new None turn) b with
  | Some ((_, v), _) => v
  | None => 0%Q
  end.

(** The minimax value at [depth] of the position [b] reached by the move
    [mv], with [turn] to move: the score of the position at depth 0 and at
    a terminal node, and else the greatest (on the player's plies) or the
    least (on the other plies) value of the positions after each move of
    the side to move, minus or plus infinity if it has none. *)
Fixpoint minimax (depth : nat) (b : Board) (mv : option Move) (turn : bool)
  : Num :=
  match depth with
  | O => Fin (static_value b turn)
  | S depth' =>
      if terminal mv then Fin (static_value b turn)
      else
        let vals :=
          map (fun m => minimax depth' (made m b) (Some m) (negb turn))
              (moves_of (side_to_move turn) b) in
        if turn then fold_left num_max vals NegInf
        else fold_left num_min vals PosInf
  end.

(** The cached tree below a node is the game tree of the board: a filled
    cache holds one successor for each move of the side to move, in the
    order of [possible_moves], with the other side to move, and the same
    holds below each successor on the board after its move. *)
Inductive expanded : Board -> State -> Prop :=
| expanded_node : forall b mv v turn succs,
    dicts_agree mv ->
    (succs = []
     \/ map move succs = map Some (moves_of (side_to_move turn) b)) ->
    expanded_list turn b succs ->
    expanded b (mkState mv v turn succs)
with expanded_list : bool -> Board -> list State -> Prop :=
| expanded_nil : forall turn b, expanded_list turn b []
| expanded_cons : forall turn b s rest mv,
    move s = Some mv ->
    player_turn s = negb turn ->
    recorded_on b mv ->
    writes_symbols mv ->
    expanded (made mv b) s ->
    expanded_list turn b rest ->
    expanded_list turn b (s :: rest).

(** What a call of the search at [depth] with the window [(alpha, beta)]
    leaves of the node [s] on the board [b]: the node [fst r], with its
    move and its side, its tree still the game tree, its value the value
    returned [snd r], which is what the window lets the search say of the
    minimax value of the node. *)
Definition searched (depth : nat) (b : Board) (s : State)
    (alpha beta : Num) (r : State * Num) : Prop :=
  expanded b (fst r)
  /\ move (fst r) = move s
  /\ player_turn (fst r) = player_turn s
  /\ val (fst r) = snd r
  /\ within_window alpha beta
       (minimax depth b (move s) (player_turn s)) (snd r).

(** The successor [c] is best among the successors on [b]: the minimax
    value of the position after its move is [v]. *)
Definition best_move (depth : nat) (b : Board) (v : Num) (c : State)
  : Prop :=
  exists mv,
    move c = Some mv
    /\ num_eq (minimax depth (made mv b) (Some mv) false) v = true.

(** A line the driver may print in the round of depth [depth]: the board
    after a move of the player whose minimax value one ply shallower is the
    minimax value of the position. *)
Definition best_line (b : Board) (depth : nat) (line : string) : Prop :=
  exists mv,
    In mv (moves_of player_color b)
    /\ line = string_of_list_ascii (List.concat (made mv b))
    /\ num_eq (minimax (depth - 1) (made mv b) (Some mv) false)
              (minimax depth b None true) = true.

(** The first successor whose value is [v], as the driver looks for it. *)
Fixpoint first_best (succs : list State) (v : Num) : option State :=
  match succs with
  | [] => None
  | s :: rest => if num_eq (val s) v then Some s else first_best rest v
  end.

(** The loop that started from the value [v0], above minus infinity, has
    not raised it. *)
Definition not_raised (v0 v : Num) : Prop :=
  num_lt NegInf v0 = true /\ num_eq v0 v = true.

(** What the maximising loop with the window open above, started from the
    value [v0], leaves in [r]: the first successor that has the value
    returned is best, unless the loop has not raised the value. *)
Definition best_found (depth : nat) (b : Board) (v0 : Num)
    (r : list State * Num) : Prop :=
  num_le v0 (snd r) = true
  /\ (fst r = [] -> num_eq (snd r) v0 = true)
  /\ (forall c,
        first_best (fst r) (snd r) = Some c ->
        best_move depth b (snd r) c \/ not_raised v0 (snd r))
  /\ (first_best (fst r) (snd r) = None ->
      fst r = [] \/ not_raised v0 (snd r)).
End SearchVocabulary.

(** What the loops need of the recursive call at [depth]. *)
Definition search_window (player_color : string) (depth : nat)
    (search : State -> Num -> Num -> M (State * Num)) : Prop :=
  forall child b alpha beta,
    valid_board b -> expanded player_color b child ->
    num_lt alpha beta = true ->
    match search child alpha beta b with
    | Some (r, b') =>
        b' = b /\ searched player_color depth b child alpha beta r
    | None => False
    end.

(** The points [mobility] adds up over the moves [ms]. *)
Definition mobility_sum (ms : list Move) : M Q :=
  foldM (fun m mv => mobility_of_move mv m) ms 0%Q.

(** What the maximising loop keeps from round to round: [v] is the best
    value found so far, [m] the greatest minimax value of the successors
    visited so far, [a] the lower end of the window as the loop has raised
    it. *)
Definition max_inv (alpha beta m v a : Num) : Prop :=
  within_window alpha beta m v
  /\ num_le alpha a = true /\ num_le v a = true
  /\ (num_le a alpha = true \/ num_le a v = true)
  /\ num_lt a beta = true.

(** The same for the minimising loop, [bt] being the upper end of the
    window as the loop has lowered it. *)
Definition min_inv (alpha beta m v bt : Num) : Prop :=
  within_window alpha beta m v
  /\ num_le bt beta = true /\ num_le bt v = true
  /\ (num_le beta bt = true \/ num_le v bt = true)
  /\ num_lt alpha bt = true.

(** ** Vocabulary of the evaluation *)

(** The sum of a list of numbers. *)
Definition Qsum (l : list Q) : Q := fold_right Qplus 0%Q l.

(** The weights of the pieces of a board, White's counted up and Black's
    down. *)
Definition board_points (b : Board) : Q :=
  Qsum (map (fun row => Qsum (map weight row)) b).




(** ** The program

    [board = get_2d_board(sys.argv[2])], [current = State(None, True)] and
    the driver loop over [range(2, 102)]: the lines printed, for the
    arguments [player_color] and [strBoard]. *)
Definition pichu (player_color strBoard : string) : option (list string) :=
  match get_2d_board strBoard with
  | Some board =>
      match driver player_color current (seq 2 100) board with
      | Some (lines, _) => Some lines
      | None => None
      end
  | None => None
  end.

(** ** Vocabulary of the order of the moves *)

(** The piece a move takes off its destination, ['.'] if there is none, and
    the piece it moves, as the undo dictionary of the move records them. *)
Definition taken (mv : Move) : ascii :=
  match undo_changes mv with
  | (_, x) :: _ => x
  | [] => "."
  end.

Definition mover (mv : Move) : ascii :=
  match undo_changes mv with
  | _ :: (_, y) :: _ => y
  | _ => "."
  end.

Definition is_capture (mv : Move) : bool := is_piece (taken mv).

Definition by_pawn (mv : Move) : bool :=
  Ascii.eqb (mover mv) "P" || Ascii.eqb (mover mv) "p".

Definition takes_heavier (mv : Move) : bool :=
  Qgt_bool (Qabs (weight (taken mv))) (Qabs (weight (mover mv))).

(** From the words of the claim: the moves that go to the front of the
    list are the captures by a pawn and the captures of a piece heavier
    than the piece that takes it. *)
Definition goes_front (mv : Move) : bool :=
  is_capture mv && (by_pawn mv || takes_heavier mv).

(** The generator [g] puts moves that go to the front before the list it
    is given, moves that do not behind it, and leaves the list itself and
    the board as they are. *)
Definition extends_list (b : Board) (g : list Move -> M (list Move))
  : Prop :=
  exists front back,
    Forall (fun mv => goes_front mv = true) front
    /\ Forall (fun mv => goes_front mv = false) back
    /\ forall moves, g moves b = Some (front ++ moves ++ back, b).

(** The generator [g] adds the moves [S] to the list it is given: those
    that go to the front before the list, the others behind it. *)
Definition inserts (b : Board) (g : list Move -> M (list Move))
    (S : Move -> Prop) : Prop :=
  exists front back,
    (forall moves, g moves b = Some (front ++ moves ++ back, b))
    /\ (forall mv, In mv front <-> S mv /\ goes_front mv = true)
    /\ (forall mv, In mv back <-> S mv /\ goes_front mv = false).

(** ** Lists and boards *)

Lemma index_nth_error {A} (l : list A) (i : Z) :
  0 <= i -> index l i = nth_error l (Z.to_nat i).
Proof.
  intros Hi. unfold index.
  destruct (Z.leb_spec 0 i); [reflexivity | lia].
Qed.

Lemma index_in_range {A} (l : list A) (i : Z) (d : A) :
  0 <= i < Z.of_nat (List.length l) ->
  index l i = Some (nth (Z.to_nat i) l d).
Proof.
  intros Hi. rewrite index_nth_error by lia.
  apply nth_error_nth'. lia.
Qed.

Lemma length_update_nth {A} (l : list A) (n : nat) (v : A) :
  List.length (update_nth l n v) = List.length l.
Proof.
  revert n. induction l as [|x l IH]; intros [|n]; simpl; auto.
Qed.

Lemma nth_update_nth_same {A} (l : list A) (n : nat) (v d : A) :
  (n < List.length l)%nat -> nth n (update_nth l n v) d = v.
Proof.
  revert n. induction l as [|x l IH]; intros [|n] Hn; simpl in *;
    try lia; auto.
  apply IH. lia.
Qed.

Lemma nth_update_nth_other {A} (l : list A) (n n' : nat) (v d : A) :
  n <> n' -> nth n' (update_nth l n v) d = nth n' l d.
Proof.
  revert n n'. induction l as [|x l IH]; intros [|n] [|n'] Hn; simpl;
    try congruence; auto.
Qed.

Lemma Forall_update_nth {A} (P : A -> Prop) (l : list A) (n : nat) (v : A) :
  Forall P l -> P v -> Forall P (update_nth l n v).
Proof.
  intros Hl Hv. revert n.
  induction Hl as [|x l Hx Hl IH]; intros [|n]; simpl; auto.
Qed.

Lemma shape8_length (b : Board) : shape8 b -> List.length b = 8%nat.
Proof.
  unfold shape8, shape8b. intros H.
  apply andb_true_iff in H. destruct H as [H _].
  now apply Nat.eqb_eq in H.
Qed.

Lemma shape8_rows (b : Board) :
  shape8 b -> Forall (fun row => List.length row = 8%nat) b.
Proof.
  unfold shape8, shape8b. intros H.
  apply andb_true_iff in H. destruct H as [_ H].
  rewrite forallb_forall in H. apply Forall_forall.
  intros row Hrow. apply Nat.eqb_eq. auto.
Qed.

Lemma shape8_intro (b : Board) :
  List.length b = 8%nat -> Forall (fun row => List.length row = 8%nat) b ->
  shape8 b.
Proof.
  intros Hl Hr. unfold shape8, shape8b.
  apply andb_true_iff. split.
  - now apply Nat.eqb_eq.
  - apply forallb_forall. intros row Hrow. apply Nat.eqb_eq.
    rewrite Forall_forall in Hr. auto.
Qed.

Lemma shape8_row (b : Board) (r : Z) :
  shape8 b -> 0 <= r < 8 -> List.length (nth (Z.to_nat r) b []) = 8%nat.
Proof.
  intros Hb Hr.
  pose proof (shape8_length b Hb) as Hl.
  pose proof (shape8_rows b Hb) as Hrows.
  rewrite Forall_forall in Hrows. apply Hrows.
  apply nth_In. lia.
Qed.

Lemma get_cell_ok (b : Board) (r c : Z) :
  shape8 b -> on_board r c -> get_cell r c b = Some (cell b r c, b).
Proof.
  intros Hb [Hr Hc]. unfold get_cell, cell.
  rewrite (index_in_range b r []) by (rewrite (shape8_length b Hb); lia).
  rewrite (index_in_range _ c ".") by (rewrite shape8_row by auto; lia).
  reflexivity.
Qed.

Lemma set_cell_ok (b : Board) (r c : Z) (v : ascii) :
  shape8 b -> on_board r c -> set_cell r c v b = Some (tt, put b r c v).
Proof.
  intros Hb [Hr Hc]. unfold set_cell, put.
  rewrite (index_in_range b r []) by (rewrite (shape8_length b Hb); lia).
  rewrite (index_in_range _ c ".") by (rewrite shape8_row by auto; lia).
  reflexivity.
Qed.

Lemma shape8_put (b : Board) (r c : Z) (v : ascii) :
  shape8 b -> on_board r c -> shape8 (put b r c v).
Proof.
  intros Hb [Hr Hc]. unfold put. apply shape8_intro.
  - rewrite length_update_nth. now apply shape8_length.
  - apply Forall_update_nth.
    + now apply shape8_rows.
    + rewrite length_update_nth. now apply shape8_row.
Qed.

Lemma cell_put_same (b : Board) (r c : Z) (v : ascii) :
  shape8 b -> on_board r c -> cell (put b r c v) r c = v.
Proof.
  intros Hb [Hr Hc]. unfold cell, put.
  rewrite nth_update_nth_same by (rewrite (shape8_length b Hb); lia).
  apply nth_update_nth_same. rewrite shape8_row by auto. lia.
Qed.

Lemma cell_put_other (b : Board) (r c r' c' : Z) (v : ascii) :
  shape8 b -> on_board r c -> on_board r' c' -> (r, c) <> (r', c') ->
  cell (put b r c v) r' c' = cell b r' c'.
Proof.
  intros Hb [Hr Hc] [Hr' Hc'] Hne. unfold cell, put.
  destruct (Z.eq_dec r r') as [->|Hrr].
  - rewrite nth_update_nth_same by (rewrite (shape8_length b Hb); lia).
    apply nth_update_nth_other. intros E. apply Hne. f_equal. lia.
  - rewrite nth_update_nth_other by lia. reflexivity.
Qed.

Lemma board_ext (b b' : Board) :
  shape8 b -> shape8 b' ->
  (forall r c, on_board r c -> cell b r c = cell b' r c) ->
  b = b'.
Proof.
  intros Hb Hb' Hcells.
  apply (nth_ext b b' [] []).
  - now rewrite (shape8_length b), (shape8_length b').
  - intros n Hn. rewrite (shape8_length b Hb) in Hn.
    pose proof (shape8_row b (Z.of_nat n) Hb ltac:(lia)) as Hl.
    pose proof (shape8_row b' (Z.of_nat n) Hb' ltac:(lia)) as Hl'.
    rewrite Nat2Z.id in Hl, Hl'.
    apply (nth_ext _ _ "." "."); [congruence|].
    intros m Hm. rewrite Hl in Hm.
    specialize (Hcells (Z.of_nat n) (Z.of_nat m)).
    unfold cell in Hcells. rewrite !Nat2Z.id in Hcells.
    apply Hcells. unfold on_board. lia.
Qed.

(** ** Rules for running computations *)

Lemma runs_ret {A} (a : A) (b : Board) (Q : A -> Board -> Prop) :
  Q a b -> runs (ret a) b Q.
Proof. intros H. exact H. Qed.

Lemma runs_bind {A B} (m : M A) (k : A -> M B) (b : Board)
    (Q : B -> Board -> Prop) :
  runs m b (fun a b' => runs (k a) b' Q) -> runs (bind m k) b Q.
Proof.
  unfold runs, bind. destruct (m b) as [[a b']|]; auto.
Qed.

Lemma runs_weaken {A} (m : M A) (b : Board) (P Q : A -> Board -> Prop) :
  runs m b P -> (forall a b', P a b' -> Q a b') -> runs m b Q.
Proof.
  unfold runs. destruct (m b) as [[a b']|]; auto.
Qed.

Lemma runs_elim {A} (m : M A) (b : Board) (Q : A -> Board -> Prop) :
  runs m b Q -> exists a b', m b = Some (a, b') /\ Q a b'.
Proof.
  unfold runs. destruct (m b) as [[a b']|]; [eauto | tauto].
Qed.

Lemma runs_intro {A} (m : M A) (b : Board) (Q : A -> Board -> Prop) a b' :
  m b = Some (a, b') -> Q a b' -> runs m b Q.
Proof. unfold runs. intros ->. auto. Qed.

Lemma reads_ret {A} (a : A) (b : Board) (P : A -> Prop) :
  P a -> reads (ret a) b P.
Proof. intros H. split; auto. Qed.

Lemma reads_bind {A B} (m : M A) (k : A -> M B) (b : Board)
    (P : A -> Prop) (Q : B -> Prop) :
  reads m b P -> (forall a, P a -> reads (k a) b Q) -> reads (bind m k) b Q.
Proof.
  intros Hm Hk. apply runs_bind.
  apply (runs_weaken _ _ _ _ Hm). intros a b' [-> Ha]. now apply Hk.
Qed.

Lemma reads_weaken {A} (m : M A) (b : Board) (P Q : A -> Prop) :
  reads m b P -> (forall a, P a -> Q a) -> reads m b Q.
Proof.
  intros Hm HPQ. apply (runs_weaken _ _ _ _ Hm). intros a b' [-> Ha]. auto.
Qed.

Lemma reads_elim {A} (m : M A) (b : Board) (P : A -> Prop) :
  reads m b P -> exists a, m b = Some (a, b) /\ P a.
Proof.
  intros H. apply runs_elim in H. destruct H as (a & b' & E & -> & Ha).
  eauto.
Qed.

Lemma reads_intro {A} (m : M A) (b : Board) (P : A -> Prop) a :
  m b = Some (a, b) -> P a -> reads m b P.
Proof. intros E Ha. apply (runs_intro _ _ _ _ _ E). auto. Qed.

Lemma reads_bind_ret {A B} (a : A) (k : A -> M B) (b : Board)
    (Q : B -> Prop) :
  reads (k a) b Q -> reads (bind (ret a) k) b Q.
Proof. intros H. exact H. Qed.

Lemma reads_bind_assoc {A B C} (m : M A) (k : A -> M B) (h : B -> M C)
    (b : Board) (Q : C -> Prop) :
  reads (bind m (fun a => bind (k a) h)) b Q -> reads (bind (bind m k) h) b Q.
Proof.
  unfold reads, runs, bind. destruct (m b) as [[a b']|]; auto.
Qed.

Lemma reads_bind_get_cell {B} (r c : Z) (k : ascii -> M B) (b : Board)
    (Q : B -> Prop) :
  shape8 b -> on_board r c ->
  reads (k (cell b r c)) b Q -> reads (bind (get_cell r c) k) b Q.
Proof.
  intros Hb Hrc H. unfold reads, runs, bind.
  rewrite get_cell_ok by assumption. exact H.
Qed.

Lemma reads_foldM {A B} (f : B -> A -> M B) (l : list A) (b : Board)
    (P : B -> Prop) :
  (forall acc x, In x l -> P acc -> reads (f acc x) b P) ->
  forall acc, P acc -> reads (foldM f l acc) b P.
Proof.
  induction l as [|x l IH]; intros Hf acc Hacc; simpl.
  - now apply reads_ret.
  - apply reads_bind with (P := P).
    + apply Hf; simpl; auto.
    + intros acc' Hacc'. apply IH; auto.
      intros acc0 y Hy. apply Hf. simpl; auto.
Qed.

Lemma range8_on_board (x : Z) : In x range8 -> 0 <= x < 8.
Proof. unfold range8. simpl. intuition lia. Qed.

Lemma in_range8_true (x : Z) : in_range8 x = true -> 0 <= x < 8.
Proof. unfold in_range8. lia. Qed.

Lemma in_range8_false (x : Z) : in_range8 x = false -> ~ 0 <= x < 8.
Proof. unfold in_range8. lia. Qed.

(** ** Rules for computations that leave the board alone *)

Lemma readonly_ret {A} (a : A) : readonly (ret a).
Proof. intros b a' b' E. unfold ret in E. congruence. Qed.

Lemma readonly_raise {A} : readonly (@raise A).
Proof. intros b a b' E. discriminate. Qed.

Lemma readonly_bind {A B} (m : M A) (k : A -> M B) :
  readonly m -> (forall a, readonly (k a)) -> readonly (bind m k).
Proof.
  intros Hm Hk b x b' E. unfold bind in E.
  destruct (m b) as [[a b1]|] eqn:Em; [|discriminate].
  apply Hm in Em. subst b1. now apply Hk in E.
Qed.

Lemma readonly_lift_option {A} (o : option A) : readonly (lift_option o).
Proof.
  destruct o; [apply readonly_ret | apply readonly_raise].
Qed.

Lemma readonly_get_cell (r c : Z) : readonly (get_cell r c).
Proof.
  intros b a b' E. unfold get_cell in E.
  destruct (index b r) as [row|]; [|discriminate].
  destruct (index row c); congruence.
Qed.

Lemma readonly_get_board : readonly get_board.
Proof. intros b a b' E. unfold get_board in E. congruence. Qed.

Lemma readonly_foldM {A B} (f : B -> A -> M B) (l : list A) :
  (forall acc x, readonly (f acc x)) -> forall acc, readonly (foldM f l acc).
Proof.
  intros Hf. induction l as [|x l IH]; intros acc; simpl.
  - apply readonly_ret.
  - apply readonly_bind; auto.
Qed.

Lemma readonly_and_then (a : bool) (m : M bool) :
  readonly m -> readonly (and_then a m).
Proof.
  intros Hm. destruct a; simpl; [exact Hm | apply readonly_ret].
Qed.

Lemma readonly_if {A} (c : bool) (m1 m2 : M A) :
  readonly m1 -> readonly m2 -> readonly (if c then m1 else m2).
Proof. destruct c; auto. Qed.

Lemma readonly_add_change (mv : Move) (r c : Z) (p : ascii) :
  readonly (add_change mv r c p).
Proof.
  unfold add_change. apply readonly_bind.
  - apply readonly_get_cell.
  - intros a. apply readonly_ret.
Qed.

Create HintDb readonly.

#[local] Hint Resolve readonly_ret readonly_raise readonly_lift_option
  readonly_get_cell readonly_get_board readonly_add_change
  readonly_and_then readonly_if : readonly.

(** Decomposes a computation into the rules above, by its syntax. *)
Ltac readonly_tac :=
  repeat match goal with
    | |- readonly (ret _) => apply readonly_ret
    | |- readonly raise => apply readonly_raise
    | |- readonly (lift_option _) => apply readonly_lift_option
    | |- readonly (get_cell _ _) => apply readonly_get_cell
    | |- readonly get_board => apply readonly_get_board
    | |- readonly (add_change _ _ _ _) => apply readonly_add_change
    | |- readonly (and_then _ _) => apply readonly_and_then
    | |- readonly (if _ then _ else _) => apply readonly_if
    | |- readonly (foldM _ _ _) => apply readonly_foldM; intros
    | |- readonly (bind _ _) => apply readonly_bind; [|intros]
    | |- readonly (match ?x with (_, _) => _ end) => destruct x
    | |- readonly (let _ := _ in _) => cbv zeta
    end.

Lemma readonly_wp_moves moves r c : readonly (wp_moves moves r c).
Proof. unfold wp_moves. readonly_tac. Qed.

Lemma readonly_bp_moves moves r c : readonly (bp_moves moves r c).
Proof. unfold bp_moves. readonly_tac. Qed.

Lemma readonly_add_move_in_dir_fuel fuel :
  forall moves color r c dr dc depth,
    readonly (add_move_in_dir_fuel fuel moves color r c dr dc depth).
Proof.
  induction fuel as [|fuel IH]; intros; simpl.
  - apply readonly_raise.
  - readonly_tac. apply IH.
Qed.

Arguments add_move_in_dir : simpl never.

Lemma readonly_add_move_in_dir moves color r c dr dc :
  readonly (add_move_in_dir moves color r c dr dc).
Proof. apply readonly_add_move_in_dir_fuel. Qed.

#[local] Hint Resolve readonly_wp_moves readonly_bp_moves
  readonly_add_move_in_dir : readonly.

Lemma readonly_r_moves moves color r c : readonly (r_moves moves color r c).
Proof.
  unfold r_moves. readonly_tac; apply readonly_add_move_in_dir.
Qed.

Lemma readonly_b_moves moves color r c : readonly (b_moves moves color r c).
Proof.
  unfold b_moves. readonly_tac; apply readonly_add_move_in_dir.
Qed.

Lemma readonly_q_moves moves color r c : readonly (q_moves moves color r c).
Proof.
  unfold q_moves. apply readonly_bind.
  - apply readonly_r_moves.
  - intros. apply readonly_b_moves.
Qed.

Lemma readonly_n_moves moves color r c : readonly (n_moves moves color r c).
Proof.
  unfold n_moves. readonly_tac; apply readonly_add_move_in_dir.
Qed.

Lemma readonly_k_moves moves color r c : readonly (k_moves moves color r c).
Proof.
  unfold k_moves. readonly_tac; apply readonly_add_move_in_dir.
Qed.

#[local] Hint Resolve readonly_r_moves readonly_b_moves readonly_q_moves
  readonly_n_moves readonly_k_moves : readonly.

Lemma readonly_possible_moves color : readonly (possible_moves color).
Proof.
  unfold possible_moves. readonly_tac; auto with readonly.
Qed.

(** ** Soundness of move generation *)

Lemma key_eqb_eq (k k' : Z * Z) : key_eqb k k' = true <-> k = k'.
Proof.
  destruct k as [r c], k' as [r' c']. unfold key_eqb. simpl.
  rewrite andb_true_iff, !Z.eqb_eq. split.
  - intros [-> ->]. reflexivity.
  - intros E. inversion E. auto.
Qed.

Lemma key_eqb_refl (k : Z * Z) : key_eqb k k = true.
Proof. now apply key_eqb_eq. Qed.

Lemma key_eqb_neq (k k' : Z * Z) : k <> k' -> key_eqb k k' = false.
Proof.
  intros Hne. destruct (key_eqb k k') eqn:E; [|reflexivity].
  apply key_eqb_eq in E. contradiction.
Qed.

Lemma reads_bind_add_change {B} (b : Board) (mv : Move) (r c : Z)
    (p : ascii) (k : Move -> M B) (Q : B -> Prop) :
  shape8 b -> on_board r c ->
  reads (k (mkMove (dict_set key_eqb (changes mv) (r, c) p)
                   (dict_set key_eqb (undo_changes mv) (r, c) (cell b r c))))
        b Q ->
  reads (bind (add_change mv r c p) k) b Q.
Proof.
  intros Hb Hrc Hk. unfold add_change.
  apply reads_bind_assoc. apply reads_bind_get_cell; auto.
Qed.

Lemma two_changes (b : Board) (r1 c1 : Z) (p : ascii) (r c : Z) :
  (r1, c1) <> (r, c) ->
  mkMove
    (dict_set key_eqb
       (dict_set key_eqb (changes Move_new) (r1, c1) p) (r, c) ".")
    (dict_set key_eqb
       (dict_set key_eqb (undo_changes Move_new) (r1, c1) (cell b r1 c1))
       (r, c) (cell b r c))
  = step_move b r1 c1 p r c.
Proof.
  intros Hne. simpl. rewrite key_eqb_neq by congruence. reflexivity.
Qed.

Lemma generated_on_step (b : Board) (r1 c1 : Z) (p : ascii) (r c : Z) :
  on_board r1 c1 -> on_board r c -> (r1, c1) <> (r, c) ->
  p = cell b r c \/ In p ["Q"; "P"; "q"; "p"] ->
  generated_on b (step_move b r1 c1 p r c).
Proof. intros. exists r1, c1, p, r, c. auto. Qed.

Lemma is_piece_weight (x : ascii) :
  is_piece x = true ->
  dict_get Ascii.eqb pieces_wgt x = Some (weight x).
Proof.
  unfold is_piece, in_list, white_pieces, black_pieces, weight. simpl.
  repeat match goal with
    | |- context [Ascii.eqb x ?y] =>
        destruct (Ascii.eqb_spec x y) as [->|_]; [intros; reflexivity|]; simpl
    end.
  discriminate.
Qed.

(** Turns the tests of the generator into facts for [lia]. *)
Ltac test_facts :=
  repeat match goal with
    | H : (_ <? _) = true |- _ => apply Z.ltb_lt in H
    | H : (_ <? _) = false |- _ => apply Z.ltb_ge in H
    | H : (_ >? _) = true |- _ => rewrite Z.gtb_ltb in H
    | H : (_ >? _) = false |- _ => rewrite Z.gtb_ltb in H
    | H : (_ =? _) = true |- _ => apply Z.eqb_eq in H
    | H : (_ =? _) = false |- _ => apply Z.eqb_neq in H
    | H : in_range8 _ = true |- _ => apply in_range8_true in H
    | H : In _ range8 |- _ => apply range8_on_board in H
    end.

Ltac board_side :=
  solve [ assumption
        | test_facts; unfold on_board in *; lia
        | test_facts; unfold on_board in *;
          let X := fresh in intros X; inversion X; lia ].

(** One step of the symbolic run of a reading computation. *)
Ltac read_step :=
  match goal with
  | |- reads (ret _) _ _ => apply reads_ret
  | |- reads (bind (ret _) _) _ _ => apply reads_bind_ret
  | |- reads (bind (bind _ _) _) _ _ => apply reads_bind_assoc
  | |- reads (bind (get_cell _ _) _) _ _ =>
      apply reads_bind_get_cell; [board_side | board_side |]
  | |- reads (bind (add_change _ _ _ _) _) _ _ =>
      apply reads_bind_add_change; [board_side | board_side |]
  | |- reads (bind (and_then ?c _) _) _ _ =>
      let E := fresh "E" in destruct c eqn:E; unfold and_then at 1
  | |- reads (bind (if ?c then _ else _) _) _ _ =>
      let E := fresh "E" in destruct c eqn:E
  | |- reads (if ?c then _ else _) _ _ =>
      let E := fresh "E" in destruct c eqn:E
  end.

Ltac generated_tac :=
  repeat first
    [ assumption
    | apply Forall_cons
    | apply Forall_app; split
    | apply Forall_nil
    | cbn [changes undo_changes]; rewrite two_changes by board_side;
      apply generated_on_step; try board_side;
      first [ left; reflexivity
            | right; simpl; repeat destruct (_ =? _); tauto ] ].

Lemma wp_moves_sound (b : Board) (moves : list Move) (r c : Z) :
  shape8 b -> on_board r c -> Forall (generated_on b) moves ->
  reads (wp_moves moves r c) b (Forall (generated_on b)).
Proof.
  intros Hb Hrc Hmoves. unfold wp_moves. cbv zeta.
  repeat read_step; generated_tac.
Qed.

Lemma bp_moves_sound (b : Board) (moves : list Move) (r c : Z) :
  shape8 b -> on_board r c -> Forall (generated_on b) moves ->
  reads (bp_moves moves r c) b (Forall (generated_on b)).
Proof.
  intros Hb Hrc Hmoves. unfold bp_moves. cbv zeta.
  repeat read_step; generated_tac.
Qed.

Lemma add_move_in_dir_fuel_sound (b : Board) (color : string)
    (r c dr dc : Z) :
  shape8 b -> on_board r c -> is_piece (cell b r c) = true ->
  dr <> 0 \/ dc <> 0 ->
  forall fuel depth moves,
    1 <= depth -> (1 <= fuel)%nat -> 10 - depth <= Z.of_nat fuel ->
    Forall (generated_on b) moves ->
    reads (add_move_in_dir_fuel fuel moves color r c dr dc depth) b
          (Forall (generated_on b)).
Proof.
  intros Hb Hrc Hp Hd.
  induction fuel as [|fuel IH]; intros depth moves Hdepth Hfuel Hle Hmoves.
  - lia.
  - cbn [add_move_in_dir_fuel].
    destruct (in_range8 (r + depth * dr)) eqn:Er; cbn [negb orb];
      [|now apply reads_ret].
    destruct (in_range8 (c + depth * dc)) eqn:Ec; cbn [negb orb];
      [|now apply reads_ret].
    assert (Hon : on_board (r + depth * dr) (c + depth * dc))
      by (test_facts; unfold on_board; lia).
    assert (Hne : (r + depth * dr, c + depth * dc) <> (r, c))
      by (intros X; inversion X; nia).
    assert (Hdepth8 : depth <= 8)
      by (test_facts; unfold on_board in *; nia).
    clear Er Ec.
    apply reads_bind_get_cell; auto.
    set (x := cell b (r + depth * dr) (c + depth * dc)).
    fold (own_piece color x). fold (opposing_piece color x).
    destruct (own_piece color x) eqn:Eown; [now apply reads_ret|].
    destruct (opposing_piece color x) eqn:Eopp.
    + assert (Hx : is_piece x = true).
      { unfold opposing_piece in Eopp. unfold is_piece.
        destruct (in_list x white_pieces), (in_list x black_pieces);
          simpl in *; auto. }
      repeat read_step.
      rewrite (is_piece_weight x Hx). cbn [lift_option].
      repeat read_step.
      rewrite (is_piece_weight _ Hp). cbn [lift_option].
      repeat read_step; generated_tac.
    + destruct (Ascii.eqb x ".") eqn:Edot; [|now apply reads_ret].
      repeat read_step.
      * generated_tac.
      * apply IH; try lia. generated_tac.
Qed.

Lemma recursion_limit_large : 9 <= Z.of_nat recursion_limit.
Proof. unfold recursion_limit. lia. Qed.

Lemma recursion_limit_S : recursion_limit = S (Nat.pred recursion_limit).
Proof. reflexivity. Qed.

(** The limit is only used through the two lemmas above. *)
#[global] Opaque recursion_limit.

Lemma add_move_in_dir_sound (b : Board) (color : string) (moves : list Move)
    (r c dr dc : Z) :
  shape8 b -> on_board r c -> is_piece (cell b r c) = true ->
  dr <> 0 \/ dc <> 0 ->
  Forall (generated_on b) moves ->
  reads (add_move_in_dir moves color r c dr dc) b (Forall (generated_on b)).
Proof.
  intros. unfold add_move_in_dir.
  pose proof recursion_limit_large.
  apply add_move_in_dir_fuel_sound; auto; lia.
Qed.

(** The king's "direction" (0, 0): the origin holds a piece of the side to
    move, and nothing is added. *)
Lemma add_move_in_dir_fuel_origin (b : Board) (color : string)
    (moves : list Move) (r c : Z) (P : list Move -> Prop) (fuel : nat) :
  shape8 b -> on_board r c -> own_piece color (cell b r c) = true ->
  P moves ->
  reads (add_move_in_dir_fuel (S fuel) moves color r c 0 0 1) b P.
Proof.
  intros Hb Hrc Hown HP.
  cbn [add_move_in_dir_fuel]. rewrite !Z.mul_0_r, !Z.add_0_r.
  destruct Hrc as [Hr Hc].
  assert (Er : in_range8 r = true) by (unfold in_range8; lia).
  assert (Ec : in_range8 c = true) by (unfold in_range8; lia).
  rewrite Er, Ec. cbn [negb orb].
  apply reads_bind_get_cell; [auto | split; auto |].
  fold (own_piece color (cell b r c)). rewrite Hown. now apply reads_ret.
Qed.

Lemma add_move_in_dir_origin (b : Board) (color : string) (moves : list Move)
    (r c : Z) (P : list Move -> Prop) :
  shape8 b -> on_board r c -> own_piece color (cell b r c) = true ->
  P moves ->
  reads (add_move_in_dir moves color r c 0 0) b P.
Proof.
  intros. unfold add_move_in_dir. rewrite recursion_limit_S.
  now apply add_move_in_dir_fuel_origin.
Qed.

Section DirectionsSound.
Variables (b : Board) (color : string) (r c : Z).
Hypothesis Hb : shape8 b.
Hypothesis Hrc : on_board r c.
Hypothesis Hp : is_piece (cell b r c) = true.

Let sound := Forall (generated_on b).

Lemma dir_step (moves : list Move) (dr dc : Z) :
  dr <> 0 \/ dc <> 0 -> sound moves ->
  reads (add_move_in_dir moves color r c dr dc) b sound.
Proof. intros. now apply add_move_in_dir_sound. Qed.

(** Runs the unrolled loops over the directions. *)
Ltac dirs_tac :=
  repeat match goal with
    | |- reads (add_move_in_dir _ _ _ _ 0 0) _ _ =>
        apply add_move_in_dir_origin; assumption
    | |- reads (add_move_in_dir _ _ _ _ _ _) _ _ =>
        apply dir_step; [lia | assumption]
    | |- reads (ret _) _ _ => apply reads_ret; assumption
    | |- reads (bind _ _) _ _ =>
        apply reads_bind with (P := sound); [| intros ? ?]
    end.

Lemma r_moves_sound (moves : list Move) :
  sound moves -> reads (r_moves moves color r c) b sound.
Proof. intros Hm. unfold r_moves. dirs_tac. Qed.

Lemma b_moves_sound (moves : list Move) :
  sound moves -> reads (b_moves moves color r c) b sound.
Proof. intros Hm. unfold b_moves. cbn [foldM]. dirs_tac. Qed.

Lemma q_moves_sound (moves : list Move) :
  sound moves -> reads (q_moves moves color r c) b sound.
Proof.
  intros Hm. unfold q_moves.
  eapply reads_bind; [now apply r_moves_sound|].
  intros moves' Hm'. now apply b_moves_sound.
Qed.

Lemma n_moves_sound (moves : list Move) :
  sound moves -> reads (n_moves moves color r c) b sound.
Proof.
  intros Hm. unfold n_moves. cbn -[add_move_in_dir]. dirs_tac.
Qed.

Lemma k_moves_sound (moves : list Move) :
  own_piece color (cell b r c) = true ->
  sound moves -> reads (k_moves moves color r c) b sound.
Proof.
  intros Hown Hm. unfold k_moves. cbn -[add_move_in_dir].
  dirs_tac.
Qed.
End DirectionsSound.

(** Every move [possible_moves] returns was generated on the board, and
    generation neither faults nor changes the board. *)
Lemma possible_moves_sound (b : Board) (color : string) :
  shape8 b -> reads (possible_moves color) b (Forall (generated_on b)).
Proof.
  intros Hb. unfold possible_moves.
  destruct (String.eqb_spec color "w") as [->|_];
    [|destruct (String.eqb_spec color "b") as [->|_]];
    [| |now apply reads_ret].
  all: apply reads_foldM; [|constructor].
  all: intros acc r Hr Hacc; apply reads_foldM; [|assumption].
  all: intros acc' c Hc Hacc'.
  all: assert (Hrc : on_board r c)
         by (split; now apply range8_on_board).
  all: apply reads_bind_get_cell; auto.
  all: repeat match goal with
         | |- reads (if Ascii.eqb ?x ?y then _ else _) _ _ =>
             destruct (Ascii.eqb_spec x y) as [Ex|_]
         end.
  all: try (now apply reads_ret).
  all: match goal with
       | |- reads (wp_moves _ _ _) _ _ => now apply wp_moves_sound
       | |- reads (bp_moves _ _ _) _ _ => now apply bp_moves_sound
       | |- reads (r_moves _ _ _ _) _ _ => apply r_moves_sound
       | |- reads (b_moves _ _ _ _) _ _ => apply b_moves_sound
       | |- reads (n_moves _ _ _ _) _ _ => apply n_moves_sound
       | |- reads (q_moves _ _ _ _) _ _ => apply q_moves_sound
       | |- reads (k_moves _ _ _ _) _ _ => apply k_moves_sound
       end; auto; rewrite Ex; reflexivity.
Qed.

Lemma possible_moves_total (b : Board) (color : string) :
  shape8 b ->
  exists moves,
    possible_moves color b = Some (moves, b)
    /\ Forall (generated_on b) moves.
Proof.
  intros Hb. apply reads_elim. now apply possible_moves_sound.
Qed.

(** ** Making and unmaking a move *)

Lemma valid_board_iff (b : Board) :
  valid_board b <->
  shape8 b /\ Forall (Forall (fun x => is_symbol x = true)) b.
Proof.
  unfold valid_board, valid_boardb, shape8.
  rewrite andb_true_iff, forallb_forall, Forall_forall.
  split; intros [Hs Hc]; split; auto; intros row Hrow.
  - apply Forall_forall. apply forallb_forall. auto.
  - apply forallb_forall. apply Forall_forall. auto.
Qed.

Lemma valid_board_shape (b : Board) : valid_board b -> shape8 b.
Proof. intros H. now apply valid_board_iff in H. Qed.

Lemma valid_board_cell (b : Board) (r c : Z) :
  valid_board b -> on_board r c -> is_symbol (cell b r c) = true.
Proof.
  intros Hv [Hr Hc]. apply valid_board_iff in Hv. destruct Hv as [Hs Hcells].
  rewrite Forall_forall in Hcells. unfold cell.
  assert (Hrow : In (nth (Z.to_nat r) b []) b)
    by (apply nth_In; rewrite (shape8_length b Hs); lia).
  specialize (Hcells _ Hrow). rewrite Forall_forall in Hcells.
  apply Hcells. apply nth_In. rewrite shape8_row by auto. lia.
Qed.

Lemma valid_board_put (b : Board) (r c : Z) (v : ascii) :
  valid_board b -> on_board r c -> is_symbol v = true ->
  valid_board (put b r c v).
Proof.
  intros Hv Hrc Hsym. pose proof (valid_board_shape b Hv) as Hs.
  apply valid_board_iff. split; [now apply shape8_put|].
  apply valid_board_iff in Hv. destruct Hv as [_ Hcells].
  unfold put. apply Forall_update_nth; auto.
  apply Forall_update_nth; auto.
  rewrite Forall_forall in Hcells. apply Hcells.
  apply nth_In. rewrite (shape8_length b Hs). destruct Hrc. lia.
Qed.

Lemma dict_get_in_keys (d : list (Z * Z * ascii)) (k : Z * Z) :
  In k (keys d) -> exists v, dict_get key_eqb d k = Some v.
Proof.
  induction d as [|[k' v'] d IH]; simpl; [tauto|].
  intros [->|Hin].
  - rewrite key_eqb_refl. eauto.
  - destruct (key_eqb k k'); eauto.
Qed.

Lemma dict_get_not_in_keys (d : list (Z * Z * ascii)) (k : Z * Z) :
  ~ In k (keys d) -> dict_get key_eqb d k = None.
Proof.
  induction d as [|[k' v'] d IH]; simpl; [tauto|].
  intros Hnin. rewrite key_eqb_neq by (intros ->; tauto).
  apply IH. tauto.
Qed.

(** The loop of [make] and [unmake] over the keys [ks], writing the values
    of the dictionary [d]. *)
Lemma for_each_write (d : list (Z * Z * ascii)) (ks : list (Z * Z)) :
  forall b,
    shape8 b ->
    Forall (fun k => on_board (fst k) (snd k)
                     /\ exists v, dict_get key_eqb d k = Some v) ks ->
    for_each ks
      (fun k => v <- lift_option (dict_get key_eqb d k) ;;
                set_cell (fst k) (snd k) v) b
    = Some (tt, write_all d ks b)
    /\ shape8 (write_all d ks b).
Proof.
  induction ks as [|k ks IH]; intros b Hb Hks.
  - split; [reflexivity | assumption].
  - inversion Hks as [|? ? [Hon [v Hv]] Hks']; subst.
    unfold write_all. cbn [for_each fold_left]. rewrite Hv.
    unfold bind at 1. unfold bind at 1. cbn [lift_option ret].
    rewrite set_cell_ok by assumption.
    apply IH; auto. now apply shape8_put.
Qed.

Lemma cell_write_all (d : list (Z * Z * ascii)) (ks : list (Z * Z))
    (r c : Z) :
  on_board r c ->
  forall b,
    shape8 b ->
    Forall (fun k => on_board (fst k) (snd k)) ks ->
    cell (write_all d ks b) r c
    = if existsb (key_eqb (r, c)) ks
      then match dict_get key_eqb d (r, c) with
           | Some v => v
           | None => cell b r c
           end
      else cell b r c.
Proof.
  intros Hrc. induction ks as [|k ks IH]; intros b Hb Hks.
  - reflexivity.
  - inversion Hks as [|? ? Hon Hks']; subst.
    unfold write_all. cbn [fold_left existsb].
    fold (write_all d ks
            (match dict_get key_eqb d k with
             | Some v => put b (fst k) (snd k) v
             | None => b
             end)).
    destruct (key_eqb (r, c) k) eqn:Ek.
    + apply key_eqb_eq in Ek. subst k. cbn [fst snd orb] in *.
      destruct (dict_get key_eqb d (r, c)) as [v|] eqn:Ed.
      * rewrite IH by (auto using shape8_put).
        rewrite cell_put_same by auto.
        destruct (existsb (key_eqb (r, c)) ks); reflexivity.
      * rewrite IH by auto.
        destruct (existsb (key_eqb (r, c)) ks); reflexivity.
    + cbn [orb].
      assert (Hne : k <> (r, c)).
      { intros ->. rewrite key_eqb_refl in Ek. discriminate. }
      destruct (dict_get key_eqb d k) as [v|] eqn:Ed.
      * rewrite IH by (auto using shape8_put).
        rewrite cell_put_other; auto.
        destruct k. exact Hne.
      * now rewrite IH.
Qed.

Lemma recorded_on_keys (b : Board) (mv : Move) :
  recorded_on b mv ->
  Forall (fun k => on_board (fst k) (snd k)) (keys (changes mv)).
Proof.
  intros [_ H]. eapply Forall_impl; [|exact H]. simpl. tauto.
Qed.

Lemma make_ok (b : Board) (mv : Move) :
  shape8 b -> recorded_on b mv ->
  make mv b = Some (tt, made mv b) /\ shape8 (made mv b).
Proof.
  intros Hb Hrec. unfold make, made. apply for_each_write; auto.
  apply Forall_forall. intros k Hk. split.
  - pose proof (recorded_on_keys b mv Hrec) as H.
    rewrite Forall_forall in H. auto.
  - now apply dict_get_in_keys.
Qed.

Lemma existsb_key_In (k : Z * Z) (ks : list (Z * Z)) :
  existsb (key_eqb k) ks = true <-> In k ks.
Proof.
  rewrite existsb_exists. split.
  - intros (k' & Hin & E). apply key_eqb_eq in E. now subst.
  - intros Hin. exists k. split; auto. apply key_eqb_refl.
Qed.

Lemma unmake_made (b : Board) (mv : Move) :
  shape8 b -> recorded_on b mv ->
  unmake mv (made mv b) = Some (tt, b).
Proof.
  intros Hb Hrec.
  destruct (make_ok b mv Hb Hrec) as [_ Hs].
  pose proof (recorded_on_keys b mv Hrec) as Hkeys.
  destruct Hrec as [Hsame Hundo].
  destruct (for_each_write (undo_changes mv) (keys (changes mv))
              (made mv b) Hs) as [E Hs'].
  { eapply Forall_impl; [|exact Hundo]. simpl. intros k [Hon Hk]. eauto. }
  unfold unmake. rewrite E. f_equal. f_equal.
  apply board_ext; auto.
  intros r c Hrc. rewrite cell_write_all by auto.
  unfold made. rewrite cell_write_all by auto.
  destruct (existsb (key_eqb (r, c)) (keys (changes mv))) eqn:Ein;
    [|reflexivity].
  apply existsb_key_In in Ein.
  rewrite Forall_forall in Hundo. destruct (Hundo _ Ein) as [_ Hget].
  rewrite Hget. reflexivity.
Qed.

Lemma dict_get_In (d : list (Z * Z * ascii)) (k : Z * Z) (v : ascii) :
  dict_get key_eqb d k = Some v -> In (k, v) d.
Proof.
  induction d as [|[k' v'] d IH]; simpl; [discriminate|].
  destruct (key_eqb k k') eqn:Ek.
  - apply key_eqb_eq in Ek. intros [= ->]. subst. auto.
  - auto.
Qed.

Lemma valid_board_write_all (d : list (Z * Z * ascii)) (ks : list (Z * Z)) :
  Forall (fun kv => is_symbol (snd kv) = true) d ->
  Forall (fun k => on_board (fst k) (snd k)) ks ->
  forall b, valid_board b -> valid_board (write_all d ks b).
Proof.
  intros Hd Hks. induction Hks as [|k ks Hon Hks IH]; intros b Hv;
    [exact Hv|].
  unfold write_all. cbn [fold_left].
  destruct (dict_get key_eqb d k) as [v|] eqn:Ed.
  - apply IH. apply valid_board_put; auto.
    apply dict_get_In in Ed. rewrite Forall_forall in Hd.
    exact (Hd _ Ed).
  - now apply IH.
Qed.

Lemma valid_board_made (b : Board) (mv : Move) :
  valid_board b -> recorded_on b mv -> writes_symbols mv ->
  valid_board (made mv b).
Proof.
  intros Hv Hrec Hsym. unfold made.
  apply valid_board_write_all; auto.
  now apply recorded_on_keys with (b := b).
Qed.

Lemma generated_on_recorded (b : Board) (mv : Move) :
  generated_on b mv -> recorded_on b mv.
Proof.
  intros (r1 & c1 & p & r & c & H1 & H0 & Hne & _ & ->).
  unfold recorded_on, step_move. cbn [changes undo_changes keys map fst].
  split; [reflexivity|].
  constructor; [|constructor; [|constructor]]; cbn [fst snd]; split; auto.
  - simpl. now rewrite key_eqb_refl.
  - simpl. rewrite key_eqb_neq by congruence. now rewrite key_eqb_refl.
Qed.

Lemma generated_on_symbols (b : Board) (mv : Move) :
  valid_board b -> generated_on b mv -> writes_symbols mv.
Proof.
  intros Hv (r1 & c1 & p & r & c & H1 & H0 & Hne & Hp & ->).
  unfold writes_symbols, step_move. cbn [changes].
  repeat constructor; cbn [snd].
  destruct Hp as [->|Hp].
  - now apply valid_board_cell.
  - simpl in Hp. intuition (subst; reflexivity).
Qed.

(** ** The tree and the evaluation *)

Lemma reads_bind_get_board {B} (k : Board -> M B) (b : Board)
    (Q : B -> Prop) :
  reads (k b) b Q -> reads (bind get_board k) b Q.
Proof. intros H. exact H. Qed.

Lemma reads_bind_lift_some {A B} (a : A) (k : A -> M B) (b : Board)
    (Q : B -> Prop) :
  reads (k a) b Q -> reads (bind (lift_option (Some a)) k) b Q.
Proof. intros H. exact H. Qed.

Lemma reads_true {A} (m : M A) (b : Board) (P : A -> Prop) :
  reads m b P -> reads m b (fun _ => True).
Proof. intros H. apply (reads_weaken _ _ _ _ H). auto. Qed.

Lemma is_symbol_piece (x : ascii) :
  is_symbol x = true -> Ascii.eqb x "." = false -> is_piece x = true.
Proof.
  unfold is_symbol. intros H E. rewrite E in H.
  now rewrite orb_false_r in H.
Qed.

Section EngineLemmas.
Variable player_color : string.

Lemma material_reads (b : Board) :
  valid_board b -> reads (material player_color) b (fun _ => True).
Proof.
  intros Hv. apply valid_board_iff in Hv. destruct Hv as [_ Hcells].
  unfold material. apply reads_bind_get_board.
  apply reads_bind with (P := fun _ => True); [|intros; now apply reads_ret].
  rewrite Forall_forall in Hcells.
  apply reads_foldM; [|exact I]. intros pts row Hrow _.
  specialize (Hcells row Hrow). rewrite Forall_forall in Hcells.
  apply reads_foldM; [|exact I]. intros pts' piece Hpiece _.
  destruct (Ascii.eqb piece ".") eqn:E; cbn [negb];
    [now apply reads_ret|].
  rewrite (is_piece_weight piece)
    by (apply is_symbol_piece; auto).
  apply reads_bind_lift_some. now apply reads_ret.
Qed.

Lemma pawn_structure_at_reads (b : Board) pawn back pts r c :
  shape8 b -> on_board r c ->
  reads (pawn_structure_at pawn back pts r c) b (fun _ => True).
Proof.
  intros Hb Hrc. unfold pawn_structure_at. cbv zeta.
  apply reads_bind_get_cell; auto.
  destruct (Ascii.eqb (cell b r c) pawn); [|now apply reads_ret].
  repeat match goal with
    | |- reads (bind (and_then (?x && ?y) _) _) _ _ =>
        let E1 := fresh "E" in
        let E2 := fresh "E" in
        destruct x eqn:E1; destruct y eqn:E2;
        cbn [andb]; unfold and_then at 1
    | _ => read_step
    end; exact I.
Qed.

Lemma pawn_structure_reads (b : Board) (s : State) :
  shape8 b -> reads (pawn_structure player_color s) b (fun _ => True).
Proof.
  intros Hb. unfold pawn_structure. cbv zeta.
  destruct (player_turn s); [|now apply reads_ret].
  destruct (String.eqb player_color "w").
  all: apply reads_foldM; [|exact I]; intros pts r Hr _.
  all: apply reads_foldM; [|exact I]; intros pts' c Hc _.
  all: apply pawn_structure_at_reads; auto.
  all: split; now apply range8_on_board.
Qed.

Lemma mobility_of_move_reads (b : Board) (mv : Move) (m : Q) :
  reads (mobility_of_move mv m) b (fun _ => True).
Proof.
  unfold mobility_of_move. apply reads_foldM; [|exact I].
  intros acc key Hkey _.
  destruct (dict_get_in_keys _ _ Hkey) as [n ->].
  apply reads_bind_lift_some.
  destruct (in_list n ["."; "K"; "k"]); cbn [negb andb];
    [now apply reads_ret|].
  unfold dict_mem.
  destruct (dict_get key_eqb square_values key) as [v|];
    [|now apply reads_ret].
  apply reads_bind_lift_some. now apply reads_ret.
Qed.
End EngineLemmas.

(** ** Terminal nodes *)

Lemma is_game_over_scan (mv : Move) (b : Board) (ks : list (Z * Z)) :
  Forall (fun k => In k (keys (undo_changes mv))
                   /\ In k (keys (changes mv))) ks ->
  forall found,
    foldM (fun found key =>
             if found : bool then ret true
             else
               u <- lift_option (dict_get key_eqb (undo_changes mv) key) ;;
               t1 <- and_then (Ascii.eqb u "K")
                       (n <- lift_option
                               (dict_get key_eqb (changes mv) key) ;;
                        ret (in_list n black_pieces)) ;;
               if t1 then ret true
               else
                 u' <- lift_option
                         (dict_get key_eqb (undo_changes mv) key) ;;
                 and_then (Ascii.eqb u' "k")
                   (n <- lift_option (dict_get key_eqb (changes mv) key) ;;
                    ret (in_list n white_pieces)))
          ks found b
    = Some (found
            || existsb
                 (fun key =>
                    match dict_get key_eqb (undo_changes mv) key,
                          dict_get key_eqb (changes mv) key with
                    | Some u, Some n =>
                        (Ascii.eqb u "K" && in_list n black_pieces)
                        || (Ascii.eqb u "k" && in_list n white_pieces)
                    | _, _ => false
                    end) ks, b).
Proof.
  induction 1 as [|k ks [Hu Hc] Hks IH]; intros found.
  - simpl. now rewrite orb_false_r.
  - cbn [foldM existsb]. unfold bind at 1.
    destruct (dict_get_in_keys _ _ Hu) as [u Eu].
    destruct (dict_get_in_keys _ _ Hc) as [n En].
    rewrite Eu, En.
    destruct found.
    + cbn [ret]. rewrite IH. reflexivity.
    + unfold bind, and_then, lift_option, ret.
      destruct (Ascii.eqb u "K"), (Ascii.eqb u "k"),
        (in_list n black_pieces), (in_list n white_pieces);
        cbn [andb orb]; rewrite IH; reflexivity.
Qed.

Lemma is_game_over_eq (s : State) (b : Board) :
  dicts_agree (move s) ->
  is_game_over s b
  = Some (match move s with
          | Some mv => king_captured mv
          | None => false
          end, b).
Proof.
  unfold is_game_over, dicts_agree, king_captured.
  destruct (move s) as [mv|]; [|reflexivity].
  intros Hkeys. rewrite is_game_over_scan; [reflexivity|].
  apply Forall_forall. intros k Hk. split; [assumption|].
  now rewrite <- Hkeys.
Qed.

(** ** The search leaves the board as it found it *)

Lemma consistent_inv (b : Board) (s : State) :
  consistent b s ->
  dicts_agree (move s) /\ consistent_list b (successors s).
Proof. intros H. inversion H; subst. simpl. auto. Qed.

Lemma consistent_intro (b : Board) (s : State) :
  dicts_agree (move s) -> consistent_list b (successors s) ->
  consistent b s.
Proof. destruct s as [m v t l]. simpl. now constructor. Qed.

Lemma consistent_set_val (b : Board) (s : State) (v : Num) :
  consistent b s -> consistent b (set_val s v).
Proof.
  intros H. apply consistent_inv in H. destruct H.
  now apply consistent_intro.
Qed.

Lemma consistent_list_In (b : Board) (l : list State) (s : State) :
  consistent_list b l -> In s l ->
  exists mv, move s = Some mv /\ recorded_on b mv /\ writes_symbols mv
             /\ consistent (made mv b) s.
Proof.
  induction 1 as [|b s0 rest mv Hm Hr Hw Hc Hrest IH]; simpl; [tauto|].
  intros [->|Hin]; eauto.
Qed.

Lemma consistent_list_children (b : Board) (turn : bool)
    (moves : list Move) :
  valid_board b -> Forall (generated_on b) moves ->
  consistent_list b (map (fun mv => State_new (Some mv) turn) moves).
Proof.
  intros Hv. induction 1 as [|mv moves Hmv Hmoves IH]; simpl.
  - constructor.
  - pose proof (generated_on_recorded b mv Hmv) as Hrec.
    apply consistent_cons with (mv := mv); auto.
    + now apply generated_on_symbols with (b := b).
    + constructor; [|constructor]. exact (proj1 Hrec).
Qed.

Lemma runs_bind_lift_some {A B} (a : A) (k : A -> M B) (b : Board)
    (Q : B -> Board -> Prop) :
  runs (k a) b Q -> runs (bind (lift_option (Some a)) k) b Q.
Proof. intros H. exact H. Qed.

Lemma runs_bind_make {B} (mv : Move) (k : unit -> M B) (b : Board)
    (Q : B -> Board -> Prop) :
  shape8 b -> recorded_on b mv ->
  runs (k tt) (made mv b) Q -> runs (bind (make mv) k) b Q.
Proof.
  intros Hb Hrec H. unfold runs, bind.
  rewrite (proj1 (make_ok b mv Hb Hrec)). exact H.
Qed.

Lemma runs_bind_unmake {B} (mv : Move) (k : unit -> M B) (b : Board)
    (Q : B -> Board -> Prop) :
  shape8 b -> recorded_on b mv ->
  runs (k tt) b Q -> runs (bind (unmake mv) k) (made mv b) Q.
Proof.
  intros Hb Hrec H. unfold runs, bind.
  rewrite (unmake_made b mv Hb Hrec). exact H.
Qed.

Section SearchLemmas.
Variable player_color : string.

Lemma successors_fold (moves : list Move) :
  forall st,
    fold_left
      (fun st mv =>
         set_successors st
           (successors st
            ++ [State_new (Some mv)
                  (if player_turn st then false else true)]))
      moves st
    = set_successors st
        (successors st
         ++ map (fun mv => State_new (Some mv)
                             (if player_turn st then false else true))
                moves).
Proof.
  induction moves as [|mv moves IH]; intros st.
  - destruct st as [m v t l]. unfold set_successors. simpl.
    now rewrite app_nil_r.
  - cbn [fold_left map]. rewrite IH. destruct st as [m v t l].
    unfold set_successors. cbn [move val player_turn successors].
    now rewrite <- app_assoc.
Qed.

Lemma get_successors_reads (b : Board) (s : State) :
  valid_board b -> consistent b s ->
  reads (get_successors player_color s) b
        (fun r => snd r = successors (fst r)
                  /\ val (fst r) = val s
                  /\ node_kept b s (fst r)).
Proof.
  intros Hv Hs. pose proof (valid_board_shape b Hv) as Hb.
  destruct (consistent_inv b s Hs) as [Hd Hl].
  unfold get_successors.
  destruct (successors s) as [|c l] eqn:El.
  - cbn [List.length Z.of_nat Z.eqb].
    eapply reads_bind; [now apply possible_moves_sound|].
    intros moves Hmoves. cbv zeta. apply reads_ret.
    rewrite successors_fold. rewrite El. cbn [app fst snd].
    destruct s as [mv v turn succs].
    unfold set_successors, node_kept.
    cbn [move val player_turn successors] in *.
    do 4 (split; [reflexivity|]).
    constructor; auto. now apply consistent_list_children.
  - replace (Z.of_nat (List.length (c :: l)) =? 0) with false
      by (symmetry; apply Z.eqb_neq; simpl; lia).
    apply reads_ret. cbn [fst snd]. unfold node_kept. auto.
Qed.

Lemma mobility_reads (b : Board) (s : State) :
  valid_board b -> consistent b s ->
  reads (mobility player_color s) b (fun r => node_kept b s (fst r)).
Proof.
  intros Hv Hs. unfold mobility.
  eapply reads_bind; [now apply get_successors_reads|].
  intros [s' l] (El & _ & Hk). cbn [fst snd] in *.
  apply reads_bind with (P := fun _ => True);
    [|intros; now apply reads_ret].
  destruct Hk as (_ & _ & Hc). apply consistent_inv in Hc.
  destruct Hc as [_ Hl]. rewrite <- El in Hl.
  apply reads_foldM; [|exact I]. intros m next Hnext _.
  destruct (consistent_list_In b l next Hl Hnext) as (mv & -> & _).
  apply reads_bind_lift_some. apply mobility_of_move_reads.
Qed.

Lemma evaluate_reads (b : Board) (s : State) :
  valid_board b -> consistent b s ->
  reads (evaluate player_color s) b (fun r => node_kept b s (fst r)).
Proof.
  intros Hv Hs. unfold evaluate.
  eapply reads_bind; [now apply material_reads|]. intros mat _.
  eapply reads_bind;
    [apply pawn_structure_reads; now apply valid_board_shape|].
  intros ps _.
  eapply reads_bind; [now apply mobility_reads|].
  intros [s' mob] Hk. now apply reads_ret.
Qed.

Lemma alphabeta_leaf_reads (b : Board) (s : State) :
  valid_board b -> consistent b s ->
  reads (alphabeta_leaf player_color s) b
        (fun r => node_kept b s (fst r) /\ snd r = val (fst r)).
Proof.
  intros Hv Hs. unfold alphabeta_leaf.
  eapply reads_bind; [now apply evaluate_reads|].
  intros [s' v] (Hm & Ht & Hc). cbn [fst] in *. cbv zeta.
  apply reads_ret. cbn [fst snd]. split; [|reflexivity].
  unfold node_kept. cbn [set_val move player_turn].
  split; [assumption|]. split; [assumption|].
  now apply (consistent_set_val b s' (Fin v)).
Qed.
End SearchLemmas.

Lemma reads_bind_eq {A B} (m : M A) (a : A) (k : A -> M B) (b : Board)
    (Q : B -> Prop) :
  m b = Some (a, b) -> reads (k a) b Q -> reads (bind m k) b Q.
Proof. intros E H. unfold reads, runs, bind. rewrite E. exact H. Qed.

Section SearchRuns.
Variable player_color : string.

Lemma max_loop_reads search (b : Board) :
  valid_board b -> search_ok search ->
  forall succs v alpha beta,
    consistent_list b succs ->
    reads (max_loop search succs v alpha beta) b
          (fun r => consistent_list b (fst r)).
Proof.
  intros Hv Hsearch. pose proof (valid_board_shape b Hv) as Hb.
  induction succs as [|s rest IH]; intros v alpha beta Hl.
  - apply reads_ret. constructor.
  - inversion Hl as [|? ? ? mv Hmove Hrec Hsym Hc Hrest]; subst.
    cbn [max_loop]. rewrite Hmove. unfold reads.
    apply runs_bind_lift_some. apply runs_bind_make; auto.
    apply runs_bind.
    eapply runs_weaken;
      [apply (Hsearch s (made mv b) alpha beta); auto;
       now apply valid_board_made|].
    intros [s' x] b' [-> (Hm & Ht & Hc')]. cbn [fst] in *. cbv zeta.
    rewrite Hm, Hmove.
    apply runs_bind_lift_some. apply runs_bind_unmake; auto.
    assert (Hcons : forall l, consistent_list b l ->
                              consistent_list b (s' :: l)).
    { intros l Hl'. apply consistent_cons with (mv := mv); auto.
      congruence. }
    destruct (num_le beta (num_max alpha (num_max v x))).
    + apply runs_ret. split; [reflexivity|]. cbn [fst]. auto.
    + apply runs_bind.
      eapply runs_weaken; [apply IH; auto|].
      intros [rest' v'] b' [-> Hl']. cbn [fst] in *.
      apply runs_ret. split; [reflexivity|]. cbn [fst]. auto.
Qed.

Lemma min_loop_reads search (b : Board) :
  valid_board b -> search_ok search ->
  forall succs v alpha beta,
    consistent_list b succs ->
    reads (min_loop search succs v alpha beta) b
          (fun r => consistent_list b (fst r)).
Proof.
  intros Hv Hsearch. pose proof (valid_board_shape b Hv) as Hb.
  induction succs as [|s rest IH]; intros v alpha beta Hl.
  - apply reads_ret. constructor.
  - inversion Hl as [|? ? ? mv Hmove Hrec Hsym Hc Hrest]; subst.
    cbn [min_loop]. rewrite Hmove. unfold reads.
    apply runs_bind_lift_some. apply runs_bind_make; auto.
    apply runs_bind.
    eapply runs_weaken;
      [apply (Hsearch s (made mv b) alpha beta); auto;
       now apply valid_board_made|].
    intros [s' x] b' [-> (Hm & Ht & Hc')]. cbn [fst] in *. cbv zeta.
    rewrite Hm, Hmove.
    apply runs_bind_lift_some. apply runs_bind_unmake; auto.
    assert (Hcons : forall l, consistent_list b l ->
                              consistent_list b (s' :: l)).
    { intros l Hl'. apply consistent_cons with (mv := mv); auto.
      congruence. }
    destruct (num_le (num_min beta (num_min v x)) alpha).
    + apply runs_ret. split; [reflexivity|]. cbn [fst]. auto.
    + apply runs_bind.
      eapply runs_weaken; [apply IH; auto|].
      intros [rest' v'] b' [-> Hl']. cbn [fst] in *.
      apply runs_ret. split; [reflexivity|]. cbn [fst]. auto.
Qed.

Lemma alphabeta_reads (depth : nat) :
  forall s b alpha beta,
    valid_board b -> consistent b s ->
    reads (alphabeta player_color s depth alpha beta) b
          (fun r => node_kept b s (fst r) /\ snd r = val (fst r)).
Proof.
  induction depth as [|depth IH]; intros s b alpha beta Hv Hs.
  - now apply alphabeta_leaf_reads.
  - cbn [alphabeta].
    destruct (consistent_inv b s Hs) as [Hd _].
    eapply reads_bind_eq; [now apply is_game_over_eq|].
    destruct (match move s with
              | Some mv => king_captured mv
              | None => false
              end); [now apply alphabeta_leaf_reads|].
    assert (Hsearch : search_ok (fun s0 => alphabeta player_color s0 depth)).
    { intros child b1 a1 b1' Hv1 Hc1.
      eapply reads_weaken; [now apply IH|]. cbv beta. tauto. }
    destruct (player_turn s) eqn:Eturn; cbv zeta.
    + eapply reads_bind;
        [apply get_successors_reads;
         [exact Hv | apply consistent_set_val; exact Hs]|].
      intros [s1 l] (El & _ & Hm & Ht & Hc). cbn [fst snd] in *.
      destruct (consistent_inv b s1 Hc) as [Hd1 Hl1].
      eapply reads_bind;
        [apply max_loop_reads; [exact Hv | exact Hsearch |];
         rewrite El; exact Hl1|].
      intros [l' v'] Hl'. cbn [fst] in *.
      apply reads_ret. cbn [fst snd]. split; [|reflexivity].
      unfold node_kept. cbn [set_val set_successors move player_turn].
      cbn [set_val move player_turn] in Hm, Ht.
      split; [assumption|]. split; [congruence|].
      now constructor.
    + eapply reads_bind;
        [apply get_successors_reads;
         [exact Hv | apply consistent_set_val; exact Hs]|].
      intros [s1 l] (El & _ & Hm & Ht & Hc). cbn [fst snd] in *.
      destruct (consistent_inv b s1 Hc) as [Hd1 Hl1].
      eapply reads_bind;
        [apply min_loop_reads; [exact Hv | exact Hsearch |];
         rewrite El; exact Hl1|].
      intros [l' v'] Hl'. cbn [fst] in *.
      apply reads_ret. cbn [fst snd]. split; [|reflexivity].
      unfold node_kept. cbn [set_val set_successors move player_turn].
      cbn [set_val move player_turn] in Hm, Ht.
      split; [assumption|]. split; [congruence|].
      now constructor.
Qed.
End SearchRuns.

Lemma printout_reads (b : Board) :
  shape8 b -> reads printout b (fun _ => True).
Proof.
  intros Hb. unfold printout.
  apply reads_foldM; [|exact I]. intros s r Hr _.
  apply reads_foldM; [|exact I]. intros s' c Hc _.
  apply reads_bind_get_cell; auto.
  - split; now apply range8_on_board.
  - now apply reads_ret.
Qed.

Section DriverRuns.
Variable player_color : string.

Lemma print_best_reads (b : Board) (v : Num) :
  shape8 b ->
  forall succs,
    consistent_list b succs ->
    reads (print_best succs v) b (fun _ => True).
Proof.
  intros Hb. induction 1 as [|b s rest mv Hm Hr Hw Hc Hrest IH].
  - now apply reads_ret.
  - cbn [print_best]. destruct (num_eq (val s) v); [|now apply IH].
    rewrite Hm. unfold reads. apply runs_bind_lift_some.
    apply runs_bind_make; auto. apply runs_bind.
    eapply runs_weaken;
      [apply printout_reads; now apply (make_ok b mv)|].
    intros out b' [-> _]. apply runs_bind_unmake; auto.
    apply runs_ret. auto.
Qed.

Lemma driver_round_reads (b : Board) (cur : State) (d : nat) :
  valid_board b -> consistent b cur ->
  reads (driver_round player_color cur d) b
        (fun r => consistent b (fst r)).
Proof.
  intros Hv Hc. unfold driver_round.
  eapply reads_bind; [now apply alphabeta_reads|].
  intros [cur1 score] [(_ & _ & Hc1) _]. cbn [fst] in Hc1.
  eapply reads_bind; [now apply get_successors_reads|].
  intros [cur2 succs] (El & _ & _ & _ & Hc2). cbn [fst snd] in *.
  apply reads_bind with (P := fun _ => True).
  - apply print_best_reads; [now apply valid_board_shape|].
    rewrite El. now apply consistent_inv.
  - intros out _. now apply reads_ret.
Qed.

Lemma driver_reads (b : Board) (ds : list nat) :
  valid_board b ->
  forall cur, consistent b cur ->
              reads (driver player_color cur ds) b (fun _ => True).
Proof.
  intros Hv. induction ds as [|d ds IH]; intros cur Hc.
  - now apply reads_ret.
  - cbn [driver].
    eapply reads_bind; [now apply driver_round_reads|].
    intros [cur' out] Hc'. cbn [fst] in Hc'.
    eapply reads_bind; [now apply IH|].
    intros outs _. now apply reads_ret.
Qed.
End DriverRuns.

Lemma consistent_current (b : Board) : consistent b current.
Proof. unfold current, State_new. constructor; [exact I | constructor]. Qed.

(** ** The claims *)

(** C1.  A call of [alphabeta], at any depth and with any window, on a valid
    board and a node whose tree fits the board, returns and leaves the board
    cell for cell as it was; the tree still fits the board afterwards, so the
    same holds for the next call on the node.  In particular the driver loop
    from the root, over any list of depths, leaves the board as it was. *)
Theorem alphabeta_restores_board (player_color : string) (b : Board) :
  valid_board b ->
  (forall s depth alpha beta,
      consistent b s ->
      exists s' v,
        alphabeta player_color s depth alpha beta b = Some ((s', v), b)
        /\ consistent b s')
  /\ (forall ds,
         exists outs, driver player_color current ds b = Some (outs, b)).
Proof.
  intros Hv. split.
  - intros s depth alpha beta Hs.
    destruct (reads_elim _ _ _
                (alphabeta_reads player_color depth s b alpha beta Hv Hs))
      as ([s' v] & E & (_ & _ & Hc) & _).
    exists s', v. auto.
  - intros ds.
    destruct (reads_elim _ _ _
                (driver_reads player_color b ds Hv current
                   (consistent_current b)))
      as (outs & E & _).
    eauto.
Qed.

(** C2.  On an 8 x 8 board, for every move that [possible_moves] returns,
    [make] followed by [unmake] succeeds and gives back the board, cell for
    cell. *)
Theorem make_unmake_restores (b b' : Board) (color : string)
    (moves : list Move) (mv : Move) :
  shape8 b ->
  possible_moves color b = Some (moves, b') ->
  In mv moves ->
  b' = b
  /\ exists b1, make mv b = Some (tt, b1) /\ unmake mv b1 = Some (tt, b).
Proof.
  intros Hb Hgen Hin.
  destruct (possible_moves_total b color Hb) as (moves0 & E & Hall).
  rewrite E in Hgen. injection Hgen as <- <-.
  split; [reflexivity|].
  rewrite Forall_forall in Hall.
  pose proof (generated_on_recorded b mv (Hall mv Hin)) as Hrec.
  exists (made mv b). split.
  - exact (proj1 (make_ok b mv Hb Hrec)).
  - now apply unmake_made.
Qed.

(** C8.  On an 8 x 8 board move generation returns for every colour string:
    no cell outside the board is read (such a read is a fault of the model),
    and no cell is written.  Every move returned puts a piece on a
    destination on the board and empties an origin on the board, and touches
    nothing else. *)
Theorem possible_moves_in_bounds (b : Board) (color : string) :
  shape8 b ->
  exists moves,
    possible_moves color b = Some (moves, b)
    /\ Forall
         (fun mv =>
            (exists r1 c1 p r c,
                mv = step_move b r1 c1 p r c
                /\ on_board r1 c1 /\ on_board r c)
            /\ Forall (fun k => on_board (fst k) (snd k)) (keys (changes mv))
            /\ Forall (fun k => on_board (fst k) (snd k))
                      (keys (undo_changes mv)))
         moves.
Proof.
  intros Hb.
  destruct (possible_moves_total b color Hb) as (moves & E & Hall).
  exists moves. split; [exact E|].
  eapply Forall_impl; [|exact Hall]. intros mv Hmv.
  pose proof (generated_on_recorded b mv Hmv) as Hrec.
  pose proof (recorded_on_keys b mv Hrec) as Hkeys.
  destruct Hmv as (r1 & c1 & p & r & c & H1 & H0 & _ & _ & ->).
  split; [exists r1, c1, p, r, c; auto|].
  split; [exact Hkeys|].
  destruct Hrec as [-> _]. exact Hkeys.
Qed.

(** ** The claims on sample positions *)

Lemma alphabeta_restores_board_witness :
  valid_board sample_board
  /\ (exists s' v,
         alphabeta "w" current 2 NegInf PosInf sample_board
         = Some ((s', v), sample_board)
         /\ consistent sample_board s')
  /\ (exists outs,
         driver "w" current [2%nat; 3%nat] sample_board
         = Some (outs, sample_board)).
Proof.
  assert (Hv : valid_board sample_board) by (vm_compute; reflexivity).
  destruct (alphabeta_restores_board "w" sample_board Hv) as [H1 H2].
  split; [exact Hv|]. split.
  - apply H1. apply consistent_current.
  - apply H2.
Defined.

Lemma make_unmake_restores_witness :
  sample_board = sample_board
  /\ exists b1,
       make sample_capture sample_board = Some (tt, b1)
       /\ unmake sample_capture b1 = Some (tt, sample_board).
Proof.
  apply (make_unmake_restores sample_board sample_board "w" sample_moves
           sample_capture).
  - vm_compute. reflexivity.
  - vm_compute. reflexivity.
  - vm_compute. left. reflexivity.
Defined.

Lemma possible_moves_in_bounds_witness :
  exists moves,
    possible_moves "w" sample_board = Some (moves, sample_board)
    /\ Forall
         (fun mv =>
            (exists r1 c1 p r c,
                mv = step_move sample_board r1 c1 p r c
                /\ on_board r1 c1 /\ on_board r c)
            /\ Forall (fun k => on_board (fst k) (snd k)) (keys (changes mv))
            /\ Forall (fun k => on_board (fst k) (snd k))
                      (keys (undo_changes mv)))
         moves.
Proof.
  apply (possible_moves_in_bounds sample_board "w").
  vm_compute. reflexivity.
Defined.

(** ** What the evaluation does to the board *)

Lemma readonly_mobility_of_move (mv : Move) (m : Q) :
  readonly (mobility_of_move mv m).
Proof. unfold mobility_of_move. readonly_tac. Qed.

Lemma readonly_get_successors (player_color : string) (s : State) :
  readonly (get_successors player_color s).
Proof.
  unfold get_successors. readonly_tac. apply readonly_possible_moves.
Qed.

Lemma readonly_material (player_color : string) :
  readonly (material player_color).
Proof. unfold material. readonly_tac. Qed.

Lemma readonly_pawn_structure (player_color : string) (s : State) :
  readonly (pawn_structure player_color s).
Proof.
  unfold pawn_structure, pawn_structure_at. readonly_tac.
Qed.

Lemma readonly_mobility (player_color : string) (s : State) :
  readonly (mobility player_color s).
Proof.
  unfold mobility. readonly_tac.
  - apply readonly_get_successors.
  - apply readonly_mobility_of_move.
Qed.

Lemma readonly_evaluate (player_color : string) (s : State) :
  readonly (evaluate player_color s).
Proof.
  unfold evaluate. readonly_tac.
  - apply readonly_material.
  - apply readonly_pawn_structure.
  - apply readonly_mobility.
Qed.

(** C10.  [evaluate] never changes the board: whenever it returns, the
    board is the board it was called on, although the node comes back with
    its successor cache filled; and on a valid board, for a node whose tree
    fits the board, it does return. *)
Theorem evaluate_keeps_board (player_color : string) (s : State)
    (b : Board) :
  (forall r b', evaluate player_color s b = Some (r, b') -> b' = b)
  /\ (valid_board b -> consistent b s ->
      exists r, evaluate player_color s b = Some (r, b)).
Proof.
  split.
  - intros r b'. apply readonly_evaluate.
  - intros Hv Hs.
    destruct (reads_elim _ _ _ (evaluate_reads player_color b s Hv Hs))
      as (r & E & _).
    eauto.
Qed.

Lemma evaluate_keeps_board_witness :
  exists r,
    evaluate "w" current sample_board = Some (r, sample_board)
    /\ (forall b', evaluate "w" current sample_board = Some (r, b') ->
                   b' = sample_board).
Proof.
  destruct (evaluate_keeps_board "w" current sample_board)
    as [Hframe Htotal].
  destruct Htotal as [r E].
  - vm_compute. reflexivity.
  - apply consistent_current.
  - exists r. split; [exact E|]. intros b'. apply Hframe.
Defined.

(** ** Nodes without moves *)

Lemma get_successors_returns (player_color : string) (s s1 : State)
    (l : list State) (b b1 : Board) :
  get_successors player_color s b = Some ((s1, l), b1) ->
  l = successors s1.
Proof.
  unfold get_successors.
  destruct (Z.of_nat (List.length (successors s)) =? 0).
  - unfold bind.
    destruct (possible_moves _ b) as [[moves b']|]; [|discriminate].
    cbv zeta. unfold ret. intros [= <- <- _]. reflexivity.
  - unfold ret. intros [= <- <- _]. reflexivity.
Qed.

Lemma get_successors_set_val (player_color : string) (s : State) (v : Num)
    (b : Board) :
  get_successors player_color (set_val s v) b
  = match get_successors player_color s b with
    | Some ((s1, l), b1) => Some ((set_val s1 v, l), b1)
    | None => None
    end.
Proof.
  unfold get_successors.
  cbn [set_val successors player_turn].
  destruct (Z.of_nat (List.length (successors s)) =? 0); [|reflexivity].
  unfold bind.
  destruct (possible_moves _ b) as [[moves b']|]; [|reflexivity].
  cbv zeta. unfold ret. rewrite !successors_fold.
  destruct s as [m v0 t l]. reflexivity.
Qed.

(** C9.  At a node that is not terminal, with depth at least 1, whose
    [get_successors] returns the empty list, [alphabeta] returns minus
    infinity when it is the player's turn and plus infinity otherwise, and
    the node's value is set to that infinity: the loop runs no round. *)
Theorem alphabeta_no_successors (player_color : string) (s s1 : State)
    (depth : nat) (alpha beta : Num) (b b1 : Board) :
  (1 <= depth)%nat ->
  is_game_over s b = Some (false, b) ->
  get_successors player_color s b = Some ((s1, []), b1) ->
  let inf := if player_turn s then NegInf else PosInf in
  alphabeta player_color s depth alpha beta b
  = Some ((set_val s1 inf, inf), b1)
  /\ val (set_val s1 inf) = inf.
Proof.
  intros Hdepth Hover Hsucc inf. split; [|reflexivity].
  destruct depth as [|depth]; [lia|].
  pose proof (get_successors_returns _ _ _ _ _ _ Hsucc) as Hnil.
  cbn [alphabeta]. unfold bind at 1. rewrite Hover.
  subst inf. destruct (player_turn s); cbv zeta; unfold bind;
    rewrite get_successors_set_val, Hsucc; cbn [max_loop min_loop ret];
    destruct s1 as [m v t l]; cbn [successors] in Hnil; subst l;
    reflexivity.
Qed.

Lemma alphabeta_no_successors_witness :
  alphabeta "w" current 3 NegInf PosInf lone_king_board
  = Some ((set_val current NegInf, NegInf), lone_king_board)
  /\ val (set_val current NegInf) = NegInf.
Proof.
  apply (alphabeta_no_successors "w" current current 3 NegInf PosInf
           lone_king_board lone_king_board).
  - lia.
  - reflexivity.
  - vm_compute. reflexivity.
Defined.

(** ** The successor cache *)

(** C4, as stated, fails: a node whose first expansion found no move is
    expanded again by the next call, and returns another list if the board
    has changed in between. *)
Lemma get_successors_recomputed :
  ~ (forall player_color s s1 s2 l1 l2 b1 b1' b2 b2',
        get_successors player_color s b1 = Some ((s1, l1), b1') ->
        get_successors player_color s1 b2 = Some ((s2, l2), b2') ->
        l2 = l1).
Proof.
  intros H.
  specialize (H "w"%string current current
                (set_successors current
                   (children true
                      [step_move pawn_board 2 0 "P" 1 0;
                       step_move pawn_board 3 0 "P" 1 0]))
                []
                (children true
                   [step_move pawn_board 2 0 "P" 1 0;
                    step_move pawn_board 3 0 "P" 1 0])
                lone_king_board lone_king_board pawn_board pawn_board).
  assert (E : children true
                [step_move pawn_board 2 0 "P" 1 0;
                 step_move pawn_board 3 0 "P" 1 0] = []).
  { apply H; vm_compute; reflexivity. }
  discriminate E.
Qed.

(** C4, amended.  A node whose successor list is not empty returns that list
    from [get_successors] on every board, unchanged and without a look at
    the board; a node whose list is empty is expanded from the board of the
    call, and the list is kept in the node. *)
Theorem get_successors_cached (player_color : string) (s : State) :
  (successors s <> [] ->
   forall b, get_successors player_color s b = Some ((s, successors s), b))
  /\ (successors s = [] ->
      forall b,
        shape8 b ->
        exists moves,
          possible_moves (if player_turn s then player_color
                          else opponent_color player_color) b
          = Some (moves, b)
          /\ get_successors player_color s b
             = Some ((set_successors s (children (player_turn s) moves),
                      children (player_turn s) moves), b)).
Proof.
  split.
  - intros Hne b. unfold get_successors.
    destruct (successors s) as [|c l]; [congruence|].
    replace (Z.of_nat (List.length (c :: l)) =? 0) with false
      by (symmetry; apply Z.eqb_neq; simpl; lia).
    reflexivity.
  - intros Hnil b Hb.
    destruct (possible_moves_total
                b (if player_turn s then player_color
                   else opponent_color player_color) Hb)
      as (moves & E & _).
    exists moves. split; [exact E|].
    unfold get_successors. rewrite Hnil. cbn [List.length Z.of_nat Z.eqb].
    unfold bind. rewrite E. cbv zeta. rewrite successors_fold, Hnil.
    reflexivity.
Qed.

Lemma get_successors_cached_witness :
  get_successors "w"
    (set_successors current
       (children true [step_move pawn_board 2 0 "P" 1 0]))
    lone_king_board
  = Some ((set_successors current
             (children true [step_move pawn_board 2 0 "P" 1 0]),
           children true [step_move pawn_board 2 0 "P" 1 0]),
          lone_king_board)
  /\ exists moves,
       possible_moves "w" pawn_board = Some (moves, pawn_board)
       /\ get_successors "w" current pawn_board
          = Some ((set_successors current (children true moves),
                   children true moves), pawn_board).
Proof.
  split.
  - apply (proj1 (get_successors_cached "w"
                    (set_successors current
                       (children true
                          [step_move pawn_board 2 0 "P" 1 0])))).
    simpl. discriminate.
  - apply (proj2 (get_successors_cached "w" current)).
    + reflexivity.
    + vm_compute. reflexivity.
Defined.

(** ** Terminal nodes and leaves *)

Lemma dict_get_keys (d : list (Z * Z * ascii)) (k : Z * Z) (v : ascii) :
  dict_get key_eqb d k = Some v -> In k (keys d).
Proof.
  intros H. apply dict_get_In in H.
  unfold keys. change k with (fst (k, v)). now apply in_map.
Qed.

Lemma king_captured_iff (mv : Move) :
  king_captured mv = true <-> records_king_capture mv.
Proof.
  unfold king_captured, records_king_capture.
  rewrite existsb_exists. split.
  - intros (key & _ & H).
    destruct (dict_get key_eqb (undo_changes mv) key) as [u|] eqn:Eu;
      [|discriminate].
    destruct (dict_get key_eqb (changes mv) key) as [n|] eqn:En;
      [|discriminate].
    exists key, n. split; [exact En|].
    apply orb_true_iff in H.
    destruct H as [H|H]; apply andb_true_iff in H; destruct H as [Hu Hn];
      apply Ascii.eqb_eq in Hu; subst u; auto.
  - intros (key & n & Hn & [[Hu Hin]|[Hu Hin]]); exists key;
      (split; [now apply dict_get_keys in Hu|]);
      rewrite Hu, Hn, Hin; reflexivity.
Qed.

(** C3.  For a node whose move, if it has one, was filled by [add_change],
    [is_game_over] returns, and returns true exactly when the node has a move
    whose undo dictionary records a king replaced by a piece of the other
    side; the root, which has no move, is never terminal.  At depth 0, or
    when [is_game_over] is true, [alphabeta] is the leaf exit whatever the
    depth: the node's value is set to [evaluate] of the node and returned,
    and nothing else is run. *)
Theorem terminal_nodes_are_leaves (player_color : string) (s : State)
    (b : Board) :
  (dicts_agree (move s) ->
   exists over,
     is_game_over s b = Some (over, b)
     /\ (over = true <->
         exists mv, move s = Some mv /\ records_king_capture mv))
  /\ (move s = None -> is_game_over s b = Some (false, b))
  /\ (forall depth alpha beta,
         depth = 0%nat \/ is_game_over s b = Some (true, b) ->
         alphabeta player_color s depth alpha beta b
         = match evaluate player_color s b with
           | Some ((s1, v), b1) => Some ((set_val s1 (Fin v), Fin v), b1)
           | None => None
           end).
Proof.
  split; [|split].
  - intros Hd. rewrite (is_game_over_eq s b Hd).
    eexists. split; [reflexivity|].
    destruct (move s) as [mv|].
    + rewrite king_captured_iff. split.
      * intros H. exists mv. auto.
      * intros (mv' & [= <-] & H). exact H.
    + split; [discriminate|]. intros (mv & E & _). discriminate.
  - intros Hnone. unfold is_game_over. rewrite Hnone. reflexivity.
  - intros depth alpha beta Hleaf.
    assert (Eleaf : alphabeta_leaf player_color s b
                    = match evaluate player_color s b with
                      | Some ((s1, v), b1) =>
                          Some ((set_val s1 (Fin v), Fin v), b1)
                      | None => None
                      end).
    { unfold alphabeta_leaf, bind.
      destruct (evaluate player_color s b) as [[[s1 v] b1]|]; reflexivity. }
    rewrite <- Eleaf.
    destruct depth as [|depth]; [reflexivity|].
    destruct Hleaf as [Hz|Hover]; [discriminate|].
    cbn [alphabeta]. unfold bind at 1. rewrite Hover. reflexivity.
Qed.

Lemma terminal_nodes_are_leaves_witness :
  is_game_over king_taken (made sample_capture sample_board)
  = Some (true, made sample_capture sample_board)
  /\ is_game_over king_stepped sample_board = Some (false, sample_board)
  /\ is_game_over current sample_board = Some (false, sample_board)
  /\ alphabeta "w" king_taken 5 NegInf PosInf
       (made sample_capture sample_board)
     = match evaluate "w" king_taken (made sample_capture sample_board) with
       | Some ((s1, v), b1) => Some ((set_val s1 (Fin v), Fin v), b1)
       | None => None
       end.
Proof.
  destruct (terminal_nodes_are_leaves
              "w" king_taken (made sample_capture sample_board))
    as (Hover & _ & Hleaf).
  destruct (terminal_nodes_are_leaves "w" king_stepped sample_board)
    as (Hstep & _ & _).
  destruct (terminal_nodes_are_leaves "w" current sample_board)
    as (_ & Hroot & _).
  destruct Hover as (over & E & Hiff); [reflexivity|].
  destruct Hstep as (over' & E' & Hiff'); [reflexivity|].
  assert (Ht : over = true).
  { apply Hiff. exists sample_capture. split; [reflexivity|].
    exists (3, 2), "P". vm_compute. auto. }
  assert (Hf : over' = false).
  { destruct over'; [|reflexivity]. exfalso.
    destruct (proj1 Hiff' eq_refl) as (mv & [= <-] & key & n & Hn & Hk).
    simpl in Hn, Hk.
    destruct (key_eqb key (1, 1)).
    - destruct Hk as [[[=] _]|[[=] _]].
    - destruct (key_eqb key (0, 0)); [|discriminate].
      injection Hn as <-. destruct Hk as [[_ [=]]|[[=] _]]. }
  subst over over'.
  split; [exact E|]. split; [exact E'|]. split.
  - apply Hroot. reflexivity.
  - apply Hleaf. right. exact E.
Defined.

(** ** Pawn structure *)

(** C7, as stated, fails: a pawn with two defenders counts twice. *)
Lemma pawn_structure_counts_twice :
  ~ (forall b,
        valid_board b ->
        exists q,
          pawn_structure "w" current b = Some (q, b)
          /\ (q == inject_Z (defended_pawns b "P" (-1)))%Q).
Proof.
  intros H. destruct (H chain_board) as (q & E & Hq).
  - vm_compute. reflexivity.
  - vm_compute in E. injection E as <-.
    vm_compute in Hq. discriminate Hq.
Qed.

Lemma Qplus_inject_one (n : Z) : (inject_Z n + 1)%Q = inject_Z (n + 1).
Proof. unfold Qplus, inject_Z. simpl. f_equal. lia. Qed.

Lemma foldM_count (f : Q -> Z -> M Q) (g : Z -> Z) (l : list Z)
    (b : Board) :
  (forall n x, In x l -> f (inject_Z n) x b = Some (inject_Z (n + g x), b)) ->
  forall n,
    foldM f l (inject_Z n) b = Some (inject_Z (n + Zsum (map g l)), b).
Proof.
  induction l as [|x l IH]; intros Hf n.
  - simpl. unfold ret. now rewrite Z.add_0_r.
  - cbn [foldM map Zsum fold_right]. unfold bind.
    rewrite Hf by (simpl; auto).
    fold (Zsum (map g l)).
    rewrite IH by (intros; apply Hf; simpl; auto).
    now rewrite Z.add_assoc.
Qed.

Lemma pawn_structure_at_count (b : Board) (pawn : ascii) (back n r c : Z) :
  shape8 b -> on_board r c ->
  pawn_structure_at pawn back (inject_Z n) r c b
  = Some (inject_Z (n + defences_at b pawn back r c), b).
Proof.
  intros Hb Hrc.
  enough (H : reads (pawn_structure_at pawn back (inject_Z n) r c) b
                (fun q => q = inject_Z (n + defences_at b pawn back r c))).
  { apply reads_elim in H. destruct H as (q & E & ->). exact E. }
  unfold pawn_structure_at, defences_at, defender_at. cbv zeta.
  apply reads_bind_get_cell; auto.
  destruct (Ascii.eqb (cell b r c) pawn);
    [|apply reads_ret; now rewrite Z.add_0_r].
  repeat match goal with
    | |- reads (bind (and_then (?x && ?y) _) _) _ _ =>
        let E1 := fresh "E" in
        let E2 := fresh "E" in
        destruct x eqn:E1; destruct y eqn:E2;
        cbn [andb]; unfold and_then at 1
    | |- reads (ret _) _ _ => apply reads_ret
    | _ => read_step
    end.
  all: repeat match goal with
         | |- context [Ascii.eqb ?x ?y] => destruct (Ascii.eqb x y)
         end.
  all: rewrite ?Qplus_inject_one; cbn [andb]; f_equal; lia.
Qed.

(** C7, amended.  On the player's own plies [pawn_structure] is the number
    of defences of the player's pawns (['P'] and the rank below for the
    colour ['w'], ['p'] and the rank above otherwise): a pawn is counted
    once for each of its two diagonal squares one rank behind that holds a
    pawn of its side.  On the other plies it is 0. *)
Theorem pawn_structure_counts_defences (player_color : string) (s : State)
    (b : Board) :
  shape8 b ->
  pawn_structure player_color s b
  = Some (if player_turn s
          then inject_Z
                 (if String.eqb player_color "w"
                  then pawn_defences b "P" (-1)
                  else pawn_defences b "p" 1)
          else 0%Q, b).
Proof.
  intros Hb. unfold pawn_structure. cbv zeta.
  destruct (player_turn s); [|reflexivity].
  change 0%Q with (inject_Z 0).
  destruct (String.eqb player_color "w"); unfold pawn_defences.
  - rewrite (foldM_count
               _ (fun r => Zsum (map (defences_at b "P" (-1) r) range8)));
      [reflexivity|].
    intros n r Hr. apply foldM_count.
    intros n' c Hc. apply pawn_structure_at_count; auto.
    split; now apply range8_on_board.
  - rewrite (foldM_count
               _ (fun r => Zsum (map (defences_at b "p" 1 r) range8)));
      [reflexivity|].
    intros n r Hr. apply foldM_count.
    intros n' c Hc. apply pawn_structure_at_count; auto.
    split; now apply range8_on_board.
Qed.

Lemma pawn_structure_counts_defences_witness :
  pawn_structure "w" current chain_board = Some ((2 # 1)%Q, chain_board)
  /\ pawn_structure "w" (State_new None false) chain_board
     = Some (0%Q, chain_board).
Proof.
  split.
  - rewrite (pawn_structure_counts_defences "w" current chain_board)
      by (vm_compute; reflexivity).
    vm_compute. reflexivity.
  - rewrite (pawn_structure_counts_defences
               "w" (State_new None false) chain_board)
      by (vm_compute; reflexivity).
    reflexivity.
Defined.

(** ** One step of [add_move_in_dir] *)

Lemma add_move_in_dir_fuel_off (fuel : nat) (moves : list Move)
    (color : string) (r c dr dc depth : Z) (b : Board) :
  ~ on_board (r + depth * dr) (c + depth * dc) ->
  add_move_in_dir_fuel (S fuel) moves color r c dr dc depth b
  = Some (moves, b).
Proof.
  intros Hoff. cbn [add_move_in_dir_fuel].
  destruct (in_range8 (r + depth * dr)) eqn:Er;
    destruct (in_range8 (c + depth * dc)) eqn:Ec; try reflexivity.
  exfalso. apply Hoff. test_facts. split; assumption.
Qed.

Lemma add_move_in_dir_fuel_on (fuel : nat) (moves : list Move)
    (color : string) (r c dr dc depth : Z) (b : Board) :
  shape8 b -> on_board r c ->
  on_board (r + depth * dr) (c + depth * dc) ->
  (r + depth * dr, c + depth * dc) <> (r, c) ->
  is_piece (cell b r c) = true ->
  add_move_in_dir_fuel (S fuel) moves color r c dr dc depth b
  = let x := cell b (r + depth * dr) (c + depth * dc) in
    let mv := step_move b (r + depth * dr) (c + depth * dc)
                (cell b r c) r c in
    if own_piece color x then Some (moves, b)
    else if opposing_piece color x then
      Some (if Qgt_bool (Qabs (weight x)) (Qabs (weight (cell b r c)))
            then mv :: moves else moves ++ [mv], b)
    else if Ascii.eqb x "." then
      if in_list (cell b r c) single_move_pieces
      then Some (moves ++ [mv], b)
      else add_move_in_dir_fuel fuel (moves ++ [mv]) color r c dr dc
             (depth + 1) b
    else Some (moves, b).
Proof.
  intros Hb Hrc Hon Hne Hp. cbv zeta. cbn [add_move_in_dir_fuel].
  assert (Er : in_range8 (r + depth * dr) = true)
    by (unfold on_board, in_range8 in *; lia).
  assert (Ec : in_range8 (c + depth * dc) = true)
    by (unfold on_board, in_range8 in *; lia).
  rewrite Er, Ec. cbn [negb orb].
  unfold bind at 1. rewrite get_cell_ok by assumption.
  set (x := cell b (r + depth * dr) (c + depth * dc)).
  fold (own_piece color x). fold (opposing_piece color x).
  destruct (own_piece color x); [reflexivity|].
  destruct (opposing_piece color x) eqn:Eopp.
  - assert (Hx : is_piece x = true).
    { unfold opposing_piece in Eopp. unfold is_piece.
      destruct (in_list x white_pieces), (in_list x black_pieces);
        simpl in *; auto. }
    unfold bind, add_change. unfold bind.
    repeat (first [ rewrite get_cell_ok by assumption
                  | rewrite (is_piece_weight x Hx)
                  | rewrite (is_piece_weight _ Hp) ];
            cbn [lift_option ret]).
    cbn [changes undo_changes]. rewrite two_changes by assumption.
    destruct (Qgt_bool _ _); reflexivity.
  - destruct (Ascii.eqb x "."); [|reflexivity].
    unfold bind, add_change. unfold bind.
    repeat (rewrite get_cell_ok by assumption; cbn [lift_option ret]).
    cbn [changes undo_changes]. rewrite two_changes by assumption.
    destruct (in_list (cell b r c) single_move_pieces); reflexivity.
Qed.

(** ** The order of the moves *)

(** Uses the tests met on the way to simplify the lists of the statement. *)
Ltac use_tests :=
  repeat match goal with
    | H : _ = true |- _ => rewrite !H; clear H
    | H : _ = false |- _ => rewrite !H; clear H
    end.

Ltac pawn_lists :=
  cbn [changes undo_changes];
  rewrite ?two_changes by board_side;
  use_tests; cbn [andb app];
  rewrite <- ?app_assoc; cbn [app]; rewrite ?app_nil_r; reflexivity.

Lemma wp_moves_eq (b : Board) (moves : list Move) (r c : Z) :
  shape8 b -> on_board r c ->
  wp_moves moves r c b
  = Some (wp_captures b r c ++ moves ++ wp_advances b r c, b).
Proof.
  intros Hb Hrc.
  enough (H : reads (wp_moves moves r c) b
                (fun ms => ms = wp_captures b r c ++ moves
                                ++ wp_advances b r c)).
  { apply reads_elim in H. destruct H as (ms & E & ->). exact E. }
  unfold wp_moves, wp_captures, wp_advances. cbv zeta.
  repeat read_step; pawn_lists.
Qed.

Lemma bp_moves_eq (b : Board) (moves : list Move) (r c : Z) :
  shape8 b -> on_board r c ->
  bp_moves moves r c b
  = Some (bp_captures b r c ++ moves ++ bp_advances b r c, b).
Proof.
  intros Hb Hrc.
  enough (H : reads (bp_moves moves r c) b
                (fun ms => ms = bp_captures b r c ++ moves
                                ++ bp_advances b r c)).
  { apply reads_elim in H. destruct H as (ms & E & ->). exact E. }
  unfold bp_moves, bp_captures, bp_advances. cbv zeta.
  repeat read_step; pawn_lists.
Qed.

Lemma white_not_black (x : ascii) :
  in_list x white_pieces = true -> in_list x black_pieces = false.
Proof.
  unfold in_list, white_pieces, black_pieces. cbn [existsb].
  repeat match goal with
    | |- context [Ascii.eqb x ?y] =>
        destruct (Ascii.eqb_spec x y) as [->|_];
        [intros; reflexivity|]; cbn [orb]
    end.
  discriminate.
Qed.

Lemma black_not_white (x : ascii) :
  in_list x black_pieces = true -> in_list x white_pieces = false.
Proof.
  intros Hb. destruct (in_list x white_pieces) eqn:Hw; [|reflexivity].
  apply white_not_black in Hw. congruence.
Qed.

Lemma opposing_not_own (color : string) (x : ascii) :
  opposing_piece color x = true -> own_piece color x = false.
Proof.
  unfold opposing_piece, own_piece.
  destruct (String.eqb_spec color "w") as [->|_];
    [|destruct (String.eqb_spec color "b") as [->|_]];
    cbn [String.eqb Ascii.eqb Bool.eqb andb orb];
    rewrite ?andb_true_r, ?andb_false_r, ?orb_false_r, ?orb_false_l;
    try discriminate.
  - apply black_not_white.
  - apply white_not_black.
Qed.

(** ** The moves of a king *)

Lemma king_not_lighter (x k : ascii) :
  is_piece x = true -> k = "K" \/ k = "k" ->
  Qgt_bool (Qabs (weight x)) (Qabs (weight k)) = false.
Proof.
  intros Hx Hk. revert Hx.
  unfold is_piece, in_list, white_pieces, black_pieces. cbn [existsb].
  repeat match goal with
    | |- context [Ascii.eqb x ?y] =>
        destruct (Ascii.eqb_spec x y) as [->|_];
        [intros _; destruct Hk as [->| ->]; reflexivity|]; cbn [orb]
    end.
  discriminate.
Qed.

Lemma king_dir (b : Board) (color : string) (moves : list Move)
    (r c dr dc : Z) :
  valid_board b -> on_board r c -> king_at b color r c ->
  dr <> 0 \/ dc <> 0 ->
  add_move_in_dir moves color r c dr dc b
  = Some (moves ++ king_step b color r c (dr, dc), b).
Proof.
  intros Hv Hrc Hking Hd. pose proof (valid_board_shape b Hv) as Hb.
  unfold add_move_in_dir, king_step. cbn [fst snd].
  rewrite recursion_limit_S.
  destruct (in_range8 (r + dr)) eqn:Er;
    [destruct (in_range8 (c + dc)) eqn:Ec|]; cbn [andb].
  - assert (Hon : on_board (r + 1 * dr) (c + 1 * dc))
      by (test_facts; unfold on_board; lia).
    assert (Hne : (r + 1 * dr, c + 1 * dc) <> (r, c))
      by (intros X; apply pair_equal_spec in X; lia).
    assert (Hpiece : is_piece (cell b r c) = true)
      by (destruct Hking as [[_ ->]|[_ ->]]; reflexivity).
    assert (Hsingle : in_list (cell b r c) single_move_pieces = true)
      by (destruct Hking as [[_ ->]|[_ ->]]; reflexivity).
    rewrite add_move_in_dir_fuel_on by assumption. cbv zeta.
    rewrite !Z.mul_1_l in *.
    pose proof (valid_board_cell b _ _ Hv Hon) as Hsym.
    set (x := cell b (r + dr) (c + dc)) in *.
    destruct (own_piece color x) eqn:Eown; cbn [negb];
      [now rewrite app_nil_r|].
    destruct (opposing_piece color x) eqn:Eopp.
    + rewrite king_not_lighter; [reflexivity| |].
      * unfold opposing_piece in Eopp. unfold is_piece.
        destruct (in_list x white_pieces), (in_list x black_pieces);
          simpl in *; auto.
      * destruct Hking as [[_ ->]|[_ ->]]; auto.
    + rewrite Hsingle.
      destruct (Ascii.eqb x ".") eqn:Edot; [reflexivity|].
      exfalso. unfold is_symbol, is_piece in Hsym. rewrite Edot in Hsym.
      unfold own_piece in Eown. unfold opposing_piece in Eopp.
      destruct Hking as [[-> _]|[-> _]];
        cbn [String.eqb Ascii.eqb Bool.eqb andb orb] in Eown, Eopp;
        destruct (in_list x white_pieces), (in_list x black_pieces);
        discriminate.
  - rewrite add_move_in_dir_fuel_off; [now rewrite app_nil_r|].
    test_facts. unfold on_board. rewrite !Z.mul_1_l.
    apply in_range8_false in Ec. tauto.
  - rewrite add_move_in_dir_fuel_off; [now rewrite app_nil_r|].
    unfold on_board. rewrite !Z.mul_1_l.
    apply in_range8_false in Er. tauto.
Qed.

Lemma king_origin (b : Board) (color : string) (moves : list Move)
    (r c : Z) :
  valid_board b -> on_board r c -> king_at b color r c ->
  add_move_in_dir moves color r c 0 0 b = Some (moves, b).
Proof.
  intros Hv Hrc Hking.
  assert (H : reads (add_move_in_dir moves color r c 0 0) b
                (fun ms => ms = moves)).
  { apply add_move_in_dir_origin; auto.
    - now apply valid_board_shape.
    - destruct Hking as [[-> ->]|[-> ->]]; reflexivity. }
  apply reads_elim in H. destruct H as (ms & E & ->). exact E.
Qed.

Lemma adjacent_offsets_spec (dr dc : Z) :
  In (dr, dc) adjacent_offsets
  <-> -1 <= dr <= 1 /\ -1 <= dc <= 1 /\ (dr <> 0 \/ dc <> 0).
Proof.
  unfold adjacent_offsets. simpl. split.
  - intros H.
    repeat (destruct H as [[= <- <-]|H]; [lia|]). contradiction.
  - intros (Hr & Hc & Hne).
    assert (Er : dr = -1 \/ dr = 0 \/ dr = 1) by lia.
    assert (Ec : dc = -1 \/ dc = 0 \/ dc = 1) by lia.
    destruct Er as [->|[->| ->]], Ec as [->|[->| ->]]; try tauto; lia.
Qed.

(** C5.  The moves [k_moves] adds for the king of the side to move are
    exactly its steps to the adjacent squares that are on the board and do
    not hold a piece of its colour, one move for each such square: no move
    to the king's own square, and no move of more than one step. *)
Theorem king_moves_exact (b : Board) (color : string) (moves : list Move)
    (r c : Z) :
  valid_board b -> on_board r c -> king_at b color r c ->
  k_moves moves color r c b = Some (moves ++ king_steps b color r c, b)
  /\ (forall mv,
         In mv (king_steps b color r c) <->
         exists r1 c1,
           mv = step_move b r1 c1 (cell b r c) r c
           /\ on_board r1 c1
           /\ (r1, c1) <> (r, c)
           /\ Z.abs (r1 - r) <= 1 /\ Z.abs (c1 - c) <= 1
           /\ own_piece color (cell b r1 c1) = false).
Proof.
  intros Hv Hrc Hking. split.
  - enough (H : reads (k_moves moves color r c) b
                  (fun ms => ms = moves ++ king_steps b color r c)).
    { apply reads_elim in H. destruct H as (ms & E & ->). exact E. }
    unfold k_moves. cbn -[add_move_in_dir].
    repeat match goal with
      | |- reads (bind (bind _ _) _) _ _ => apply reads_bind_assoc
      | |- reads (bind (add_move_in_dir _ _ _ _ 0 0) _) _ _ =>
          eapply reads_bind_eq; [apply king_origin; assumption|]
      | |- reads (bind (add_move_in_dir _ _ _ _ _ _) _) _ _ =>
          eapply reads_bind_eq; [apply king_dir; [assumption .. | lia]|]
      | |- reads (bind (ret _) _) _ _ => apply reads_bind_ret
      | |- reads (ret _) _ _ => apply reads_ret
      end.
    unfold king_steps, adjacent_offsets. cbn [flat_map].
    rewrite app_nil_r, <- !app_assoc. reflexivity.
  - intros mv. unfold king_steps. rewrite in_flat_map. split.
    + intros ([dr dc] & Hd & Hin). apply adjacent_offsets_spec in Hd.
      unfold king_step in Hin. cbn [fst snd] in Hin.
      destruct (in_range8 (r + dr)) eqn:Er; [|contradiction].
      destruct (in_range8 (c + dc)) eqn:Ec; [|contradiction].
      destruct (own_piece color (cell b (r + dr) (c + dc))) eqn:Eown;
        [contradiction|].
      destruct Hin as [<-|[]]. exists (r + dr), (c + dc).
      test_facts. unfold on_board.
      repeat split; try lia; auto.
      intros X. inversion X. lia.
    + intros (r1 & c1 & -> & Hon & Hne & Hr & Hc & Hown).
      exists (r1 - r, c1 - c). split.
      * apply adjacent_offsets_spec.
        assert (r1 - r <> 0 \/ c1 - c <> 0).
        { destruct (Z.eq_dec r1 r) as [->|]; [|lia].
          destruct (Z.eq_dec c1 c) as [->|]; [|lia]. congruence. }
        lia.
      * unfold king_step. cbn [fst snd].
        replace (r + (r1 - r)) with r1 by lia.
        replace (c + (c1 - c)) with c1 by lia.
        destruct Hon as [Hr1 Hc1].
        assert (Er : in_range8 r1 = true) by (unfold in_range8; lia).
        assert (Ec : in_range8 c1 = true) by (unfold in_range8; lia).
        rewrite Er, Ec, Hown. simpl. auto.
Qed.

Lemma king_moves_exact_witness :
  k_moves [] "w" 0 0 corner_board
  = Some ([step_move corner_board 1 0 "K" 0 0;
           step_move corner_board 1 1 "K" 0 0], corner_board).
Proof.
  destruct (king_moves_exact corner_board "w" [] 0 0) as [E _].
  - vm_compute. reflexivity.
  - unfold on_board. lia.
  - left. split; reflexivity.
  - rewrite E. vm_compute. reflexivity.
Defined.

(** ** The moves of the generator, as a set *)

Lemma own_not_target (color : string) (x : ascii) :
  own_piece color x = true -> target_ok color x = false.
Proof.
  intros Hown. unfold target_ok.
  destruct (opposing_piece color x) eqn:Eopp.
  - apply opposing_not_own in Eopp. congruence.
  - rewrite orb_false_r. destruct (Ascii.eqb_spec x ".") as [->|]; auto.
Qed.

Lemma own_is_piece (color : string) (x : ascii) :
  own_piece color x = true -> is_piece x = true.
Proof.
  unfold own_piece, is_piece.
  destruct (in_list x white_pieces), (in_list x black_pieces);
    simpl; auto.
Qed.

(** The first step of a walk: it ends there, or the cell is empty, the piece
    slides, and the walk goes on from the next cell. *)
Lemma reach_from_first (b : Board) (color : string) (r c : Z) (d : Z * Z)
    (depth : Z) (mv : Move) :
  reach_from b color r c d depth mv ->
  (on_board (r + depth * fst d) (c + depth * snd d)
   /\ target_ok color (cell b (r + depth * fst d) (c + depth * snd d))
      = true
   /\ mv = step_move b (r + depth * fst d) (c + depth * snd d)
             (cell b r c) r c)
  \/ (on_board (r + depth * fst d) (c + depth * snd d)
      /\ cell b (r + depth * fst d) (c + depth * snd d) = "."
      /\ in_list (cell b r c) single_move_pieces = false
      /\ reach_from b color r c d (depth + 1) mv).
Proof.
  intros (k & Hk & Hkon & Hbetween & Hok & Hsingle & ->).
  destruct (Z.eq_dec k depth) as [->|Hne]; [left; auto|].
  right. destruct (Hbetween depth ltac:(lia)) as [Hon Hempty].
  split; [exact Hon|]. split; [exact Hempty|]. split.
  - destruct (in_list (cell b r c) single_move_pieces); auto.
    exfalso. apply Hne. now apply Hsingle.
  - exists k. split; [lia|]. split; [exact Hkon|]. split.
    + intros j Hj. apply Hbetween. lia.
    + split; [exact Hok|]. split; [|reflexivity].
      intros Hs. apply Hsingle in Hs. lia.
Qed.

Lemma reach_from_here (b : Board) (color : string) (r c : Z) (d : Z * Z)
    (depth : Z) :
  on_board (r + depth * fst d) (c + depth * snd d) ->
  target_ok color (cell b (r + depth * fst d) (c + depth * snd d)) = true ->
  reach_from b color r c d depth
    (step_move b (r + depth * fst d) (c + depth * snd d) (cell b r c) r c).
Proof.
  intros Hon Hok. exists depth. split; [lia|]. split; [exact Hon|].
  split; [intros j Hj; lia|]. split; [exact Hok|]. split; auto.
Qed.

Lemma reach_from_next (b : Board) (color : string) (r c : Z) (d : Z * Z)
    (depth : Z) (mv : Move) :
  on_board (r + depth * fst d) (c + depth * snd d) ->
  cell b (r + depth * fst d) (c + depth * snd d) = "." ->
  in_list (cell b r c) single_move_pieces = false ->
  reach_from b color r c d (depth + 1) mv ->
  reach_from b color r c d depth mv.
Proof.
  intros Hon Hempty Hs (k & Hk & Hkon & Hbetween & Hok & Hsingle & ->).
  exists k. split; [lia|]. split; [exact Hkon|]. split.
  - intros j Hj. destruct (Z.eq_dec j depth) as [->|]; [auto|].
    apply Hbetween. lia.
  - split; [exact Hok|]. split; [|reflexivity]. intros Hs'. congruence.
Qed.

Lemma empty_not_piece (color : string) :
  own_piece color "." = false /\ opposing_piece color "." = false.
Proof.
  unfold own_piece, opposing_piece. split; reflexivity.
Qed.

(** What one call of [add_move_in_dir] adds to the list, whatever the place
    it is put at. *)
Lemma add_move_in_dir_fuel_members (b : Board) (color : string)
    (r c dr dc : Z) :
  shape8 b -> on_board r c -> own_piece color (cell b r c) = true ->
  dr <> 0 \/ dc <> 0 ->
  forall fuel depth moves,
    1 <= depth -> (1 <= fuel)%nat -> 10 - depth <= Z.of_nat fuel ->
    exists moves',
      add_move_in_dir_fuel fuel moves color r c dr dc depth b
      = Some (moves', b)
      /\ forall mv,
           In mv moves' <->
           In mv moves \/ reach_from b color r c (dr, dc) depth mv.
Proof.
  intros Hb Hrc Hown Hd.
  pose proof (own_is_piece _ _ Hown) as Hp.
  induction fuel as [|fuel IH]; intros depth moves Hdepth Hfuel Hle;
    [lia|].
  destruct (in_range8 (r + depth * dr) && in_range8 (c + depth * dc))
    eqn:Eon.
  - apply andb_true_iff in Eon. destruct Eon as [Er Ec].
    assert (Hon : on_board (r + depth * dr) (c + depth * dc))
      by (test_facts; unfold on_board; lia).
    assert (Hne : (r + depth * dr, c + depth * dc) <> (r, c))
      by (intros X; apply pair_equal_spec in X; nia).
    assert (Hdepth8 : depth <= 8)
      by (test_facts; unfold on_board in *; nia).
    rewrite add_move_in_dir_fuel_on by assumption. cbv zeta.
    pose proof (reach_from_first b color r c (dr, dc) depth) as Hfirst.
    pose proof (reach_from_here b color r c (dr, dc) depth Hon) as Hhere.
    pose proof (reach_from_next b color r c (dr, dc) depth) as Hnext.
    cbn [fst snd] in Hfirst, Hhere, Hnext.
    destruct (empty_not_piece color) as [Hdot1 Hdot2].
    set (x := cell b (r + depth * dr) (c + depth * dc)) in *.
    set (mv0 := step_move b (r + depth * dr) (c + depth * dc)
                  (cell b r c) r c) in *.
    destruct (own_piece color x) eqn:Eown.
    { exists moves. split; [reflexivity|]. intros mv. split; auto.
      intros [Hin|Hr]; auto. exfalso.
      destruct (Hfirst mv Hr) as [(_ & Hok & _)|(_ & Hx & _)].
      - rewrite own_not_target in Hok by assumption. discriminate.
      - rewrite Hx in Eown. congruence. }
    destruct (opposing_piece color x) eqn:Eopp.
    { assert (Hok : target_ok color x = true)
        by (unfold target_ok; rewrite Eopp; apply orb_true_r).
      eexists. split; [reflexivity|]. intros mv.
      assert (Hiff : reach_from b color r c (dr, dc) depth mv <-> mv = mv0).
      { split.
        - intros Hr. destruct (Hfirst mv Hr) as [(_ & _ & E)|(_ & Hx & _)];
            [exact E|].
          rewrite Hx in Eopp. congruence.
        - intros ->. auto. }
      rewrite Hiff.
      destruct (Qgt_bool _ _); simpl; rewrite ?in_app_iff; simpl;
        intuition congruence. }
    destruct (Ascii.eqb_spec x ".") as [Hx|Hx].
    + assert (Hok : target_ok color x = true)
        by (unfold target_ok; rewrite Hx; reflexivity).
      destruct (in_list (cell b r c) single_move_pieces) eqn:Esingle.
      * eexists. split; [reflexivity|]. intros mv.
        rewrite in_app_iff. simpl. split.
        -- intros [Hin|[<-|[]]]; auto.
        -- intros [Hin|Hr]; auto.
           destruct (Hfirst mv Hr) as [(_ & _ & E)|(_ & _ & Hs & _)];
             [auto|discriminate].
      * destruct (IH (depth + 1) (moves ++ [mv0]))
          as (moves' & E & Hmem); try lia.
        exists moves'. split; [exact E|]. intros mv.
        rewrite Hmem, in_app_iff. simpl. split.
        -- intros [[Hin|[<-|[]]]|Hr]; auto.
        -- intros [Hin|Hr]; auto.
           destruct (Hfirst mv Hr) as [(_ & _ & E')|(_ & _ & _ & Hr')];
             auto.
    + exists moves. split; [reflexivity|]. intros mv. split; auto.
      intros [Hin|Hr]; auto. exfalso.
      destruct (Hfirst mv Hr) as [(_ & Hok & _)|(_ & Hx' & _)];
        [|contradiction].
      unfold target_ok in Hok. rewrite Eopp in Hok.
      destruct (Ascii.eqb_spec x "."); [contradiction|discriminate].
  - rewrite add_move_in_dir_fuel_off.
    + exists moves. split; [reflexivity|]. intros mv. split; auto.
      intros [Hin|Hr]; auto. exfalso.
      destruct (reach_from_first _ _ _ _ _ _ _ Hr) as [(Hon & _)|(Hon & _)];
        cbn [fst snd] in Hon; apply andb_false_iff in Eon;
        unfold on_board, in_range8 in *; lia.
    + intros Hon. apply andb_false_iff in Eon.
      unfold on_board, in_range8 in *. lia.
Qed.

Lemma adds_ret (b : Board) (moves : list Move) (S : Move -> Prop) :
  (forall mv, ~ S mv) -> adds b (ret moves) moves S.
Proof.
  intros HS. apply reads_ret. intros mv. split; auto.
  intros [H|H]; auto. now apply HS in H.
Qed.

Lemma adds_weaken (b : Board) (m : M (list Move)) (moves : list Move)
    (S S' : Move -> Prop) :
  (forall mv, S mv <-> S' mv) -> adds b m moves S -> adds b m moves S'.
Proof.
  intros HS H. apply (reads_weaken _ _ _ _ H).
  intros moves' Hm mv. specialize (Hm mv). specialize (HS mv). tauto.
Qed.

Lemma adds_bind (b : Board) (m : M (list Move))
    (k : list Move -> M (list Move)) (moves : list Move)
    (S1 S2 : Move -> Prop) :
  adds b m moves S1 ->
  (forall moves1, adds b (k moves1) moves1 S2) ->
  adds b (bind m k) moves (fun mv => S1 mv \/ S2 mv).
Proof.
  intros Hm Hk. eapply reads_bind; [exact Hm|].
  intros moves1 H1. apply (reads_weaken _ _ _ _ (Hk moves1)).
  intros moves2 H2 mv. specialize (H2 mv). specialize (H1 mv). tauto.
Qed.

Lemma adds_foldM {A} (b : Board) (f : list Move -> A -> M (list Move))
    (S : A -> Move -> Prop) (l : list A) :
  (forall acc x, In x l -> adds b (f acc x) acc (S x)) ->
  forall acc,
    adds b (foldM f l acc) acc (fun mv => exists x, In x l /\ S x mv).
Proof.
  induction l as [|x l IH]; intros Hf acc.
  - apply adds_ret. intros mv (x & [] & _).
  - cbn [foldM].
    apply adds_weaken
      with (S := fun mv => S x mv \/ exists y, In y l /\ S y mv).
    + intros mv. split.
      * intros [H|(y & Hy & H)]; [exists x|exists y]; simpl; auto.
      * intros (y & [<-|Hy] & H); eauto.
    + apply adds_bind.
      * apply Hf. simpl. auto.
      * intros moves1. apply IH. intros acc' y Hy. apply Hf. simpl. auto.
Qed.

Lemma adds_eq (b : Board) (m : M (list Move)) (moves moves' : list Move)
    (S : Move -> Prop) :
  m b = Some (moves', b) ->
  (forall mv, In mv moves' <-> In mv moves \/ S mv) ->
  adds b m moves S.
Proof. intros E H. now apply (reads_intro _ _ _ _ E). Qed.

Lemma reach_origin_empty (b : Board) (color : string) (r c : Z) (mv : Move) :
  own_piece color (cell b r c) = true ->
  ~ reach b color r c (0, 0) mv.
Proof.
  intros Hown Hr. apply reach_from_first in Hr. cbn [fst snd] in Hr.
  rewrite !Z.mul_0_r, !Z.add_0_r in Hr.
  destruct Hr as [(_ & Hok & _)|(_ & Hx & _)].
  - rewrite own_not_target in Hok by assumption. discriminate.
  - rewrite Hx in Hown. destruct (empty_not_piece color). congruence.
Qed.

Section DirectionsAdd.
Variables (b : Board) (color : string) (r c : Z).
Hypothesis Hb : shape8 b.
Hypothesis Hrc : on_board r c.
Hypothesis Hown : own_piece color (cell b r c) = true.

Lemma adds_dir (moves : list Move) (dr dc : Z) :
  adds b (add_move_in_dir moves color r c dr dc) moves
       (reach b color r c (dr, dc)).
Proof.
  destruct (Z.eq_dec dr 0) as [->|Hdr];
    [destruct (Z.eq_dec dc 0) as [->|Hdc]|].
  - apply (reads_weaken _ _ (fun ms => ms = moves)).
    + now apply add_move_in_dir_origin.
    + intros ms -> mv. split; auto. intros [H|H]; auto.
      now apply reach_origin_empty in H.
  - unfold add_move_in_dir. pose proof recursion_limit_large.
    destruct (add_move_in_dir_fuel_members
                b color r c 0 dc Hb Hrc Hown (or_intror Hdc)
                recursion_limit 1 moves) as (moves' & E & Hmem);
      try lia.
    exact (adds_eq _ _ _ _ _ E Hmem).
  - unfold add_move_in_dir. pose proof recursion_limit_large.
    destruct (add_move_in_dir_fuel_members
                b color r c dr dc Hb Hrc Hown (or_introl Hdr)
                recursion_limit 1 moves) as (moves' & E & Hmem);
      try lia.
    exact (adds_eq _ _ _ _ _ E Hmem).
Qed.

Lemma adds_r_moves (moves : list Move) :
  adds b (r_moves moves color r c) moves
       (fun mv => exists d, In d rook_dirs /\ reach b color r c d mv).
Proof.
  unfold r_moves.
  eapply adds_weaken;
    [|apply adds_bind; [apply adds_dir|intros moves1];
      apply adds_bind; [apply adds_dir|intros moves2];
      apply adds_bind; [apply adds_dir|intros moves3];
      apply adds_dir].
  intros mv. unfold rook_dirs. simpl. split.
  - intros [H|[H|[H|H]]];
      [exists (1, 0)|exists (-1, 0)|exists (0, 1)|exists (0, -1)];
      simpl; auto 10.
  - intros (d & [<-|[<-|[<-|[<-|[]]]]] & H); auto.
Qed.

Lemma adds_b_moves (moves : list Move) :
  adds b (b_moves moves color r c) moves
       (fun mv => exists d, In d bishop_dirs /\ reach b color r c d mv).
Proof.
  unfold b_moves.
  eapply adds_weaken;
    [|apply adds_foldM
        with (S := fun dr mv =>
                     exists dc, In dc [-1; 1]
                                /\ reach b color r c (dr, dc) mv);
      intros acc dr _;
      apply adds_foldM
        with (S := fun dc mv => reach b color r c (dr, dc) mv);
      intros acc' dc _; apply adds_dir].
  intros mv. unfold bishop_dirs. simpl. split.
  - intros (dr & Hdr & dc & Hdc & H).
    exists (dr, dc). split; [|exact H]. intuition (subst; auto).
  - intros (d & Hd & H).
    repeat (destruct Hd as [<-|Hd]; [eexists; split; [|eexists; split;
      [|exact H]]; simpl; auto|]).
    contradiction.
Qed.

Lemma adds_q_moves (moves : list Move) :
  adds b (q_moves moves color r c) moves
       (fun mv => exists d, In d queen_dirs /\ reach b color r c d mv).
Proof.
  unfold q_moves.
  eapply adds_weaken;
    [|apply adds_bind; [apply adds_r_moves|intros moves1];
      apply adds_b_moves].
  intros mv. unfold queen_dirs. split.
  - intros [(d & Hd & H)|(d & Hd & H)]; exists d; rewrite in_app_iff; auto.
  - intros (d & Hd & H). apply in_app_iff in Hd. destruct Hd; eauto.
Qed.

Lemma adds_n_moves (moves : list Move) :
  adds b (n_moves moves color r c) moves
       (fun mv => exists d, In d knight_jumps /\ reach b color r c d mv).
Proof.
  unfold n_moves.
  eapply adds_weaken;
    [|apply adds_foldM
        with (S := fun dr mv =>
                     exists dc, In dc [-2; -1; 1; 2]
                                /\ (Z.abs dr + Z.abs dc =? 3) = true
                                /\ reach b color r c (dr, dc) mv);
      intros acc dr _;
      apply adds_foldM
        with (S := fun dc mv =>
                     (Z.abs dr + Z.abs dc =? 3) = true
                     /\ reach b color r c (dr, dc) mv);
      intros acc' dc _;
      destruct (Z.abs dr + Z.abs dc =? 3);
      [eapply adds_weaken; [|apply adds_dir]; intros mv; tauto
      |apply adds_ret; intros mv [E _]; discriminate]].
  intros mv. unfold knight_jumps. split.
  - intros (dr & Hdr & dc & Hdc & E & H).
    exists (dr, dc). split; [|exact H].
    simpl in Hdr, Hdc.
    destruct Hdr as [<-|[<-|[<-|[<-|[]]]]];
      destruct Hdc as [<-|[<-|[<-|[<-|[]]]]];
      try discriminate E; simpl; auto 10.
  - intros (d & Hd & H). simpl in Hd.
    repeat (destruct Hd as [<-|Hd];
            [eexists; split; [|eexists; split; [|split; [|exact H]]];
             simpl; auto|]).
    contradiction.
Qed.

Lemma adds_k_moves (moves : list Move) :
  adds b (k_moves moves color r c) moves
       (fun mv => exists d, In d adjacent_offsets
                            /\ reach b color r c d mv).
Proof.
  unfold k_moves.
  eapply adds_weaken;
    [|apply adds_foldM
        with (S := fun dr mv =>
                     exists dc, In dc [-1; 0; 1]
                                /\ reach b color r c (dr, dc) mv);
      intros acc dr _;
      apply adds_foldM
        with (S := fun dc mv => reach b color r c (dr, dc) mv);
      intros acc' dc _;
      replace ((Z.abs dr + Z.abs dc =? 1) || truthy 2) with true
        by (now rewrite orb_true_r);
      apply adds_dir].
  intros mv. split.
  - intros (dr & Hdr & dc & Hdc & H).
    exists (dr, dc). split; [|exact H].
    apply adjacent_offsets_spec. simpl in Hdr, Hdc.
    assert (Hne : dr <> 0 \/ dc <> 0).
    { destruct (Z.eq_dec dr 0) as [->|]; [|auto].
      destruct (Z.eq_dec dc 0) as [->|]; [|auto].
      now apply reach_origin_empty in H. }
    lia.
  - intros ([dr dc] & Hd & H). apply adjacent_offsets_spec in Hd.
    exists dr. split; [simpl; lia|]. exists dc. split; [simpl; lia|].
    exact H.
Qed.
End DirectionsAdd.

Lemma adds_wp_moves (b : Board) (moves : list Move) (r c : Z) :
  shape8 b -> on_board r c ->
  adds b (wp_moves moves r c) moves
       (fun mv => In mv (wp_captures b r c ++ wp_advances b r c)).
Proof.
  intros Hb Hrc. eapply adds_eq; [now apply wp_moves_eq|].
  intros mv. rewrite !in_app_iff. tauto.
Qed.

Lemma adds_bp_moves (b : Board) (moves : list Move) (r c : Z) :
  shape8 b -> on_board r c ->
  adds b (bp_moves moves r c) moves
       (fun mv => In mv (bp_captures b r c ++ bp_advances b r c)).
Proof.
  intros Hb Hrc. eapply adds_eq; [now apply bp_moves_eq|].
  intros mv. rewrite !in_app_iff. tauto.
Qed.

(** Picks the rule of the piece found on the cell. *)
Ltac pick_rule H :=
  first [ split; [solve [auto]|exact H]
        | left; split; [solve [auto]|exact H]
        | right; pick_rule H ].

Ltac piece_rule :=
  intros mv; unfold piece_move; cbv zeta;
  match goal with E : cell _ _ _ = _ |- _ => rewrite E end;
  split;
  [ intros H; split; [reflexivity|]; pick_rule H
  | intros [_ H]; decompose [or and] H; try discriminate; assumption ].

Lemma adds_cell_white (b : Board) (moves : list Move) (r c : Z) :
  shape8 b -> on_board r c ->
  adds b (x <- get_cell r c ;;
          if Ascii.eqb x "P" then wp_moves moves r c
          else if Ascii.eqb x "R" then r_moves moves "w" r c
          else if Ascii.eqb x "B" then b_moves moves "w" r c
          else if Ascii.eqb x "N" then n_moves moves "w" r c
          else if Ascii.eqb x "Q" then q_moves moves "w" r c
          else if Ascii.eqb x "K" then k_moves moves "w" r c
          else ret moves)
       moves (piece_move b "w" r c).
Proof.
  intros Hb Hrc. apply reads_bind_get_cell; auto.
  fold (adds b).
  destruct (Ascii.eqb (cell b r c) "P") eqn:EP;
    [apply Ascii.eqb_eq in EP|].
  { eapply adds_weaken; [|now apply adds_wp_moves]. piece_rule. }
  destruct (Ascii.eqb (cell b r c) "R") eqn:ER;
    [apply Ascii.eqb_eq in ER|].
  { eapply adds_weaken;
      [|apply adds_r_moves; auto; rewrite ER; reflexivity].
    piece_rule. }
  destruct (Ascii.eqb (cell b r c) "B") eqn:EB;
    [apply Ascii.eqb_eq in EB|].
  { eapply adds_weaken;
      [|apply adds_b_moves; auto; rewrite EB; reflexivity].
    piece_rule. }
  destruct (Ascii.eqb (cell b r c) "N") eqn:EN;
    [apply Ascii.eqb_eq in EN|].
  { eapply adds_weaken;
      [|apply adds_n_moves; auto; rewrite EN; reflexivity].
    piece_rule. }
  destruct (Ascii.eqb (cell b r c) "Q") eqn:EQ;
    [apply Ascii.eqb_eq in EQ|].
  { eapply adds_weaken;
      [|apply adds_q_moves; auto; rewrite EQ; reflexivity].
    piece_rule. }
  destruct (Ascii.eqb (cell b r c) "K") eqn:EK;
    [apply Ascii.eqb_eq in EK|].
  { eapply adds_weaken;
      [|apply adds_k_moves; auto; rewrite EK; reflexivity].
    piece_rule. }
  apply adds_ret. intros mv [Hown _].
  apply orb_true_iff in Hown.
  destruct Hown as [H|H]; apply andb_true_iff in H; destruct H as [H1 H2];
    [|discriminate H2].
  unfold in_list, white_pieces in H1. cbn [existsb] in H1.
  rewrite EP, ER, EB, EN, EQ, EK in H1. discriminate H1.
Qed.

Lemma adds_cell_black (b : Board) (moves : list Move) (r c : Z) :
  shape8 b -> on_board r c ->
  adds b (x <- get_cell r c ;;
          if Ascii.eqb x "p" then bp_moves moves r c
          else if Ascii.eqb x "r" then r_moves moves "b" r c
          else if Ascii.eqb x "b" then b_moves moves "b" r c
          else if Ascii.eqb x "n" then n_moves moves "b" r c
          else if Ascii.eqb x "q" then q_moves moves "b" r c
          else if Ascii.eqb x "k" then k_moves moves "b" r c
          else ret moves)
       moves (piece_move b "b" r c).
Proof.
  intros Hb Hrc. apply reads_bind_get_cell; auto.
  fold (adds b).
  destruct (Ascii.eqb (cell b r c) "p") eqn:EP;
    [apply Ascii.eqb_eq in EP|].
  { eapply adds_weaken; [|now apply adds_bp_moves]. piece_rule. }
  destruct (Ascii.eqb (cell b r c) "r") eqn:ER;
    [apply Ascii.eqb_eq in ER|].
  { eapply adds_weaken;
      [|apply adds_r_moves; auto; rewrite ER; reflexivity].
    piece_rule. }
  destruct (Ascii.eqb (cell b r c) "b") eqn:EB;
    [apply Ascii.eqb_eq in EB|].
  { eapply adds_weaken;
      [|apply adds_b_moves; auto; rewrite EB; reflexivity].
    piece_rule. }
  destruct (Ascii.eqb (cell b r c) "n") eqn:EN;
    [apply Ascii.eqb_eq in EN|].
  { eapply adds_weaken;
      [|apply adds_n_moves; auto; rewrite EN; reflexivity].
    piece_rule. }
  destruct (Ascii.eqb (cell b r c) "q") eqn:EQ;
    [apply Ascii.eqb_eq in EQ|].
  { eapply adds_weaken;
      [|apply adds_q_moves; auto; rewrite EQ; reflexivity].
    piece_rule. }
  destruct (Ascii.eqb (cell b r c) "k") eqn:EK;
    [apply Ascii.eqb_eq in EK|].
  { eapply adds_weaken;
      [|apply adds_k_moves; auto; rewrite EK; reflexivity].
    piece_rule. }
  apply adds_ret. intros mv [Hown _].
  apply orb_true_iff in Hown.
  destruct Hown as [H|H]; apply andb_true_iff in H; destruct H as [H1 H2];
    [discriminate H2|].
  unfold in_list, black_pieces in H1. cbn [existsb] in H1.
  rewrite EP, ER, EB, EN, EQ, EK in H1. discriminate H1.
Qed.

Lemma on_board_range8 (x : Z) : 0 <= x < 8 -> In x range8.
Proof.
  intros H. unfold range8. simpl.
  assert (x = 0 \/ x = 1 \/ x = 2 \/ x = 3 \/ x = 4 \/ x = 5 \/ x = 6
          \/ x = 7) by lia.
  intuition auto.
Qed.

(** The moves of [possible_moves], as a set. *)
Lemma possible_moves_set (b : Board) (color : string) :
  shape8 b ->
  exists moves,
    possible_moves color b = Some (moves, b)
    /\ forall mv,
         In mv moves <->
         exists r c, on_board r c /\ piece_move b color r c mv.
Proof.
  intros Hb.
  assert (H : adds b (possible_moves color) []
                (fun mv => exists r, In r range8
                   /\ exists c, In c range8 /\ piece_move b color r c mv)).
  { unfold possible_moves.
    destruct (String.eqb_spec color "w") as [->|Hw];
      [|destruct (String.eqb_spec color "b") as [->|Hb']].
    - apply adds_foldM
        with (S := fun r mv => exists c, In c range8
                                         /\ piece_move b "w" r c mv).
      intros acc r Hr.
      apply adds_foldM with (S := fun c mv => piece_move b "w" r c mv).
      intros acc' c Hc. apply adds_cell_white; auto.
      split; now apply range8_on_board.
    - apply adds_foldM
        with (S := fun r mv => exists c, In c range8
                                         /\ piece_move b "b" r c mv).
      intros acc r Hr.
      apply adds_foldM with (S := fun c mv => piece_move b "b" r c mv).
      intros acc' c Hc. apply adds_cell_black; auto.
      split; now apply range8_on_board.
    - apply adds_ret. intros mv (r & _ & c & _ & Hown & _). revert Hown.
      unfold own_piece.
      destruct (String.eqb_spec color "w"); [contradiction|].
      destruct (String.eqb_spec color "b"); [contradiction|].
      rewrite !andb_false_r. discriminate. }
  apply reads_elim in H. destruct H as (moves & E & Hmem).
  exists moves. split; [exact E|]. intros mv.
  specialize (Hmem mv). simpl in Hmem. split.
  - intros Hin. apply Hmem in Hin.
    destruct Hin as [[]|(r & Hr & c & Hc & H)].
    exists r, c. split; [|exact H].
    split; now apply range8_on_board.
  - intros (r & c & [Hr Hc] & H). apply Hmem. right.
    exists r. split; [now apply on_board_range8|].
    exists c. split; [now apply on_board_range8|]. exact H.
Qed.

(** X1.  On an 8 x 8 board, for every colour string, [possible_moves]
    returns, and the moves it returns are, as a set, exactly the moves of
    the pieces of that colour by the rule of each kind: the captures and
    advances of a pawn, the walks of rook, bishop and queen over empty cells
    up to the first cell that is not empty, the jumps of the knight and the
    steps of the king.  For a colour other than ['w'] and ['b'] there is
    none. *)
Theorem possible_moves_exact (b : Board) (color : string) :
  shape8 b ->
  exists moves,
    possible_moves color b = Some (moves, b)
    /\ forall mv,
         In mv moves <->
         exists r c, on_board r c /\ piece_move b color r c mv.
Proof. apply possible_moves_set. Qed.

Lemma possible_moves_exact_witness :
  exists moves,
    possible_moves "w" sample_board = Some (moves, sample_board)
    /\ forall mv,
         In mv moves <->
         exists r c, on_board r c /\ piece_move sample_board "w" r c mv.
Proof.
  apply (possible_moves_exact sample_board "w").
  vm_compute. reflexivity.
Defined.

Lemma black_is_opposing (x : ascii) :
  in_list x black_pieces = true -> target_ok "w" x = true.
Proof.
  intros H. unfold target_ok, opposing_piece. rewrite H.
  cbn [String.eqb Ascii.eqb Bool.eqb andb orb]. apply orb_true_r.
Qed.

Lemma white_is_opposing (x : ascii) :
  in_list x white_pieces = true -> target_ok "b" x = true.
Proof.
  intros H. unfold target_ok, opposing_piece. rewrite H.
  cbn [String.eqb Ascii.eqb Bool.eqb andb orb].
  rewrite andb_false_r. apply orb_true_r.
Qed.

Lemma empty_is_target (color : string) (x : ascii) :
  Ascii.eqb x "." = true -> target_ok color x = true.
Proof. intros H. unfold target_ok. now rewrite H. Qed.

Lemma in_if_single {A} (cnd : bool) (x y : A) :
  In y (if cnd then [x] else []) -> cnd = true /\ y = x.
Proof. destruct cnd; simpl; intuition. Qed.

(** One move of a pawn: the destination is on the board as soon as the
    tests of the move hold. *)
Ltac pawn_move r1 c1 r c Hrc Hcell Htarget :=
  exists r1, c1, r, c; rewrite Hcell;
  test_facts; unfold on_board in *;
  split; [lia|]; split; [exact Hrc|];
  split; [intros X; apply pair_equal_spec in X; lia|];
  split; [reflexivity|]; split; [exact Htarget|];
  reflexivity.

Lemma wp_pseudo_legal (b : Board) (r c : Z) (mv : Move) :
  on_board r c -> cell b r c = "P" ->
  In mv (wp_captures b r c ++ wp_advances b r c) ->
  pseudo_legal b "w" mv.
Proof.
  intros Hrc Hcell Hin. unfold pseudo_legal. rewrite in_app_iff in Hin.
  unfold wp_captures, wp_advances in Hin.
  destruct (r + 1 <? 8) eqn:E1; [|simpl in Hin; tauto].
  rewrite !in_app_iff in Hin.
  destruct Hin as [[Hin|Hin]|[Hin|Hin]];
    apply in_if_single in Hin; destruct Hin as [Hc ->].
  - apply andb_true_iff in Hc. destruct Hc as [E2 E3].
    apply black_is_opposing in E3.
    pawn_move (r + 1) (c - 1) r c Hrc Hcell E3.
  - apply andb_true_iff in Hc. destruct Hc as [E2 E3].
    apply black_is_opposing in E3.
    pawn_move (r + 1) (c + 1) r c Hrc Hcell E3.
  - apply (empty_is_target "w") in Hc.
    pawn_move (r + 1) c r c Hrc Hcell Hc.
  - apply andb_true_iff in Hc. destruct Hc as [E2 Hc].
    apply andb_true_iff in Hc. destruct Hc as [E3 E4].
    apply Z.eqb_eq in E2. subst r.
    apply (empty_is_target "w") in E4.
    pawn_move 3 c 1 c Hrc Hcell E4.
Qed.

Lemma bp_pseudo_legal (b : Board) (r c : Z) (mv : Move) :
  on_board r c -> cell b r c = "p" ->
  In mv (bp_captures b r c ++ bp_advances b r c) ->
  pseudo_legal b "b" mv.
Proof.
  intros Hrc Hcell Hin. unfold pseudo_legal. rewrite in_app_iff in Hin.
  unfold bp_captures, bp_advances in Hin.
  destruct (r - 1 >? -1) eqn:E1; [|simpl in Hin; tauto].
  rewrite !in_app_iff in Hin.
  destruct Hin as [[Hin|Hin]|[Hin|Hin]];
    apply in_if_single in Hin; destruct Hin as [Hc ->].
  - apply andb_true_iff in Hc. destruct Hc as [E2 E3].
    apply white_is_opposing in E3.
    pawn_move (r - 1) (c - 1) r c Hrc Hcell E3.
  - apply andb_true_iff in Hc. destruct Hc as [E2 E3].
    apply white_is_opposing in E3.
    pawn_move (r - 1) (c + 1) r c Hrc Hcell E3.
  - apply (empty_is_target "b") in Hc.
    pawn_move (r - 1) c r c Hrc Hcell Hc.
  - apply andb_true_iff in Hc. destruct Hc as [E2 Hc].
    apply andb_true_iff in Hc. destruct Hc as [E3 E4].
    apply Z.eqb_eq in E2. subst r.
    apply (empty_is_target "b") in E4.
    pawn_move 4 c 6 c Hrc Hcell E4.
Qed.

Lemma reach_pseudo_legal (b : Board) (color : string) (r c : Z)
    (d : Z * Z) (mv : Move) :
  on_board r c -> own_piece color (cell b r c) = true ->
  Ascii.eqb (cell b r c) "P" = false ->
  Ascii.eqb (cell b r c) "p" = false ->
  reach b color r c d mv ->
  pseudo_legal b color mv.
Proof.
  intros Hrc Hown HP Hp (k & Hk & Hon & _ & Hok & _ & ->).
  exists (r + k * fst d), (c + k * snd d), r, c.
  split; [exact Hon|]. split; [exact Hrc|]. split.
  - intros X. injection X as X1 X2.
    rewrite X1, X2 in Hok. rewrite own_not_target in Hok by assumption.
    discriminate.
  - split; [exact Hown|]. split; [exact Hok|].
    unfold placed_piece. now rewrite HP, Hp.
Qed.

Lemma piece_move_pseudo_legal (b : Board) (color : string) (r c : Z)
    (mv : Move) :
  on_board r c -> piece_move b color r c mv -> pseudo_legal b color mv.
Proof.
  intros Hrc [Hown H].
  assert (Hcolor : forall x,
             own_piece color x = true ->
             (in_list x white_pieces = true /\ color = "w"%string)
             \/ (in_list x black_pieces = true /\ color = "b"%string)).
  { intros x Hx. apply orb_true_iff in Hx.
    destruct Hx as [Hx|Hx]; apply andb_true_iff in Hx;
      destruct Hx as [H1 H2]; apply String.eqb_eq in H2; auto. }
  destruct H as [[Hx Hin]|[[Hx Hin]|H]].
  - destruct (Hcolor _ Hown) as [[_ ->]|[Hb _]].
    + now apply (wp_pseudo_legal b r c).
    + rewrite Hx in Hb. discriminate.
  - destruct (Hcolor _ Hown) as [[Hw _]|[_ ->]].
    + rewrite Hx in Hw. discriminate.
    + now apply (bp_pseudo_legal b r c).
  - assert (Hkind : Ascii.eqb (cell b r c) "P" = false
                    /\ Ascii.eqb (cell b r c) "p" = false)
      by (decompose [or and] H;
          match goal with E : cell _ _ _ = _ |- _ => rewrite E end;
          split; reflexivity).
    destruct Hkind as [HP Hp].
    decompose [or and ex] H;
      eapply reach_pseudo_legal; eauto.
Qed.

(** X2.  Every move of [possible_moves] for a colour goes from a cell that
    holds a piece of that colour to another cell of the board that is empty
    or holds a piece of the other side: no piece takes a piece of its own
    side, none stays where it is, and none of the other side is moved. *)
Theorem possible_moves_pseudo_legal (b b' : Board) (color : string)
    (moves : list Move) :
  shape8 b ->
  possible_moves color b = Some (moves, b') ->
  Forall (pseudo_legal b color) moves.
Proof.
  intros Hb Hgen.
  destruct (possible_moves_set b color Hb) as (moves0 & E & Hmem).
  rewrite E in Hgen. injection Hgen as <- <-.
  apply Forall_forall. intros mv Hin. apply Hmem in Hin.
  destruct Hin as (r & c & Hrc & H).
  now apply (piece_move_pseudo_legal b color r c).
Qed.

(** ** The effect of a generated move *)

Lemma made_step_move (b : Board) (r1 c1 : Z) (p : ascii) (r c r' c' : Z) :
  shape8 b -> on_board r1 c1 -> on_board r c -> (r1, c1) <> (r, c) ->
  on_board r' c' ->
  cell (made (step_move b r1 c1 p r c) b) r' c'
  = if key_eqb (r', c') (r1, c1) then p
    else if key_eqb (r', c') (r, c) then "."
    else cell b r' c'.
Proof.
  intros Hb H1 H0 Hne H'. unfold made, step_move.
  cbn [changes keys map fst].
  rewrite cell_write_all by (auto; repeat constructor; assumption).
  cbn [existsb dict_get].
  destruct (key_eqb (r', c') (r1, c1)) eqn:E1; [reflexivity|].
  destruct (key_eqb (r', c') (r, c)); reflexivity.
Qed.

(** X3.  A move of [possible_moves] for a colour is the move from a cell
    that holds a piece of that colour to another cell of the board.
    [make] of that move returns, puts on the destination the piece that
    stood on the origin, a queen in place of a pawn that reaches the
    farthest row, empties the origin, and leaves every other cell of the
    board as it was. *)
Theorem generated_move_effect (b b' : Board) (color : string)
    (moves : list Move) (mv : Move) :
  shape8 b ->
  possible_moves color b = Some (moves, b') ->
  In mv moves ->
  exists r1 c1 r c b1,
    on_board r1 c1 /\ on_board r c /\ (r1, c1) <> (r, c)
    /\ own_piece color (cell b r c) = true
    /\ mv = step_move b r1 c1 (placed_piece (cell b r c) r1) r c
    /\ make mv b = Some (tt, b1)
    /\ cell b1 r1 c1 = placed_piece (cell b r c) r1
    /\ cell b1 r c = "."
    /\ forall r' c',
         on_board r' c' -> (r', c') <> (r1, c1) -> (r', c') <> (r, c) ->
         cell b1 r' c' = cell b r' c'.
Proof.
  intros Hb Hgen Hin.
  destruct (possible_moves_set b color Hb) as (moves0 & E & Hmem).
  rewrite E in Hgen. injection Hgen as <- <-.
  apply Hmem in Hin. destruct Hin as (r & c & Hrc & H).
  apply piece_move_pseudo_legal in H; [|exact Hrc]. clear r c Hrc.
  destruct H as (r1 & c1 & r & c & H1 & H0 & Hne & Hown & _ & ->).
  exists r1, c1, r, c.
  exists (made (step_move b r1 c1 (placed_piece (cell b r c) r1) r c) b).
  split; [exact H1|]. split; [exact H0|]. split; [exact Hne|].
  split; [exact Hown|]. split; [reflexivity|]. split.
  - apply make_ok; auto. apply generated_on_recorded.
    exists r1, c1, (placed_piece (cell b r c) r1), r, c.
    repeat (split; auto). unfold placed_piece.
    destruct (Ascii.eqb_spec (cell b r c) "P") as [->|];
      [destruct (r1 =? 7); simpl; auto|].
    destruct (Ascii.eqb_spec (cell b r c) "p") as [->|];
      [destruct (r1 =? 0); simpl; auto 6|].
    auto.
  - split; [|split].
    + rewrite made_step_move by auto. now rewrite key_eqb_refl.
    + rewrite made_step_move by auto.
      rewrite key_eqb_neq by congruence. now rewrite key_eqb_refl.
    + intros r' c' H' Hn1 Hn0. rewrite made_step_move by auto.
      now rewrite !key_eqb_neq by assumption.
Qed.

Lemma possible_moves_pseudo_legal_witness :
  Forall (pseudo_legal sample_board "w") sample_moves.
Proof.
  apply (possible_moves_pseudo_legal sample_board sample_board "w").
  - vm_compute. reflexivity.
  - vm_compute. reflexivity.
Defined.

Lemma generated_move_effect_witness :
  exists r1 c1 r c b1,
    on_board r1 c1 /\ on_board r c /\ (r1, c1) <> (r, c)
    /\ own_piece "w" (cell promotion_board r c) = true
    /\ step_move promotion_board 7 3 "Q" 6 3
       = step_move promotion_board r1 c1
           (placed_piece (cell promotion_board r c) r1) r c
    /\ make (step_move promotion_board 7 3 "Q" 6 3) promotion_board
       = Some (tt, b1)
    /\ cell b1 r1 c1 = placed_piece (cell promotion_board r c) r1
    /\ cell b1 r c = "."
    /\ forall r' c',
         on_board r' c' -> (r', c') <> (r1, c1) -> (r', c') <> (r, c) ->
         cell b1 r' c' = cell promotion_board r' c'.
Proof.
  apply (generated_move_effect promotion_board promotion_board "w"
           [step_move promotion_board 0 1 "K" 0 0;
            step_move promotion_board 1 0 "K" 0 0;
            step_move promotion_board 1 1 "K" 0 0;
            step_move promotion_board 7 3 "Q" 6 3]).
  - vm_compute. reflexivity.
  - vm_compute. reflexivity.
  - simpl. auto.
Defined.

(** ** Terminal nodes of the tree *)

Lemma placed_piece_side (x : ascii) (r1 : Z) :
  (in_list x white_pieces = true ->
   in_list (placed_piece x r1) white_pieces = true)
  /\ (in_list x black_pieces = true ->
      in_list (placed_piece x r1) black_pieces = true).
Proof.
  unfold placed_piece.
  destruct (Ascii.eqb_spec x "P") as [->|_];
    [destruct (r1 =? 7); split; intros; auto|].
  destruct (Ascii.eqb_spec x "p") as [->|_];
    [destruct (r1 =? 0); split; intros; auto|].
  auto.
Qed.

Lemma king_captured_step (b : Board) (color : string) (r1 c1 r c : Z) :
  (r1, c1) <> (r, c) ->
  own_piece color (cell b r c) = true ->
  target_ok color (cell b r1 c1) = true ->
  king_captured (step_move b r1 c1 (placed_piece (cell b r c) r1) r c)
  = Ascii.eqb (cell b r1 c1) "K" || Ascii.eqb (cell b r1 c1) "k".
Proof.
  intros Hne Hown Hok. unfold king_captured, step_move.
  cbn [undo_changes changes keys map fst existsb dict_get].
  rewrite !key_eqb_refl. rewrite (key_eqb_neq (r, c) (r1, c1)) by congruence.
  change (in_list "." black_pieces) with false.
  change (in_list "." white_pieces) with false.
  rewrite !andb_false_r. cbn [orb]. rewrite orb_false_r.
  set (x := cell b r1 c1) in *. set (y := cell b r c) in *.
  destruct (placed_piece_side y r1) as [Hw Hb].
  apply orb_true_iff in Hown.
  destruct Hown as [Hown|Hown]; apply andb_true_iff in Hown;
    destruct Hown as [Hy Hcolor]; apply String.eqb_eq in Hcolor; subst color.
  - rewrite (Hw Hy), (white_not_black _ (Hw Hy)).
    rewrite andb_false_r, andb_true_r. cbn [orb].
    destruct (Ascii.eqb_spec x "K") as [E|_]; [|reflexivity].
    rewrite E in Hok. discriminate.
  - rewrite (Hb Hy), (black_not_white _ (Hb Hy)).
    rewrite andb_false_r, andb_true_r, orb_false_r.
    destruct (Ascii.eqb_spec x "k") as [E|_];
      [|now rewrite orb_false_r].
    rewrite E in Hok. discriminate.
Qed.

(** X4.  The node of a move of [possible_moves] is terminal exactly when the
    destination of the move held a king on the board the move was generated
    on; that king is of the other side, and a king that moves itself does
    not end the game. *)
Theorem generated_move_terminal (b b' : Board) (color : string)
    (moves : list Move) (mv : Move) :
  shape8 b ->
  possible_moves color b = Some (moves, b') ->
  In mv moves ->
  exists r1 c1 p r c,
    mv = step_move b r1 c1 p r c
    /\ on_board r1 c1
    /\ own_piece color (cell b r1 c1) = false
    /\ forall turn b0,
         is_game_over (State_new (Some mv) turn) b0
         = Some (Ascii.eqb (cell b r1 c1) "K"
                 || Ascii.eqb (cell b r1 c1) "k", b0).
Proof.
  intros Hb Hgen Hin.
  destruct (possible_moves_set b color Hb) as (moves0 & E & Hmem).
  rewrite E in Hgen. injection Hgen as <- <-.
  apply Hmem in Hin. destruct Hin as (r & c & Hrc & H).
  apply piece_move_pseudo_legal in H; [|exact Hrc]. clear r c Hrc.
  destruct H as (r1 & c1 & r & c & H1 & H0 & Hne & Hown & Hok & ->).
  exists r1, c1, (placed_piece (cell b r c) r1), r, c.
  split; [reflexivity|]. split; [exact H1|]. split.
  - destruct (own_piece color (cell b r1 c1)) eqn:Eown; [|reflexivity].
    rewrite own_not_target in Hok by assumption. discriminate.
  - intros turn b0. rewrite is_game_over_eq by reflexivity.
    cbn [State_new move]. now rewrite (king_captured_step b color).
Qed.

Lemma generated_move_terminal_witness :
  exists r1 c1 p r c,
    sample_capture = step_move sample_board r1 c1 p r c
    /\ on_board r1 c1
    /\ own_piece "w" (cell sample_board r1 c1) = false
    /\ forall turn b0,
         is_game_over (State_new (Some sample_capture) turn) b0
         = Some (Ascii.eqb (cell sample_board r1 c1) "K"
                 || Ascii.eqb (cell sample_board r1 c1) "k", b0).
Proof.
  apply (generated_move_terminal sample_board sample_board "w"
           sample_moves sample_capture).
  - vm_compute. reflexivity.
  - vm_compute. reflexivity.
  - vm_compute. left. reflexivity.
Defined.

(** ** Loading and printing the board *)

(** Replaces a list of known length by its elements. *)
Ltac explicit_row row H :=
  do 9 (destruct row as [|? row]; simpl in H; try discriminate H);
  clear H.

Ltac explicit_board b Hb :=
  unfold shape8, shape8b in Hb;
  do 9 (destruct b as [|? b]; simpl in Hb; try discriminate Hb);
  repeat match type of Hb with
    | (_ && _) = true =>
        let H := fresh "Hrow" in
        apply andb_true_iff in Hb; destruct Hb as [H Hb]
    end;
  clear Hb;
  repeat match goal with
    | H : (List.length ?row =? 8)%nat = true |- _ => explicit_row row H
    end.

Lemma printout_cells (b : Board) :
  shape8 b -> printout b = Some (string_of_list_ascii (List.concat b), b).
Proof.
  intros Hb. explicit_board b Hb. vm_compute. reflexivity.
Qed.

(** X5.  [get_2d_board] fails (an index error) exactly on the strings
    shorter than 64 characters.  On any other string it returns an 8 x 8
    board, ignores what follows the 64th character, and [printout] of that
    board gives back the first 64 characters. *)
Theorem get_2d_board_printout (strBoard : string) :
  ((String.length strBoard < 64)%nat -> get_2d_board strBoard = None)
  /\ ((64 <= String.length strBoard)%nat ->
      exists b,
        get_2d_board strBoard = Some b
        /\ shape8 b
        /\ printout b = Some (substring 0 64 strBoard, b)).
Proof.
  split; intros H.
  - do 64 (destruct strBoard as [|? strBoard]; [vm_compute; reflexivity|]).
    simpl in H. lia.
  - do 64 (destruct strBoard as [|? strBoard]; [simpl in H; lia|]).
    clear H.
    destruct strBoard;
      (eexists; split; [vm_compute; reflexivity|];
       split; vm_compute; reflexivity).
Qed.

(** X6.  [printout] of an 8 x 8 board returns its 64 cells row by row,
    leaves the board as it is, and [get_2d_board] of the string printed is
    the board again. *)
Theorem printout_get_2d_board (b : Board) :
  shape8 b ->
  printout b = Some (string_of_list_ascii (List.concat b), b)
  /\ String.length (string_of_list_ascii (List.concat b)) = 64%nat
  /\ get_2d_board (string_of_list_ascii (List.concat b)) = Some b.
Proof.
  intros Hb. split; [now apply printout_cells|].
  explicit_board b Hb. split; vm_compute; reflexivity.
Qed.

Lemma get_2d_board_printout_witness :
  get_2d_board "k......." = None
  /\ exists b,
       get_2d_board
         ("........" ++ "........" ++ "R..P...." ++ "p.k....."
          ++ "........" ++ "........" ++ "........" ++ "k.r....."
          ++ " and more")
       = Some b
       /\ shape8 b
       /\ printout b
          = Some (("........" ++ "........" ++ "R..P...." ++ "p.k....."
                   ++ "........" ++ "........" ++ "........"
                   ++ "k.r.....")%string, b).
Proof.
  split.
  - apply (proj1 (get_2d_board_printout "k.......")). simpl. lia.
  - apply (proj2 (get_2d_board_printout
                    ("........" ++ "........" ++ "R..P...." ++ "p.k....."
                     ++ "........" ++ "........" ++ "........"
                     ++ "k.r....." ++ " and more"))).
    simpl. lia.
Defined.

Lemma printout_get_2d_board_witness :
  printout sample_board
  = Some (string_of_list_ascii (List.concat sample_board), sample_board)
  /\ String.length (string_of_list_ascii (List.concat sample_board))
     = 64%nat
  /\ get_2d_board (string_of_list_ascii (List.concat sample_board))
     = Some sample_board.
Proof.
  apply (printout_get_2d_board sample_board). vm_compute. reflexivity.
Defined.

(** ** The order of the scores *)

Lemma num_le_refl (a : Num) : num_le a a = true.
Proof. destruct a; simpl; auto. apply Qle_bool_iff, Qle_refl. Qed.

Lemma num_le_trans (a b c : Num) :
  num_le a b = true -> num_le b c = true -> num_le a c = true.
Proof.
  destruct a, b, c; simpl; try congruence.
  rewrite !Qle_bool_iff. apply Qle_trans.
Qed.

Lemma num_le_total (a b : Num) : num_le a b = false -> num_le b a = true.
Proof.
  destruct a, b; simpl; try congruence.
  intros H. apply Qle_bool_iff.
  destruct (Qlt_le_dec q0 q) as [Hlt|Hle].
  - now apply Qlt_le_weak.
  - apply Qle_bool_iff in Hle. congruence.
Qed.

Lemma num_lt_le_trans (a b c : Num) :
  num_lt a b = true -> num_le b c = true -> num_lt a c = true.
Proof.
  unfold num_lt. intros H1 H2.
  destruct (num_le c a) eqn:E; [|reflexivity].
  rewrite (num_le_trans b c a) in H1 by assumption. discriminate.
Qed.

Lemma num_le_lt_trans (a b c : Num) :
  num_le a b = true -> num_lt b c = true -> num_lt a c = true.
Proof.
  unfold num_lt. intros H1 H2.
  destruct (num_le c a) eqn:E; [|reflexivity].
  rewrite (num_le_trans c a b) in H2 by assumption. discriminate.
Qed.

(** The rank of a score among the scores of a list: the number of scores
    of the list below it.  Among the scores of the list the order of the
    ranks is the order of the scores, so that a fact of the order of the
    scores is a fact of the order of the integers. *)
Definition rank (l : list Num) (x : Num) : Z :=
  Z.of_nat (List.length (filter (fun y => num_lt y x) l)).

Lemma filter_length_le {A} (f g : A -> bool) (l : list A) :
  (forall z, f z = true -> g z = true) ->
  (List.length (filter f l) <= List.length (filter g l))%nat.
Proof.
  intros Hfg. induction l as [|z l IH]; simpl; [lia|].
  destruct (f z) eqn:Ef.
  - rewrite (Hfg z Ef). simpl. lia.
  - destruct (g z); simpl; lia.
Qed.

Lemma filter_length_lt {A} (f g : A -> bool) (l : list A) (y : A) :
  (forall z, f z = true -> g z = true) ->
  In y l -> f y = false -> g y = true ->
  (List.length (filter f l) < List.length (filter g l))%nat.
Proof.
  intros Hfg Hin Hf Hg. induction l as [|z l IH]; simpl in *; [tauto|].
  destruct Hin as [->|Hin].
  - rewrite Hf, Hg. simpl.
    pose proof (filter_length_le f g l Hfg). lia.
  - specialize (IH Hin). destruct (f z) eqn:Ef.
    + rewrite (Hfg z Ef). simpl. lia.
    + destruct (g z); simpl; lia.
Qed.

Lemma num_le_rank (l : list Num) (x y : Num) :
  In y l -> num_le x y = (rank l x <=? rank l y).
Proof.
  intros Hin. unfold rank. destruct (num_le x y) eqn:E; symmetry.
  - apply Z.leb_le. apply inj_le. apply filter_length_le.
    intros z Hz. now apply num_lt_le_trans with x.
  - apply Z.leb_gt. apply inj_lt.
    apply filter_length_lt with (y := y); auto.
    + intros z Hz. apply num_lt_le_trans with y; auto.
      now apply num_le_total.
    + unfold num_lt. now rewrite num_le_refl.
    + unfold num_lt. now rewrite E.
Qed.

Ltac in_scores := cbn [In]; repeat (first [left; reflexivity | right]).

(** A fact of the order of the scores of [l], settled on their ranks. *)
Ltac num_order l :=
  unfold num_eq, num_lt, num_max, num_min in *;
  repeat match goal with
    | H : context [if num_le ?a ?b then _ else _] |- _ =>
        destruct (num_le a b) eqn:?
    | |- context [if num_le ?a ?b then _ else _] =>
        destruct (num_le a b) eqn:?
    end;
  repeat match goal with
    | H : context [num_le ?x ?y] |- _ =>
        rewrite (num_le_rank l x y) in H by in_scores
    | |- context [num_le ?x ?y] =>
        rewrite (num_le_rank l x y) by in_scores
    end;
  lia.

(** ** One round of the loops of [alphabeta], on the scores alone *)

Lemma within_window_refl (alpha beta m : Num) : within_window alpha beta m m.
Proof. unfold within_window. num_order [alpha; beta; m]. Qed.

Lemma within_window_full (m v : Num) :
  within_window NegInf PosInf m v -> num_eq v m = true.
Proof.
  unfold within_window. intros H.
  assert (num_le NegInf m = true) by reflexivity.
  assert (num_le NegInf v = true) by reflexivity.
  assert (num_le m PosInf = true) by now destruct m.
  assert (num_le v PosInf = true) by now destruct v.
  num_order [NegInf; PosInf; m; v].
Qed.

Lemma max_inv_start (alpha beta : Num) :
  num_lt alpha beta = true -> max_inv alpha beta NegInf NegInf alpha.
Proof.
  intros H. unfold max_inv, within_window.
  assert (num_le NegInf alpha = true) by reflexivity.
  assert (num_le NegInf beta = true) by reflexivity.
  num_order [alpha; beta; NegInf].
Qed.

Lemma max_inv_step (alpha beta m v a mk x : Num) :
  max_inv alpha beta m v a ->
  within_window a beta mk x ->
  num_le beta (num_max a (num_max v x)) = false ->
  max_inv alpha beta (num_max m mk) (num_max v x)
          (num_max a (num_max v x)).
Proof.
  unfold max_inv, within_window. intros H K Hc.
  num_order [alpha; beta; m; v; a; mk; x].
Qed.

Lemma max_inv_break (alpha beta m v a mk x m' : Num) :
  max_inv alpha beta m v a ->
  within_window a beta mk x ->
  num_le beta (num_max a (num_max v x)) = true ->
  num_le (num_max m mk) m' = true ->
  within_window alpha beta m' (num_max v x).
Proof.
  unfold max_inv, within_window. intros H K Hc Hm.
  num_order [alpha; beta; m; v; a; mk; x; m'].
Qed.

Lemma fold_max_ge (l : list Num) :
  forall m, num_le m (fold_left num_max l m) = true.
Proof.
  induction l as [|x l IH]; intros m; cbn [fold_left].
  - apply num_le_refl.
  - apply num_le_trans with (num_max m x); [|apply IH].
    num_order [m; x].
Qed.

Lemma min_inv_start (alpha beta : Num) :
  num_lt alpha beta = true -> min_inv alpha beta PosInf PosInf beta.
Proof.
  intros H. unfold min_inv, within_window.
  assert (num_le alpha PosInf = true) by now destruct alpha.
  assert (num_le beta PosInf = true) by now destruct beta.
  num_order [alpha; beta; PosInf].
Qed.

Lemma min_inv_step (alpha beta m v bt mk x : Num) :
  min_inv alpha beta m v bt ->
  within_window alpha bt mk x ->
  num_le (num_min bt (num_min v x)) alpha = false ->
  min_inv alpha beta (num_min m mk) (num_min v x)
          (num_min bt (num_min v x)).
Proof.
  unfold min_inv, within_window. intros H K Hc.
  num_order [alpha; beta; m; v; bt; mk; x].
Qed.

Lemma min_inv_break (alpha beta m v bt mk x m' : Num) :
  min_inv alpha beta m v bt ->
  within_window alpha bt mk x ->
  num_le (num_min bt (num_min v x)) alpha = true ->
  num_le m' (num_min m mk) = true ->
  within_window alpha beta m' (num_min v x).
Proof.
  unfold min_inv, within_window. intros H K Hc Hm.
  num_order [alpha; beta; m; v; bt; mk; x; m'].
Qed.

Lemma fold_min_le (l : list Num) :
  forall m, num_le (fold_left num_min l m) m = true.
Proof.
  induction l as [|x l IH]; intros m; cbn [fold_left].
  - apply num_le_refl.
  - apply num_le_trans with (num_min m x); [apply IH|].
    num_order [m; x].
Qed.

(** ** The cached tree is the game tree *)

Section SearchValue.
Variable player_color : string.

Lemma expanded_inv (b : Board) (s : State) :
  expanded player_color b s ->
  dicts_agree (move s)
  /\ (successors s = []
      \/ map move (successors s)
         = map Some (moves_of (side_to_move player_color (player_turn s)) b))
  /\ expanded_list player_color (player_turn s) b (successors s).
Proof. intros H. inversion H; subst. simpl. auto. Qed.

Lemma expanded_intro (b : Board) (s : State) :
  dicts_agree (move s) ->
  (successors s = []
   \/ map move (successors s)
      = map Some (moves_of (side_to_move player_color (player_turn s)) b)) ->
  expanded_list player_color (player_turn s) b (successors s) ->
  expanded player_color b s.
Proof. destruct s as [m v t l]. simpl. now constructor. Qed.

Lemma expanded_set_val (b : Board) (s : State) (v : Num) :
  expanded player_color b s -> expanded player_color b (set_val s v).
Proof.
  intros H. apply expanded_inv in H. destruct H as (Hd & Hm & Hl).
  now apply expanded_intro.
Qed.

Lemma expanded_children (b : Board) (turn : bool) (moves : list Move) :
  valid_board b -> Forall (generated_on b) moves ->
  expanded_list player_color turn b (children turn moves).
Proof.
  intros Hv. induction 1 as [|mv moves Hmv Hmoves IH]; cbn [children map].
  - constructor.
  - pose proof (generated_on_recorded b mv Hmv) as Hrec.
    apply expanded_cons with (mv := mv); auto;
      try (now destruct turn).
    + now apply generated_on_symbols with (b := b).
    + constructor; [exact (proj1 Hrec) | now left | constructor].
Qed.

Lemma move_children (turn : bool) (moves : list Move) :
  map move (children turn moves) = map Some moves.
Proof. unfold children. rewrite map_map. reflexivity. Qed.

Lemma moves_of_eq (color : string) (b b' : Board) (moves : list Move) :
  possible_moves color b = Some (moves, b') -> moves_of color b = moves.
Proof. unfold moves_of. now intros ->. Qed.

(** [get_successors] at a node whose tree is the game tree: the successors
    returned are those of the moves of the side to move, and only the cache
    of the node changes. *)
Lemma get_successors_expanded (b : Board) (s : State) :
  valid_board b -> expanded player_color b s ->
  exists l,
    get_successors player_color s b = Some ((set_successors s l, l), b)
    /\ map move l
       = map Some (moves_of (side_to_move player_color (player_turn s)) b)
    /\ expanded_list player_color (player_turn s) b l.
Proof.
  intros Hv Hs. pose proof (valid_board_shape b Hv) as Hb.
  destruct (expanded_inv b s Hs) as (Hd & Hm & Hl).
  unfold get_successors.
  destruct (successors s) as [|c l] eqn:El.
  - cbn [List.length Z.of_nat Z.eqb].
    destruct (possible_moves_total
                b (side_to_move player_color (player_turn s)) Hb)
      as (moves & E & Hgen).
    unfold side_to_move in E. unfold bind. rewrite E. cbv zeta.
    rewrite successors_fold, El. cbn [app].
    exists (children (player_turn s) moves).
    fold (children (player_turn s) moves).
    split; [destruct s as [m v t l0]; reflexivity|].
    split; [|now apply expanded_children].
    rewrite move_children. f_equal. symmetry.
    now apply moves_of_eq with (b' := b).
  - replace (Z.of_nat (List.length (c :: l)) =? 0) with false
      by (symmetry; apply Z.eqb_neq; simpl; lia).
    exists (c :: l). split.
    + unfold ret. rewrite <- El. destruct s as [m v t l0]. reflexivity.
    + destruct Hm as [Hm|Hm]; [discriminate|]. auto.
Qed.

Lemma mobility_sum_returns (b : Board) (ms : list Move) :
  exists q, mobility_sum ms b = Some (q, b).
Proof.
  assert (H : reads (mobility_sum ms) b (fun _ => True)).
  { unfold mobility_sum. apply reads_foldM; [|exact I].
    intros m mv _ _. apply mobility_of_move_reads. }
  apply reads_elim in H. destruct H as (q & E & _). eauto.
Qed.

Lemma mobility_moves (succs : list State) :
  forall (ms : list Move) (m : Q) (b : Board),
    map move succs = map Some ms ->
    foldM (fun m next =>
             mv <- lift_option (move next) ;; mobility_of_move mv m)
          succs m b
    = foldM (fun m mv => mobility_of_move mv m) ms m b.
Proof.
  induction succs as [|s succs IH]; intros [|mv ms] m b E;
    try discriminate; [reflexivity|].
  cbn [map] in E. injection E as Hs E.
  cbn [foldM]. rewrite Hs. unfold bind, lift_option, ret.
  destruct (mobility_of_move mv m b) as [[q b']|]; [|reflexivity].
  exact (IH ms q b' E).
Qed.

(** [mobility] at such a node: the points of the moves of the side to
    move, counted for the player and against the other side. *)
Lemma mobility_expanded (b : Board) (s : State) :
  valid_board b -> expanded player_color b s ->
  exists l q,
    mobility_sum
      (moves_of (side_to_move player_color (player_turn s)) b) b
    = Some (q, b)
    /\ mobility player_color s b
       = Some ((set_successors s l,
                if player_turn s then q else (- 1 * q)%Q), b)
    /\ map move l
       = map Some (moves_of (side_to_move player_color (player_turn s)) b)
    /\ expanded_list player_color (player_turn s) b l.
Proof.
  intros Hv Hs.
  destruct (get_successors_expanded b s Hv Hs) as (l & E & Hm & Hl).
  destruct (mobility_sum_returns
              b (moves_of (side_to_move player_color (player_turn s)) b))
    as (q & Eq).
  exists l, q. split; [exact Eq|]. split; [|auto].
  unfold mobility, bind. rewrite E.
  rewrite (mobility_moves l _ _ _ Hm).
  unfold mobility_sum in Eq. rewrite Eq.
  destruct s as [m v t l0]. reflexivity.
Qed.

Lemma expanded_fresh (b : Board) (mv : option Move) (turn : bool) :
  dicts_agree mv -> expanded player_color b (State_new mv turn).
Proof. intros H. constructor; [exact H | now left | constructor]. Qed.

(** [evaluate] at such a node returns the score of the position, whether
    the cache of the node was filled or not. *)
Lemma evaluate_expanded (b : Board) (s : State) :
  valid_board b -> expanded player_color b s ->
  exists l,
    evaluate player_color s b
    = Some ((set_successors s l,
             static_value player_color b (player_turn s)), b)
    /\ map move l
       = map Some (moves_of (side_to_move player_color (player_turn s)) b)
    /\ expanded_list player_color (player_turn s) b l.
Proof.
  intros Hv Hs. pose proof (valid_board_shape b Hv) as Hb.
  destruct (mobility_expanded b s Hv Hs) as (l & q & Eq & Emob & Hm & Hl).
  destruct (mobility_expanded b (State_new None (player_turn s)) Hv)
    as (l0 & q0 & Eq0 & Emob0 & _); [now apply expanded_fresh|].
  cbn [State_new player_turn] in Eq0, Emob0.
  rewrite Eq in Eq0. injection Eq0 as <-.
  pose proof (material_reads player_color b Hv) as Hmat.
  apply reads_elim in Hmat. destruct Hmat as (mat & Emat & _).
  pose proof (pawn_structure_reads player_color b s Hb) as Hps.
  apply reads_elim in Hps. destruct Hps as (ps & Eps & _).
  assert (Eps0 : pawn_structure player_color
                   (State_new None (player_turn s)) b = Some (ps, b)).
  { rewrite <- Eps. reflexivity. }
  exists l. split; [|auto].
  unfold static_value, evaluate, bind.
  rewrite Emat, Eps, Eps0, Emob, Emob0. reflexivity.
Qed.
End SearchValue.

(** ** The search returns the minimax value *)

Section SearchWindow.
Variable player_color : string.

Lemma max_loop_window (depth : nat) search (b : Board) (alpha beta : Num) :
  valid_board b -> search_window player_color depth search ->
  forall succs ms v a m,
    expanded_list player_color true b succs ->
    map move succs = map Some ms ->
    max_inv alpha beta m v a ->
    reads (max_loop search succs v a beta) b
          (fun r =>
             expanded_list player_color true b (fst r)
             /\ map move (fst r) = map Some ms
             /\ within_window alpha beta
                  (fold_left num_max
                     (map (fun mv =>
                             minimax player_color depth (made mv b)
                                     (Some mv) false)
                          ms)
                     m)
                  (snd r)).
Proof.
  intros Hv Hsearch. pose proof (valid_board_shape b Hv) as Hb.
  induction succs as [|s rest IH]; intros [|mv0 ms] v a m Hl E Hinv;
    try discriminate.
  - apply reads_ret. cbn [fst snd map fold_left].
    split; [constructor|]. split; [reflexivity|]. exact (proj1 Hinv).
  - inversion Hl as [|? ? ? ? mv Hmove Hturn Hrec Hsym Hs Hrest]; subst.
    cbn [map] in E. injection E as E0 E. rewrite Hmove in E0.
    injection E0 as <-.
    cbn [max_loop]. rewrite Hmove. unfold reads.
    apply runs_bind_lift_some. apply runs_bind_make; auto.
    apply runs_bind.
    assert (Ha : num_lt a beta = true) by apply Hinv.
    pose proof (Hsearch s (made mv b) a beta
                  (valid_board_made b mv Hv Hrec Hsym) Hs Ha) as Hrun.
    unfold runs.
    destruct (search s a beta (made mv b)) as [[[s' x] b']|];
      [|contradiction].
    destruct Hrun as (-> & Hs' & Hm & Ht & Hval & Hw).
    cbn [fst snd] in *. cbv zeta. rewrite Hmove, Hturn in Hw.
    rewrite Hm, Hmove.
    apply runs_bind_lift_some. apply runs_bind_unmake; auto.
    assert (Hcons : forall l,
               expanded_list player_color true b l ->
               expanded_list player_color true b (s' :: l)).
    { intros l Hl'. apply expanded_cons with (mv := mv); auto; congruence. }
    cbn [map fold_left].
    destruct (num_le beta (num_max a (num_max v x))) eqn:Hc.
    + apply runs_ret. split; [reflexivity|]. cbn [fst snd map].
      split; [auto|]. split; [congruence|].
      eapply max_inv_break; eauto. apply fold_max_ge.
    + apply runs_bind.
      eapply runs_weaken;
        [apply (IH ms (num_max v x) (num_max a (num_max v x))
                   (num_max m (minimax player_color depth (made mv b)
                                       (Some mv) false))); auto;
         now apply max_inv_step|].
      intros [rest' v'] b' [-> (Hl' & Hm' & Hw')]. cbn [fst snd] in *.
      apply runs_ret. split; [reflexivity|]. cbn [fst snd map].
      split; [auto|]. split; [congruence|]. exact Hw'.
Qed.

Lemma min_loop_window (depth : nat) search (b : Board) (alpha beta : Num) :
  valid_board b -> search_window player_color depth search ->
  forall succs ms v bt m,
    expanded_list player_color false b succs ->
    map move succs = map Some ms ->
    min_inv alpha beta m v bt ->
    reads (min_loop search succs v alpha bt) b
          (fun r =>
             expanded_list player_color false b (fst r)
             /\ map move (fst r) = map Some ms
             /\ within_window alpha beta
                  (fold_left num_min
                     (map (fun mv =>
                             minimax player_color depth (made mv b)
                                     (Some mv) true)
                          ms)
                     m)
                  (snd r)).
Proof.
  intros Hv Hsearch. pose proof (valid_board_shape b Hv) as Hb.
  induction succs as [|s rest IH]; intros [|mv0 ms] v bt m Hl E Hinv;
    try discriminate.
  - apply reads_ret. cbn [fst snd map fold_left].
    split; [constructor|]. split; [reflexivity|]. exact (proj1 Hinv).
  - inversion Hl as [|? ? ? ? mv Hmove Hturn Hrec Hsym Hs Hrest]; subst.
    cbn [map] in E. injection E as E0 E. rewrite Hmove in E0.
    injection E0 as <-.
    cbn [min_loop]. rewrite Hmove. unfold reads.
    apply runs_bind_lift_some. apply runs_bind_make; auto.
    apply runs_bind.
    assert (Ha : num_lt alpha bt = true) by apply Hinv.
    pose proof (Hsearch s (made mv b) alpha bt
                  (valid_board_made b mv Hv Hrec Hsym) Hs Ha) as Hrun.
    unfold runs.
    destruct (search s alpha bt (made mv b)) as [[[s' x] b']|];
      [|contradiction].
    destruct Hrun as (-> & Hs' & Hm & Ht & Hval & Hw).
    cbn [fst snd] in *. cbv zeta. rewrite Hmove, Hturn in Hw.
    rewrite Hm, Hmove.
    apply runs_bind_lift_some. apply runs_bind_unmake; auto.
    assert (Hcons : forall l,
               expanded_list player_color false b l ->
               expanded_list player_color false b (s' :: l)).
    { intros l Hl'. apply expanded_cons with (mv := mv); auto; congruence. }
    cbn [map fold_left].
    destruct (num_le (num_min bt (num_min v x)) alpha) eqn:Hc.
    + apply runs_ret. split; [reflexivity|]. cbn [fst snd map].
      split; [auto|]. split; [congruence|].
      eapply min_inv_break; eauto. apply fold_min_le.
    + apply runs_bind.
      eapply runs_weaken;
        [apply (IH ms (num_min v x) (num_min bt (num_min v x))
                   (num_min m (minimax player_color depth (made mv b)
                                       (Some mv) true))); auto;
         now apply min_inv_step|].
      intros [rest' v'] b' [-> (Hl' & Hm' & Hw')]. cbn [fst snd] in *.
      apply runs_ret. split; [reflexivity|]. cbn [fst snd map].
      split; [auto|]. split; [congruence|]. exact Hw'.
Qed.

Lemma alphabeta_leaf_window (depth : nat) (b : Board) (s : State)
    (alpha beta : Num) :
  valid_board b -> expanded player_color b s ->
  minimax player_color depth b (move s) (player_turn s)
  = Fin (static_value player_color b (player_turn s)) ->
  reads (alphabeta_leaf player_color s) b
        (searched player_color depth b s alpha beta).
Proof.
  intros Hv Hs Hmm.
  destruct (evaluate_expanded player_color b s Hv Hs) as (l & E & Hm & Hl).
  destruct (expanded_inv player_color b s Hs) as (Hd & _ & _).
  unfold alphabeta_leaf, reads, runs, bind. rewrite E. cbv zeta.
  unfold ret. split; [reflexivity|].
  unfold searched. cbn [fst snd].
  destruct s as [mv v t l0].
  cbn [set_val set_successors move val player_turn successors] in *.
  split; [|split; [reflexivity|split; [reflexivity|split; [reflexivity|]]]].
  - constructor; auto.
  - rewrite Hmm. apply within_window_refl.
Qed.

Lemma alphabeta_window (depth : nat) :
  search_window player_color depth
    (fun s => alphabeta player_color s depth).
Proof.
  induction depth as [|depth IH]; intros s b alpha beta Hv Hs Hab.
  - apply (alphabeta_leaf_window 0 b s alpha beta Hv Hs). reflexivity.
  - destruct (expanded_inv player_color b s Hs) as (Hd & _ & _).
    change (reads (alphabeta player_color s (S depth) alpha beta) b
              (searched player_color (S depth) b s alpha beta)).
    cbn [alphabeta].
    eapply reads_bind_eq; [now apply is_game_over_eq|].
    fold (terminal (move s)).
    destruct (terminal (move s)) eqn:Eterm.
    { apply alphabeta_leaf_window; auto.
      cbn [minimax]. now rewrite Eterm. }
    destruct (get_successors_expanded
                player_color b (set_val s (if player_turn s
                                           then NegInf else PosInf)) Hv)
      as (l & E & Hm & Hl); [now apply expanded_set_val|].
    cbn [set_val player_turn] in Hm, Hl.
    destruct (player_turn s) eqn:Eturn; cbv zeta.
    + eapply reads_bind_eq; [exact E|].
      cbn [set_val set_successors val].
      eapply reads_bind;
        [apply (max_loop_window depth _ b alpha beta Hv IH l _
                  NegInf alpha NegInf Hl Hm);
         now apply max_inv_start|].
      intros [l' v'] (Hl' & Hm' & Hw'). cbn [fst snd] in *.
      apply reads_ret. unfold searched. cbn [fst snd].
      destruct s as [mv v t l0].
      cbn [set_val set_successors move val player_turn successors] in *.
      subst t.
      split; [|split; [reflexivity|split; [reflexivity|
                 split; [reflexivity|]]]].
      * constructor; auto.
      * cbn [minimax]. rewrite Eterm. exact Hw'.
    + eapply reads_bind_eq; [exact E|].
      cbn [set_val set_successors val].
      eapply reads_bind;
        [apply (min_loop_window depth _ b alpha beta Hv IH l _
                  PosInf beta PosInf Hl Hm);
         now apply min_inv_start|].
      intros [l' v'] (Hl' & Hm' & Hw'). cbn [fst snd] in *.
      apply reads_ret. unfold searched. cbn [fst snd].
      destruct s as [mv v t l0].
      cbn [set_val set_successors move val player_turn successors] in *.
      subst t.
      split; [|split; [reflexivity|split; [reflexivity|
                 split; [reflexivity|]]]].
      * constructor; auto.
      * cbn [minimax]. rewrite Eterm. exact Hw'.
Qed.
End SearchWindow.

(** ** The move the driver prints *)

Lemma num_max_idem (v x : Num) : num_max v (num_max v x) = num_max v x.
Proof.
  unfold num_max. destruct (num_le x v) eqn:E.
  - now rewrite num_le_refl.
  - now rewrite E.
Qed.

Lemma best_break (v mk x : Num) :
  num_lt v PosInf = true ->
  within_window v PosInf mk x ->
  num_le PosInf (num_max v x) = true ->
  num_le v (num_max v x) = true
  /\ num_eq x (num_max v x) = true
  /\ num_eq mk (num_max v x) = true.
Proof.
  unfold within_window. intros Hv W Hc.
  assert (num_le mk PosInf = true) by now destruct mk.
  assert (num_le x PosInf = true) by now destruct x.
  num_order [v; mk; x; PosInf].
Qed.

Lemma best_selected (v mk x v' : Num) :
  within_window v PosInf mk x ->
  num_le PosInf (num_max v x) = false ->
  num_le (num_max v x) v' = true ->
  num_eq x v' = true ->
  num_eq mk v' = true \/ not_raised v v'.
Proof.
  unfold within_window, not_raised. intros W Hc Hle Hx.
  assert (num_le NegInf mk = true) by reflexivity.
  assert (num_le NegInf x = true) by reflexivity.
  assert (num_le NegInf v = true) by reflexivity.
  assert (num_le mk PosInf = true) by now destruct mk.
  destruct (num_lt NegInf v) eqn:Ev;
    [destruct (num_eq v v') eqn:Ev'; [right; split; reflexivity|] |];
    left; num_order [v; mk; x; v'; NegInf; PosInf].
Qed.

Lemma not_raised_before (v x v' : Num) :
  not_raised (num_max v x) v' -> num_eq x v' = false -> not_raised v v'.
Proof.
  unfold not_raised. intros [H1 H2] Hx.
  split; num_order [v; x; v'; NegInf].
Qed.

Lemma not_raised_last (v x v' : Num) :
  num_eq v' (num_max v x) = true -> num_eq x v' = false ->
  not_raised v v'.
Proof.
  unfold not_raised. intros H Hx.
  assert (num_le NegInf x = true) by reflexivity.
  split; num_order [v; x; v'; NegInf].
Qed.

Lemma num_le_max_left (v x v' : Num) :
  num_le (num_max v x) v' = true -> num_le v v' = true.
Proof. intros H. num_order [v; x; v']. Qed.

Lemma not_raised_NegInf (v : Num) : ~ not_raised NegInf v.
Proof. intros [H _]. discriminate. Qed.

Lemma first_best_In (succs : list State) (v : Num) (c : State) :
  first_best succs v = Some c -> In c succs /\ num_eq (val c) v = true.
Proof.
  induction succs as [|s rest IH]; cbn [first_best]; [discriminate|].
  destruct (num_eq (val s) v) eqn:E.
  - intros [= <-]. simpl. auto.
  - intros H. destruct (IH H). simpl. auto.
Qed.

Lemma print_best_first (succs : list State) (v : Num) :
  print_best succs v
  = match first_best succs v with
    | Some c =>
        mv <- lift_option (move c) ;;
        make mv ;;;
        s <- printout ;;
        unmake mv ;;;
        ret (Some s)
    | None => ret None
    end.
Proof.
  induction succs as [|s rest IH]; cbn [print_best first_best];
    [reflexivity|].
  now destruct (num_eq (val s) v).
Qed.

Section DriverChoice.
Variable player_color : string.

Lemma expanded_list_In (turn : bool) (b : Board) (l : list State)
    (c : State) :
  expanded_list player_color turn b l -> In c l ->
  exists mv, move c = Some mv /\ recorded_on b mv.
Proof.
  induction 1 as [|turn b s rest mv Hm Ht Hr Hw Hs Hrest IH]; simpl;
    [tauto|].
  intros [->|Hin]; eauto.
Qed.

Lemma max_loop_best (depth : nat) search (b : Board) :
  valid_board b -> search_window player_color depth search ->
  forall succs v,
    expanded_list player_color true b succs ->
    num_lt v PosInf = true ->
    reads (max_loop search succs v v PosInf) b
          (best_found player_color depth b v).
Proof.
  intros Hv Hsearch. pose proof (valid_board_shape b Hv) as Hb.
  induction succs as [|s rest IH]; intros v Hl Hlt.
  - apply reads_ret. unfold best_found. cbn [fst snd first_best].
    split; [apply num_le_refl|].
    split; [intros _; unfold num_eq; now rewrite num_le_refl|].
    split; [discriminate|]. now left.
  - inversion Hl as [|? ? ? ? mv Hmove Hturn Hrec Hsym Hs Hrest]; subst.
    cbn [max_loop]. rewrite Hmove. unfold reads.
    apply runs_bind_lift_some. apply runs_bind_make; auto.
    apply runs_bind.
    pose proof (Hsearch s (made mv b) v PosInf
                  (valid_board_made b mv Hv Hrec Hsym) Hs Hlt) as Hrun.
    unfold runs.
    destruct (search s v PosInf (made mv b)) as [[[s' x] b']|];
      [|contradiction].
    destruct Hrun as (-> & Hs' & Hm & Ht & Hval & Hw).
    cbn [fst snd] in *. cbv zeta. rewrite Hmove, Hturn in Hw.
    rewrite Hm, Hmove.
    apply runs_bind_lift_some. apply runs_bind_unmake; auto.
    rewrite num_max_idem.
    destruct (num_le PosInf (num_max v x)) eqn:Hc.
    + apply runs_ret. split; [reflexivity|].
      destruct (best_break v _ x Hlt Hw Hc) as (H1 & H2 & H3).
      unfold best_found. cbn [fst snd first_best].
      rewrite Hval, H2.
      split; [exact H1|]. split; [discriminate|].
      split; [|discriminate].
      intros c [= <-]. left. exists mv. split; [congruence|exact H3].
    + apply runs_bind.
      eapply runs_weaken; [apply (IH (num_max v x)); auto|].
      { unfold num_lt. now rewrite Hc. }
      intros [rest' v'] b' [-> (H1 & H2 & H3 & H4)]. cbn [fst snd] in *.
      apply runs_ret. split; [reflexivity|].
      unfold best_found. cbn [fst snd first_best]. rewrite Hval.
      split; [now apply num_le_max_left with x|].
      split; [discriminate|].
      destruct (num_eq x v') eqn:Ex.
      * split; [|discriminate]. intros c [= <-].
        destruct (best_selected v _ x v' Hw Hc H1 Ex) as [Hbest|Hlow];
          [left|now right].
        exists mv. split; [congruence|exact Hbest].
      * split.
        -- intros c Hc'. destruct (H3 c Hc') as [Hbest|Hlow];
             [now left|right].
           now apply not_raised_before with x.
        -- intros Hnone. right. destruct (H4 Hnone) as [->|Hlow].
           ++ apply not_raised_last with x; auto.
           ++ now apply not_raised_before with x.
Qed.

(** The search from a node of the player that is not terminal, at depth
    [S depth] with the full window: the value and the successors it leaves
    in the node. *)
Lemma alphabeta_root (depth : nat) (b : Board) (s : State) :
  valid_board b -> expanded player_color b s ->
  player_turn s = true -> terminal (move s) = false ->
  exists l v,
    alphabeta player_color s (S depth) NegInf PosInf b
    = Some ((set_val (set_successors s l) v, v), b)
    /\ expanded_list player_color true b l
    /\ map move l = map Some (moves_of player_color b)
    /\ num_eq v (minimax player_color (S depth) b (move s) true) = true
    /\ best_found player_color depth b NegInf (l, v).
Proof.
  intros Hv Hs Hturn Hterm.
  destruct (expanded_inv player_color b s Hs) as (Hd & _ & _).
  destruct (get_successors_expanded player_color b (set_val s NegInf) Hv)
    as (l & E & Hm & Hl); [now apply expanded_set_val|].
  cbn [set_val player_turn] in Hm, Hl. rewrite Hturn in Hm, Hl.
  cbn [side_to_move] in Hm.
  pose proof (max_loop_window player_color depth _ b NegInf PosInf Hv
                (alphabeta_window player_color depth) l _
                NegInf NegInf NegInf Hl Hm
                (max_inv_start NegInf PosInf eq_refl)) as H1.
  pose proof (max_loop_best depth _ b Hv
                (alphabeta_window player_color depth) l NegInf Hl
                eq_refl) as H2.
  apply reads_elim in H1. destruct H1 as ([l' v'] & E1 & Hl' & Hm' & Hw').
  apply reads_elim in H2. destruct H2 as (r2 & E2 & Hbest).
  rewrite E1 in E2. injection E2 as <-.
  cbn [fst snd] in *.
  exists l', v'.
  split; [|split; [exact Hl'|split; [exact Hm'|split; [|exact Hbest]]]].
  - cbn [alphabeta]. unfold bind at 1.
    rewrite (is_game_over_eq s b Hd). fold (terminal (move s)).
    rewrite Hterm, Hturn. cbv zeta. unfold bind at 1. rewrite E.
    cbn [set_val set_successors val]. unfold bind. rewrite E1.
    destruct s as [mv v t l0]. reflexivity.
  - apply within_window_full. cbn [minimax]. rewrite Hterm.
    cbn [side_to_move negb]. exact Hw'.
Qed.
End DriverChoice.

Section DriverLines.
Variable player_color : string.

Lemma get_successors_filled (s : State) (b : Board) :
  successors s <> [] ->
  get_successors player_color s b = Some ((s, successors s), b).
Proof.
  intros H. unfold get_successors.
  destruct (successors s) as [|c l]; [congruence|].
  replace (Z.of_nat (List.length (c :: l)) =? 0) with false
    by (symmetry; apply Z.eqb_neq; simpl; lia).
  reflexivity.
Qed.

Lemma num_eq_trans (a b c : Num) :
  num_eq a b = true -> num_eq b c = true -> num_eq a c = true.
Proof. intros H1 H2. num_order [a; b; c]. Qed.

(** One round of the driver from a root of the player: nothing is printed
    if the player has no move, and else the board after a best move. *)
Lemma driver_round_best (depth : nat) (b : Board) (s : State) :
  valid_board b -> expanded player_color b s ->
  player_turn s = true -> move s = None ->
  exists s' out,
    driver_round player_color s (S depth) b = Some ((s', out), b)
    /\ expanded player_color b s'
    /\ player_turn s' = true /\ move s' = None
    /\ match moves_of player_color b, out with
       | [], None => True
       | _ :: _, Some line => best_line player_color b (S depth) line
       | _, _ => False
       end.
Proof.
  intros Hv Hs Hturn Hmove. pose proof (valid_board_shape b Hv) as Hb.
  destruct (alphabeta_root player_color depth b s Hv Hs Hturn)
    as (l & v & E & Hl & Hm & Hval & Hbest);
    [now rewrite Hmove|].
  rewrite Hmove in Hval.
  set (s1 := set_val (set_successors s l) v) in *.
  assert (Hs1 : expanded player_color b s1).
  { destruct (expanded_inv player_color b s Hs) as (Hd & _ & _).
    subst s1. destruct s as [mv v0 t l0].
    cbn [set_val set_successors move player_turn] in *. subst t.
    constructor; auto. }
  unfold driver_round, bind. rewrite E.
  destruct l as [|c l].
  - destruct (get_successors_expanded player_color b s1 Hv Hs1)
      as (l2 & E2 & Hm2 & Hl2).
    assert (Hnone : moves_of player_color b = []).
    { destruct (moves_of player_color b); [reflexivity|discriminate]. }
    replace (player_turn s1) with true in Hm2, Hl2
      by (subst s1; destruct s as [mv v0 t l0]; now symmetry).
    cbn [side_to_move] in Hm2. rewrite Hnone in Hm2.
    destruct l2; [|discriminate].
    rewrite E2. cbn [print_best ret].
    exists (set_successors s1 []), None.
    split; [reflexivity|]. rewrite Hnone.
    subst s1. destruct s as [mv v0 t l0].
    cbn [set_val set_successors move player_turn] in *. subst t mv.
    split; [|auto]. constructor; [exact I | now left | constructor].
  - assert (Hfill : successors s1 <> [])
      by (subst s1; destruct s as [mv v0 t l0]; discriminate).
    rewrite (get_successors_filled s1 b Hfill).
    replace (successors s1) with (c :: l)
      by (subst s1; destruct s as [mv v0 t l0]; reflexivity).
    replace (val s1) with v
      by (subst s1; destruct s as [mv v0 t l0]; reflexivity).
    rewrite print_best_first.
    destruct Hbest as (_ & _ & Hsome & Hnone). cbn [fst snd] in *.
    destruct (first_best (c :: l) v) as [c0|] eqn:Efirst.
    + destruct (Hsome c0 eq_refl) as [(mv & Hc0 & Hmv)|Hlow];
        [|now apply not_raised_NegInf in Hlow].
      destruct (first_best_In _ _ _ Efirst) as [Hin _].
      destruct (expanded_list_In player_color true b _ c0 Hl Hin)
        as (mv' & Hc0' & Hrec).
      rewrite Hc0 in Hc0'. injection Hc0' as <-.
      destruct (make_ok b mv Hb Hrec) as [Emake Hshape].
      rewrite Hc0. unfold bind, lift_option, ret. rewrite Emake.
      rewrite (printout_cells (made mv b) Hshape).
      rewrite (unmake_made b mv Hb Hrec).
      exists s1, (Some (string_of_list_ascii (List.concat (made mv b)))).
      split; [reflexivity|]. split; [exact Hs1|].
      split; [subst s1; destruct s as [m0 v0 t l0]; exact Hturn|].
      split; [subst s1; destruct s as [m0 v0 t l0]; exact Hmove|].
      assert (Hinm : In mv (moves_of player_color b)).
      { apply (in_map move) in Hin. rewrite Hm, Hc0 in Hin.
        apply in_map_iff in Hin. destruct Hin as (m' & [= ->] & Hin).
        exact Hin. }
      destruct (moves_of player_color b) as [|m0 ms] eqn:Ems;
        [contradiction|].
      exists mv. split; [rewrite Ems; exact Hinm|].
      split; [reflexivity|].
      replace (S depth - 1)%nat with depth by lia.
      now apply num_eq_trans with v.
    + destruct (Hnone eq_refl) as [H|H]; [discriminate|].
      now apply not_raised_NegInf in H.
Qed.

Lemma driver_lines (b : Board) :
  valid_board b ->
  forall ds s,
    Forall (fun d => (1 <= d)%nat) ds ->
    expanded player_color b s -> player_turn s = true -> move s = None ->
    exists lines,
      driver player_color s ds b = Some (lines, b)
      /\ match moves_of player_color b with
         | [] => lines = []
         | _ :: _ => Forall2 (best_line player_color b) ds lines
         end.
Proof.
  intros Hv. induction ds as [|d ds IH]; intros s Hds Hs Hturn Hmove.
  - exists []. split; [reflexivity|].
    destruct (moves_of player_color b); constructor.
  - inversion Hds as [|? ? Hd Hds']; subst.
    destruct d as [|depth]; [lia|].
    destruct (driver_round_best depth b s Hv Hs Hturn Hmove)
      as (s' & out & E & Hs' & Hturn' & Hmove' & Hout).
    destruct (IH s' Hds' Hs' Hturn' Hmove') as (lines & E' & Hlines).
    cbn [driver]. unfold bind. rewrite E, E'. cbn [ret].
    destruct (moves_of player_color b) as [|m0 ms];
      destruct out as [line|]; try contradiction.
    + exists lines. auto.
    + exists (line :: lines). split; [reflexivity|]. now constructor.
Qed.
End DriverLines.

(** X7.  On a valid board, at a node whose cached tree is the game tree of
    the board (the root [State(None, True)] is such a node, and the search
    leaves such a node), [alphabeta] at any depth with the full window
    returns, stores in the node the value it returns, and that value is the
    minimax value of the node at that depth: the cuts of the loops never
    change the result. *)
Theorem alphabeta_is_minimax (player_color : string) (b : Board)
    (s : State) (depth : nat) :
  valid_board b -> expanded player_color b s ->
  exists s',
    alphabeta player_color s depth NegInf PosInf b = Some ((s', val s'), b)
    /\ num_eq (val s')
              (minimax player_color depth b (move s) (player_turn s))
       = true
    /\ move s' = move s /\ player_turn s' = player_turn s
    /\ expanded player_color b s'.
Proof.
  intros Hv Hs.
  pose proof (alphabeta_window player_color depth s b NegInf PosInf Hv Hs
                eq_refl) as H.
  destruct (alphabeta player_color s depth NegInf PosInf b)
    as [[[s' v] b']|]; [|contradiction].
  destruct H as (-> & Hs' & Hm & Ht & Hval & Hw). cbn [fst snd] in *.
  exists s'. subst v. split; [reflexivity|].
  split; [now apply within_window_full|]. auto.
Qed.

(** X8.  With a window [alpha < beta], [alphabeta] returns a value that is
    the minimax value of the node if that value lies strictly between
    [alpha] and [beta], is at most [alpha] if the minimax value is, and is
    at least [beta] if the minimax value is. *)
Theorem alphabeta_within_window (player_color : string) (b : Board)
    (s : State) (depth : nat) (alpha beta : Num) :
  valid_board b -> expanded player_color b s ->
  num_lt alpha beta = true ->
  exists s',
    alphabeta player_color s depth alpha beta b = Some ((s', val s'), b)
    /\ within_window alpha beta
         (minimax player_color depth b (move s) (player_turn s)) (val s')
    /\ expanded player_color b s'.
Proof.
  intros Hv Hs Hab.
  pose proof (alphabeta_window player_color depth s b alpha beta Hv Hs Hab)
    as H.
  destruct (alphabeta player_color s depth alpha beta b)
    as [[[s' v] b']|]; [|contradiction].
  destruct H as (-> & Hs' & Hm & Ht & Hval & Hw). cbn [fst snd] in *.
  exists s'. subst v. auto.
Qed.

(** X9.  The driver loop from the root, over depths that are at least 1
    (the source runs the depths 2 to 101), leaves the board as it was.  It
    prints nothing if the player has no move; else it prints one line for
    each depth, and the line of a depth is the board after a move of the
    player that is best at that depth: the minimax value of the position
    after the move, one ply shallower, is the minimax value of the
    position. *)
Theorem driver_prints_best_moves (player_color : string) (b : Board)
    (ds : list nat) :
  valid_board b ->
  Forall (fun d => (1 <= d)%nat) ds ->
  exists lines,
    driver player_color current ds b = Some (lines, b)
    /\ match moves_of player_color b with
       | [] => lines = []
       | _ :: _ => Forall2 (best_line player_color b) ds lines
       end.
Proof.
  intros Hv Hds.
  apply (driver_lines player_color b Hv ds current Hds);
    [|reflexivity|reflexivity].
  apply expanded_fresh. exact I.
Qed.

Lemma alphabeta_is_minimax_witness :
  exists s',
    alphabeta "w" current 2 NegInf PosInf sample_board
    = Some ((s', val s'), sample_board)
    /\ num_eq (val s')
              (minimax "w" 2 sample_board (move current)
                       (player_turn current))
       = true
    /\ move s' = move current /\ player_turn s' = player_turn current
    /\ expanded "w" sample_board s'.
Proof.
  apply (alphabeta_is_minimax "w" sample_board current 2).
  - vm_compute. reflexivity.
  - apply expanded_fresh. exact I.
Defined.

Lemma alphabeta_within_window_witness :
  exists s',
    alphabeta "w" current 2 (Fin 0) (Fin 1) sample_board
    = Some ((s', val s'), sample_board)
    /\ within_window (Fin 0) (Fin 1)
         (minimax "w" 2 sample_board (move current) (player_turn current))
         (val s')
    /\ expanded "w" sample_board s'.
Proof.
  apply (alphabeta_within_window "w" sample_board current 2 (Fin 0) (Fin 1)).
  - vm_compute. reflexivity.
  - apply expanded_fresh. exact I.
  - reflexivity.
Defined.

Lemma driver_prints_best_moves_witness :
  exists lines,
    driver "w" current [2; 3]%nat sample_board = Some (lines, sample_board)
    /\ match moves_of "w" sample_board with
       | [] => lines = []
       | _ :: _ => Forall2 (best_line "w" sample_board) [2; 3]%nat lines
       end.
Proof.
  apply (driver_prints_best_moves "w" sample_board [2; 3]%nat).
  - vm_compute. reflexivity.
  - repeat constructor.
Defined.

(** ** The score of a position *)

Lemma foldM_sum {A} (f : Q -> A -> M Q) (g : A -> Q) (l : list A)
    (b : Board) :
  (forall acc x,
      In x l -> exists q, f acc x b = Some (q, b) /\ (q == acc + g x)%Q) ->
  forall acc,
    exists q,
      foldM f l acc b = Some (q, b) /\ (q == acc + Qsum (map g l))%Q.
Proof.
  induction l as [|x l IH]; intros Hf acc.
  - exists acc. split; [reflexivity|]. simpl. ring.
  - destruct (Hf acc x (or_introl eq_refl)) as (q1 & E1 & H1).
    destruct (IH (fun acc y Hy => Hf acc y (or_intror Hy)) q1)
      as (q & E & H).
    exists q. cbn [foldM]. unfold bind. rewrite E1. split; [exact E|].
    rewrite H, H1. cbn [map Qsum fold_right]. fold (Qsum (map g l)). ring.
Qed.

Lemma material_cells (player_color : string) (b : Board) :
  Forall (Forall (fun x => is_symbol x = true)) b ->
  exists mat,
    material player_color b = Some (mat, b)
    /\ (mat == if String.eqb player_color "w" then board_points b
               else - board_points b)%Q.
Proof.
  intros Hcells. rewrite Forall_forall in Hcells.
  destruct (foldM_sum
              (fun pts row =>
                 foldM (fun pts piece =>
                          if negb (Ascii.eqb piece ".") then
                            w <- lift_option
                                   (dict_get Ascii.eqb pieces_wgt piece) ;;
                            ret (pts + w)%Q
                          else ret pts)
                       row pts)
              (fun row => Qsum (map weight row)) b b) with (acc := 0%Q)
    as (q & E & H).
  { intros acc row Hrow. apply foldM_sum. intros acc' x Hx.
    specialize (Hcells row Hrow). rewrite Forall_forall in Hcells.
    specialize (Hcells x Hx).
    destruct (Ascii.eqb_spec x ".") as [->|Hne]; cbn [negb].
    - exists acc'. split; [reflexivity|]. unfold weight. simpl. ring.
    - assert (Hp : is_piece x = true).
      { apply is_symbol_piece; auto. now apply Ascii.eqb_neq. }
      unfold weight. rewrite (is_piece_weight x Hp).
      eexists. split; [reflexivity|]. ring. }
  fold (board_points b) in H.
  enough (H' : reads (material player_color) b
                 (fun mat =>
                    (mat == if String.eqb player_color "w"
                            then board_points b
                            else - board_points b)%Q)).
  { apply reads_elim in H'. destruct H' as (mat & Em & Hm). eauto. }
  unfold material. apply reads_bind_get_board.
  eapply reads_bind_eq; [exact E|]. apply reads_ret.
  destruct (String.eqb player_color "w"); rewrite H; ring.
Qed.

Lemma material_points (player_color : string) (b : Board) :
  valid_board b ->
  exists mat,
    material player_color b = Some (mat, b)
    /\ (mat == if String.eqb player_color "w" then board_points b
               else - board_points b)%Q.
Proof. intros Hv. apply material_cells. now apply valid_board_iff. Qed.








(** ** Material and the moves *)

Lemma Qsum_update {A} (f : A -> Q) (l : list A) (n : nat) (v d : A) :
  (n < List.length l)%nat ->
  (Qsum (map f (update_nth l n v))
   == Qsum (map f l) - f (nth n l d) + f v)%Q.
Proof.
  revert n. induction l as [|x l IH]; intros n Hn; [simpl in Hn; lia|].
  destruct n as [|n]; cbn [update_nth map Qsum fold_right nth].
  - ring.
  - fold (Qsum (map f (update_nth l n v))). fold (Qsum (map f l)).
    rewrite IH by (simpl in Hn; lia). ring.
Qed.

Lemma board_points_put (b : Board) (r c : Z) (v : ascii) :
  shape8 b -> on_board r c ->
  (board_points (put b r c v)
   == board_points b - weight (cell b r c) + weight v)%Q.
Proof.
  intros Hb [Hr Hc]. unfold board_points, put, cell.
  rewrite (Qsum_update (fun row => Qsum (map weight row)) b _ _ [])
    by (rewrite (shape8_length b Hb); lia).
  rewrite (Qsum_update weight _ _ v ".")
    by (rewrite shape8_row by auto; lia).
  ring.
Qed.

Lemma made_step_put (b : Board) (r1 c1 : Z) (p : ascii) (r c : Z) :
  (r1, c1) <> (r, c) ->
  made (step_move b r1 c1 p r c) b = put (put b r1 c1 p) r c ".".
Proof.
  intros Hne. unfold made, step_move, write_all.
  cbn [changes keys map fst snd fold_left dict_get].
  rewrite key_eqb_refl.
  rewrite (key_eqb_neq (r, c) (r1, c1)) by congruence.
  now rewrite key_eqb_refl.
Qed.

Lemma board_points_step (b : Board) (r1 c1 : Z) (p : ascii) (r c : Z) :
  shape8 b -> on_board r1 c1 -> on_board r c -> (r1, c1) <> (r, c) ->
  (board_points (made (step_move b r1 c1 p r c) b)
   == board_points b + (weight p - weight (cell b r c))
      - weight (cell b r1 c1))%Q.
Proof.
  intros Hb H1 H0 Hne. rewrite made_step_put by assumption.
  rewrite board_points_put by (auto using shape8_put).
  rewrite cell_put_other by auto.
  rewrite board_points_put by auto.
  change (weight ".") with 0%Q. ring.
Qed.

Lemma moves_pseudo_legal (b b' : Board) (color : string)
    (moves : list Move) (mv : Move) :
  shape8 b -> possible_moves color b = Some (moves, b') -> In mv moves ->
  pseudo_legal b color mv /\ generated_on b mv.
Proof.
  intros Hb Hgen Hin. split.
  - destruct (possible_moves_set b color Hb) as (moves0 & E & Hmem).
    rewrite E in Hgen. injection Hgen as <- <-.
    apply Hmem in Hin. destruct Hin as (r & c & Hrc & H).
    now apply (piece_move_pseudo_legal b color r c).
  - destruct (possible_moves_total b color Hb) as (moves0 & E & Hall).
    rewrite E in Hgen. injection Hgen as <- <-.
    rewrite Forall_forall in Hall. auto.
Qed.

(** X11.  [make] of a move of [possible_moves] changes [material] by the
    weights of the pieces it replaces only: counted for White, the material
    of the board that [make] leaves is the material before, less the weight
    of the piece that stood on the destination (nothing for an empty cell),
    plus, for a pawn that is promoted, the weight of the queen less that of
    the pawn.  For a player other than ['w'] the change has the opposite
    sign. *)
Theorem generated_move_material (player_color : string) (b b' : Board)
    (color : string) (moves : list Move) (mv : Move) :
  valid_board b ->
  possible_moves color b = Some (moves, b') ->
  In mv moves ->
  exists r1 c1 r c b1 m0 m1,
    mv = step_move b r1 c1 (placed_piece (cell b r c) r1) r c
    /\ make mv b = Some (tt, b1)
    /\ material player_color b = Some (m0, b)
    /\ material player_color b1 = Some (m1, b1)
    /\ ((if String.eqb player_color "w" then m1 - m0 else m0 - m1)
        == weight (placed_piece (cell b r c) r1) - weight (cell b r c)
           - weight (cell b r1 c1))%Q.
Proof.
  intros Hv Hgen Hin. pose proof (valid_board_shape b Hv) as Hb.
  destruct (moves_pseudo_legal b b' color moves mv Hb Hgen Hin)
    as [Hleg Hon].
  destruct Hleg as (r1 & c1 & r & c & H1 & H0 & Hne & _ & _ & Emv).
  pose proof (generated_on_recorded b mv Hon) as Hrec.
  destruct (make_ok b mv Hb Hrec) as [Emake _].
  assert (Hv' : valid_board (made mv b)).
  { apply valid_board_made; auto.
    now apply generated_on_symbols with (b := b). }
  destruct (material_points player_color b Hv) as (m0 & E0 & Hm0).
  destruct (material_points player_color (made mv b) Hv')
    as (m1 & E1 & Hm1).
  exists r1, c1, r, c, (made mv b), m0, m1.
  split; [exact Emv|]. split; [exact Emake|].
  split; [exact E0|]. split; [exact E1|].
  pose proof (board_points_step
                b r1 c1 (placed_piece (cell b r c) r1) r c Hb H1 H0 Hne)
    as Hstep.
  rewrite <- Emv in Hstep.
  destruct (String.eqb player_color "w"); rewrite Hm0, Hm1, Hstep; ring.
Qed.

Lemma generated_move_material_witness :
  exists r1 c1 r c b1 m0 m1,
    sample_capture
    = step_move sample_board r1 c1
        (placed_piece (cell sample_board r c) r1) r c
    /\ make sample_capture sample_board = Some (tt, b1)
    /\ material "w" sample_board = Some (m0, sample_board)
    /\ material "w" b1 = Some (m1, b1)
    /\ ((if String.eqb "w" "w" then m1 - m0 else m0 - m1)
        == weight (placed_piece (cell sample_board r c) r1)
           - weight (cell sample_board r c)
           - weight (cell sample_board r1 c1))%Q.
Proof.
  apply (generated_move_material "w" sample_board sample_board "w"
           sample_moves sample_capture).
  - vm_compute. reflexivity.
  - vm_compute. reflexivity.
  - vm_compute. auto.
Defined.

(** ** The direction (0, 0) *)

Lemma bind_some {A B} (m : M A) (k : A -> M B) (b b' : Board) (a : A) :
  m b = Some (a, b') -> bind m k b = k a b'.
Proof. intros E. unfold bind. now rewrite E. Qed.

Lemma add_change_ok (b : Board) (mv : Move) (r c : Z) (p : ascii) :
  shape8 b -> on_board r c ->
  add_change mv r c p b
  = Some (mkMove (dict_set key_eqb (changes mv) (r, c) p)
                 (dict_set key_eqb (undo_changes mv) (r, c) (cell b r c)),
          b).
Proof.
  intros Hb Hrc. unfold add_change.
  now rewrite (bind_some _ _ b b _ (get_cell_ok b r c Hb Hrc)).
Qed.

(** X12.  [add_move_in_dir] with the direction [(0, 0)] from an empty cell
    of the board does not return: every call adds a move and calls itself on
    the same cell, one level deeper, until the recursion limit is reached,
    whatever that limit is.  [k_moves] passes this direction, on the cell of
    a king, where the call returns at once. *)
Theorem add_move_in_dir_origin_empty (b : Board) (color : string)
    (r c : Z) (fuel : nat) (moves : list Move) (depth : Z) :
  shape8 b -> on_board r c -> cell b r c = "." ->
  add_move_in_dir_fuel fuel moves color r c 0 0 depth b = None.
Proof.
  intros Hb Hrc Hcell.
  assert (Er : in_range8 r = true) by (unfold in_range8, on_board in *; lia).
  assert (Ec : in_range8 c = true) by (unfold in_range8, on_board in *; lia).
  revert moves depth.
  induction fuel as [|fuel IH]; intros moves depth; [reflexivity|].
  cbn [add_move_in_dir_fuel]. rewrite !Z.mul_0_r, !Z.add_0_r.
  rewrite Er, Ec. cbn [negb orb].
  rewrite (bind_some _ _ b b _ (get_cell_ok b r c Hb Hrc)), Hcell.
  change (in_list "." white_pieces) with false.
  change (in_list "." black_pieces) with false.
  cbn [andb orb]. change (Ascii.eqb "." ".") with true. cbv iota.
  rewrite (bind_some _ _ b b _ (get_cell_ok b r c Hb Hrc)), Hcell.
  rewrite (bind_some _ _ b b _ (add_change_ok b _ r c "." Hb Hrc)).
  rewrite (bind_some _ _ b b _ (add_change_ok b _ r c "." Hb Hrc)).
  rewrite (bind_some _ _ b b _ (get_cell_ok b r c Hb Hrc)), Hcell.
  change (in_list "." single_move_pieces) with false. cbv iota.
  apply IH.
Qed.

Lemma add_move_in_dir_origin_empty_witness :
  add_move_in_dir_fuel recursion_limit [] "w" 0 0 0 0 1 sample_board = None.
Proof.
  apply (add_move_in_dir_origin_empty
           sample_board "w" 0 0 recursion_limit [] 1).
  - vm_compute. reflexivity.
  - unfold on_board. lia.
  - reflexivity.
Defined.

(** ** Symbols that are not of the game *)

Lemma material_row_fails (row : list ascii) (b : Board) :
  Exists (fun x => is_symbol x = false) row ->
  forall pts,
    foldM (fun pts piece =>
             if negb (Ascii.eqb piece ".") then
               w <- lift_option (dict_get Ascii.eqb pieces_wgt piece) ;;
               ret (pts + w)%Q
             else ret pts)
          row pts b
    = None.
Proof.
  induction 1 as [x row Hx|x row Hrow IH]; intros pts; cbn [foldM].
  - unfold is_symbol in Hx. apply orb_false_iff in Hx.
    destruct Hx as [Hp Hd]. rewrite Hd. cbn [negb].
    assert (E : dict_get Ascii.eqb pieces_wgt x = None).
    { unfold is_piece, in_list, white_pieces, black_pieces in Hp.
      cbn [existsb] in Hp. cbn [dict_get pieces_wgt].
      repeat match goal with
        | |- context [Ascii.eqb x ?y] =>
            destruct (Ascii.eqb x y); [discriminate|]
        end.
      reflexivity. }
    rewrite E. reflexivity.
  - destruct (negb (Ascii.eqb x ".")).
    + destruct (dict_get Ascii.eqb pieces_wgt x) as [w|];
        [|reflexivity].
      apply IH.
    + apply IH.
Qed.

Lemma material_rows_fail (rows : list (list ascii)) (b : Board) :
  Exists (Exists (fun x => is_symbol x = false)) rows ->
  forall pts,
    foldM (fun pts row =>
             foldM (fun pts piece =>
                      if negb (Ascii.eqb piece ".") then
                        w <- lift_option
                               (dict_get Ascii.eqb pieces_wgt piece) ;;
                        ret (pts + w)%Q
                      else ret pts)
                   row pts)
          rows pts b
    = None.
Proof.
  induction 1 as [row rows Hrow|row rows Hrows IH]; intros pts;
    cbn [foldM]; unfold bind at 1.
  - now rewrite material_row_fails.
  - match goal with
    | |- match ?m with _ => _ end = None =>
        assert (Hm : m = None \/ exists q, m = Some (q, b))
    end.
    { clear. revert pts. induction row as [|x row IHrow]; intros pts.
      - right. exists pts. reflexivity.
      - cbn [foldM]. destruct (negb (Ascii.eqb x ".")).
        + destruct (dict_get Ascii.eqb pieces_wgt x) as [w|];
            [apply IHrow | now left].
        + apply IHrow. }
    destruct Hm as [->|(q & ->)]; [reflexivity|]. apply IH.
Qed.

(** X13.  [material] looks at every cell of every row of the board, of any
    shape.  If every cell holds a piece or ['.'] it returns, leaves the
    board alone, and its value is the sum of the weights of the pieces,
    White's counted up and Black's down, for the player ['w'], and the
    opposite for any other player.  If some cell holds another character it
    fails (a type error at the weight that is missing). *)
Theorem material_symbols (player_color : string) (b : Board) :
  (Forall (Forall (fun x => is_symbol x = true)) b ->
   exists mat,
     material player_color b = Some (mat, b)
     /\ (mat == if String.eqb player_color "w" then board_points b
                else - board_points b)%Q)
  /\ (Exists (Exists (fun x => is_symbol x = false)) b ->
      material player_color b = None).
Proof.
  split.
  - apply material_cells.
  - intros H. unfold material.
    rewrite (bind_some _ _ b b b eq_refl).
    unfold bind. now rewrite material_rows_fail.
Qed.

Lemma material_symbols_witness :
  (exists mat,
      material "b" sample_board = Some (mat, sample_board)
      /\ (mat == if String.eqb "b" "w" then board_points sample_board
                 else - board_points sample_board)%Q)
  /\ material "w" [["K"; "x"]] = None.
Proof.
  split.
  - apply (proj1 (material_symbols "b" sample_board)).
    vm_compute. repeat constructor.
  - apply (proj2 (material_symbols "w" [["K"; "x"]])).
    constructor. apply Exists_cons_tl. now constructor.
Defined.

(** ** The program *)

Lemma get_2d_board_short (strBoard : string) :
  (String.length strBoard < 64)%nat -> get_2d_board strBoard = None.
Proof.
  intros H.
  do 64 (destruct strBoard as [|? strBoard]; [vm_compute; reflexivity|]).
  simpl in H. lia.
Qed.

(** X14.  The program fails before it prints anything on a board string
    shorter than 64 characters.  On a board string that loads to a valid
    board it prints nothing if the player has no move (as for a colour other
    than ['w'] and ['b']); else it prints 100 lines, and the line of each
    depth from 2 to 101 is the board after a move of the player that is best
    at that depth. *)
Theorem pichu_prints_best_moves (player_color strBoard : string)
    (b : Board) :
  ((String.length strBoard < 64)%nat -> pichu player_color strBoard = None)
  /\ (get_2d_board strBoard = Some b -> valid_board b ->
      exists lines,
        pichu player_color strBoard = Some lines
        /\ match moves_of player_color b with
           | [] => lines = []
           | _ :: _ =>
               Forall2 (best_line player_color b) (seq 2 100) lines
               /\ List.length lines = 100%nat
           end
        /\ (String.eqb player_color "w" = false ->
            String.eqb player_color "b" = false -> lines = [])).
Proof.
  split.
  - intros H. unfold pichu. now rewrite get_2d_board_short.
  - intros Eb Hv. unfold pichu. rewrite Eb.
    destruct (driver_lines player_color b Hv (seq 2 100) current)
      as (lines & E & Hlines);
      [| apply expanded_fresh; exact I | reflexivity | reflexivity |].
    { apply Forall_forall. intros d Hd. apply in_seq in Hd. lia. }
    rewrite E. exists lines. split; [reflexivity|].
    assert (Hnone : String.eqb player_color "w" = false ->
                    String.eqb player_color "b" = false ->
                    moves_of player_color b = []).
    { intros Hw Hbk. unfold moves_of, possible_moves.
      now rewrite Hw, Hbk. }
    destruct (moves_of player_color b) as [|m0 ms].
    + auto.
    + split.
      * split; [exact Hlines|].
        apply Forall2_length in Hlines. rewrite <- Hlines.
        apply length_seq.
      * intros Hw Hbk. discriminate (Hnone Hw Hbk).
Qed.

Lemma pichu_prints_best_moves_witness :
  pichu "w" "k......." = None
  /\ exists lines,
       pichu "w"
         ("........" ++ "........" ++ "R..P...." ++ "p.k....."
          ++ "........" ++ "........" ++ "........" ++ "k.r.....")%string
       = Some lines
       /\ match moves_of "w" sample_board with
          | [] => lines = []
          | _ :: _ =>
              Forall2 (best_line "w" sample_board) (seq 2 100) lines
              /\ List.length lines = 100%nat
          end
       /\ (String.eqb "w" "w" = false ->
           String.eqb "w" "b" = false -> lines = []).
Proof.
  split.
  - apply (proj1 (pichu_prints_best_moves "w" "k......." sample_board)).
    simpl. lia.
  - apply (proj2 (pichu_prints_best_moves
                    "w"
                    ("........" ++ "........" ++ "R..P...." ++ "p.k....."
                     ++ "........" ++ "........" ++ "........"
                     ++ "k.r.....")%string
                    sample_board)).
    + vm_compute. reflexivity.
    + vm_compute. reflexivity.
Defined.

(** ** Where the generators put the moves *)

Lemma extends_ret (b : Board) : extends_list b (fun moves => ret moves).
Proof.
  exists [], []. split; [constructor|]. split; [constructor|].
  intros moves. cbn [app]. now rewrite app_nil_r.
Qed.

Lemma extends_bind (b : Board) (g1 g2 : list Move -> M (list Move)) :
  extends_list b g1 -> extends_list b g2 ->
  extends_list b (fun moves => bind (g1 moves) g2).
Proof.
  intros (f1 & b1 & Hf1 & Hb1 & E1) (f2 & b2 & Hf2 & Hb2 & E2).
  exists (f2 ++ f1), (b1 ++ b2).
  split; [now apply Forall_app|]. split; [now apply Forall_app|].
  intros moves. unfold bind. rewrite E1, E2.
  now rewrite <- !app_assoc.
Qed.

Lemma extends_foldM {A} (b : Board) (f : list Move -> A -> M (list Move))
    (l : list A) :
  (forall x, In x l -> extends_list b (fun moves => f moves x)) ->
  extends_list b (fun moves => foldM f l moves).
Proof.
  induction l as [|x l IH]; intros Hf.
  - apply extends_ret.
  - cbn [foldM].
    apply (extends_bind b (fun moves => f moves x)
             (fun acc => foldM f l acc)).
    + apply Hf. now left.
    + apply IH. intros y Hy. apply Hf. now right.
Qed.

Lemma extends_get_cell (b : Board) (r c : Z)
    (k : ascii -> list Move -> M (list Move)) :
  shape8 b -> on_board r c ->
  extends_list b (k (cell b r c)) ->
  extends_list b (fun moves => x <- get_cell r c ;; k x moves).
Proof.
  intros Hb Hrc (fr & bk & Hfr & Hbk & E).
  exists fr, bk. split; [exact Hfr|]. split; [exact Hbk|].
  intros moves. unfold bind. rewrite get_cell_ok by assumption. apply E.
Qed.

Lemma goes_front_quiet (b : Board) (r1 c1 : Z) (p : ascii) (r c : Z) :
  cell b r1 c1 = "." -> goes_front (step_move b r1 c1 p r c) = false.
Proof.
  intros E. unfold goes_front, is_capture, taken, step_move.
  cbn [undo_changes]. now rewrite E.
Qed.

Lemma goes_front_pawn (b : Board) (r1 c1 : Z) (p : ascii) (r c : Z) :
  is_piece (cell b r1 c1) = true ->
  cell b r c = "P" \/ cell b r c = "p" ->
  goes_front (step_move b r1 c1 p r c) = true.
Proof.
  intros Hx Hp. unfold goes_front, is_capture, by_pawn, taken, mover.
  cbn [step_move undo_changes]. rewrite Hx.
  destruct Hp as [->| ->]; reflexivity.
Qed.

Lemma goes_front_piece (b : Board) (r1 c1 : Z) (p : ascii) (r c : Z) :
  is_piece (cell b r1 c1) = true ->
  Ascii.eqb (cell b r c) "P" = false ->
  Ascii.eqb (cell b r c) "p" = false ->
  goes_front (step_move b r1 c1 p r c)
  = Qgt_bool (Qabs (weight (cell b r1 c1))) (Qabs (weight (cell b r c))).
Proof.
  intros Hx HP Hp.
  unfold goes_front, is_capture, by_pawn, takes_heavier, taken, mover.
  cbn [step_move undo_changes]. now rewrite Hx, HP, Hp.
Qed.

Lemma opposing_is_piece (color : string) (x : ascii) :
  opposing_piece color x = true -> is_piece x = true.
Proof.
  unfold opposing_piece, is_piece.
  destruct (in_list x white_pieces), (in_list x black_pieces);
    simpl; auto.
Qed.

Section DirectionsOrder.
Variables (b : Board) (color : string) (r c : Z).
Hypothesis Hb : shape8 b.
Hypothesis Hrc : on_board r c.
Hypothesis Hown : own_piece color (cell b r c) = true.
Hypothesis HP : Ascii.eqb (cell b r c) "P" = false.
Hypothesis Hp : Ascii.eqb (cell b r c) "p" = false.

Lemma extends_dir_fuel (dr dc : Z) :
  dr <> 0 \/ dc <> 0 ->
  forall fuel depth,
    1 <= depth -> (1 <= fuel)%nat -> 10 - depth <= Z.of_nat fuel ->
    extends_list b (fun moves =>
                      add_move_in_dir_fuel fuel moves color r c dr dc depth).
Proof.
  intros Hd. pose proof (own_is_piece _ _ Hown) as Hpiece.
  induction fuel as [|fuel IH]; intros depth Hdepth Hfuel Hle; [lia|].
  destruct (in_range8 (r + depth * dr) && in_range8 (c + depth * dc))
    eqn:Eon.
  - apply andb_true_iff in Eon. destruct Eon as [Er Ec].
    assert (Hon : on_board (r + depth * dr) (c + depth * dc))
      by (test_facts; unfold on_board; lia).
    assert (Hne : (r + depth * dr, c + depth * dc) <> (r, c))
      by (intros X; apply pair_equal_spec in X; nia).
    assert (Hdepth8 : depth <= 8)
      by (test_facts; unfold on_board in *; nia).
    assert (Hstep : forall moves,
               add_move_in_dir_fuel (S fuel) moves color r c dr dc depth b
               = _)
      by (intros moves;
          exact (add_move_in_dir_fuel_on fuel moves color r c dr dc depth b
                   Hb Hrc Hon Hne Hpiece)).
    cbv zeta in Hstep.
    set (x := cell b (r + depth * dr) (c + depth * dc)) in *.
    set (mv0 := step_move b (r + depth * dr) (c + depth * dc)
                  (cell b r c) r c) in *.
    destruct (own_piece color x) eqn:Eown.
    { exists [], []. split; [constructor|]. split; [constructor|].
      intros moves. rewrite Hstep. cbn [app]. now rewrite app_nil_r. }
    destruct (opposing_piece color x) eqn:Eopp.
    { assert (Hfront : goes_front mv0
                       = Qgt_bool (Qabs (weight x))
                                  (Qabs (weight (cell b r c)))).
      { apply goes_front_piece; auto.
        now apply opposing_is_piece with color. }
      destruct (Qgt_bool (Qabs (weight x)) (Qabs (weight (cell b r c)))).
      - exists [mv0], []. split; [now repeat constructor|].
        split; [constructor|]. intros moves. rewrite Hstep.
        cbn [app]. now rewrite app_nil_r.
      - exists [], [mv0]. split; [constructor|].
        split; [now repeat constructor|]. intros moves. now rewrite Hstep. }
    destruct (Ascii.eqb_spec x ".") as [Hx|Hx].
    + assert (Hquiet : goes_front mv0 = false)
        by now apply goes_front_quiet.
      destruct (in_list (cell b r c) single_move_pieces).
      * exists [], [mv0]. split; [constructor|].
        split; [now repeat constructor|]. intros moves. now rewrite Hstep.
      * destruct (IH (depth + 1)) as (fr & bk & Hfr & Hbk & E); try lia.
        exists fr, (mv0 :: bk). split; [exact Hfr|].
        split; [now constructor|]. intros moves.
        rewrite Hstep, E. now rewrite <- !app_assoc.
    + exists [], []. split; [constructor|]. split; [constructor|].
      intros moves. rewrite Hstep. cbn [app]. now rewrite app_nil_r.
  - exists [], []. split; [constructor|]. split; [constructor|].
    intros moves. rewrite add_move_in_dir_fuel_off.
    + cbn [app]. now rewrite app_nil_r.
    + intros Hon. apply andb_false_iff in Eon.
      unfold on_board, in_range8 in *. lia.
Qed.

Lemma extends_dir (dr dc : Z) :
  extends_list b (fun moves => add_move_in_dir moves color r c dr dc).
Proof.
  assert (Horigin : dr = 0 /\ dc = 0 \/ (dr <> 0 \/ dc <> 0)) by lia.
  destruct Horigin as [[-> ->]|Hd].
  - exists [], []. split; [constructor|]. split; [constructor|].
    intros moves.
    pose proof (add_move_in_dir_origin b color moves r c
                  (fun ms => ms = moves) Hb Hrc Hown eq_refl) as H.
    apply reads_elim in H. destruct H as (ms & E & ->).
    rewrite E. cbn [app]. now rewrite app_nil_r.
  - unfold add_move_in_dir. pose proof recursion_limit_large.
    apply extends_dir_fuel; auto; lia.
Qed.

Lemma extends_r_moves :
  extends_list b (fun moves => r_moves moves color r c).
Proof.
  unfold r_moves.
  apply (extends_bind b (fun moves => add_move_in_dir moves color r c 1 0));
    [apply extends_dir|].
  apply (extends_bind b
           (fun moves => add_move_in_dir moves color r c (-1) 0));
    [apply extends_dir|].
  apply (extends_bind b (fun moves => add_move_in_dir moves color r c 0 1));
    [apply extends_dir|].
  apply extends_dir.
Qed.

Lemma extends_b_moves :
  extends_list b (fun moves => b_moves moves color r c).
Proof.
  unfold b_moves.
  apply (extends_foldM b
           (fun moves dr =>
              foldM (fun moves dc => add_move_in_dir moves color r c dr dc)
                    [-1; 1] moves)).
  intros dr _.
  apply (extends_foldM b
           (fun moves dc => add_move_in_dir moves color r c dr dc)).
  intros dc _. apply extends_dir.
Qed.

Lemma extends_q_moves :
  extends_list b (fun moves => q_moves moves color r c).
Proof.
  unfold q_moves.
  apply (extends_bind b (fun moves => r_moves moves color r c)
           (fun moves => b_moves moves color r c)).
  - apply extends_r_moves.
  - apply extends_b_moves.
Qed.

Lemma extends_n_moves :
  extends_list b (fun moves => n_moves moves color r c).
Proof.
  unfold n_moves.
  apply (extends_foldM b
           (fun moves dr =>
              foldM (fun moves dc =>
                       if Z.abs dr + Z.abs dc =? 3
                       then add_move_in_dir moves color r c dr dc
                       else ret moves)
                    [-2; -1; 1; 2] moves)).
  intros dr _.
  apply (extends_foldM b
           (fun moves dc =>
              if Z.abs dr + Z.abs dc =? 3
              then add_move_in_dir moves color r c dr dc
              else ret moves)).
  intros dc _.
  destruct (Z.abs dr + Z.abs dc =? 3);
    [apply extends_dir | apply extends_ret].
Qed.

Lemma extends_k_moves :
  extends_list b (fun moves => k_moves moves color r c).
Proof.
  unfold k_moves.
  apply (extends_foldM b
           (fun moves dr =>
              foldM (fun moves dc =>
                       if (Z.abs dr + Z.abs dc =? 1) || truthy 2
                       then add_move_in_dir moves color r c dr dc
                       else ret moves)
                    [-1; 0; 1] moves)).
  intros dr _.
  apply (extends_foldM b
           (fun moves dc =>
              if (Z.abs dr + Z.abs dc =? 1) || truthy 2
              then add_move_in_dir moves color r c dr dc
              else ret moves)).
  intros dc _.
  replace ((Z.abs dr + Z.abs dc =? 1) || truthy 2) with true
    by (now rewrite orb_true_r).
  apply extends_dir.
Qed.
End DirectionsOrder.

Lemma black_is_piece (x : ascii) :
  in_list x black_pieces = true -> is_piece x = true.
Proof. intros H. unfold is_piece. rewrite H. apply orb_true_r. Qed.

Lemma white_is_piece (x : ascii) :
  in_list x white_pieces = true -> is_piece x = true.
Proof. intros H. unfold is_piece. now rewrite H. Qed.

Lemma wp_captures_front (b : Board) (r c : Z) :
  cell b r c = "P" ->
  Forall (fun mv => goes_front mv = true) (wp_captures b r c).
Proof.
  intros E. unfold wp_captures.
  destruct (r + 1 <? 8); [|constructor].
  apply Forall_app. split.
  - destruct (c - 1 >? -1); cbn [andb]; [|constructor].
    destruct (in_list (cell b (r + 1) (c - 1)) black_pieces) eqn:Ex;
      [|constructor].
    repeat constructor. apply goes_front_pawn; auto.
    now apply black_is_piece.
  - destruct (c + 1 <? 8); cbn [andb]; [|constructor].
    destruct (in_list (cell b (r + 1) (c + 1)) black_pieces) eqn:Ex;
      [|constructor].
    repeat constructor. apply goes_front_pawn; auto.
    now apply black_is_piece.
Qed.

Lemma wp_advances_back (b : Board) (r c : Z) :
  Forall (fun mv => goes_front mv = false) (wp_advances b r c).
Proof.
  unfold wp_advances.
  destruct (r + 1 <? 8); [|constructor].
  apply Forall_app. split.
  - destruct (Ascii.eqb_spec (cell b (r + 1) c) "."); [|constructor].
    repeat constructor. now apply goes_front_quiet.
  - destruct (Z.eqb_spec r 1) as [->|_]; cbn [andb]; [|constructor].
    destruct (Ascii.eqb (cell b 2 c) "."); cbn [andb]; [|constructor].
    destruct (Ascii.eqb_spec (cell b 3 c) "."); [|constructor].
    repeat constructor. now apply goes_front_quiet.
Qed.

Lemma bp_captures_front (b : Board) (r c : Z) :
  cell b r c = "p" ->
  Forall (fun mv => goes_front mv = true) (bp_captures b r c).
Proof.
  intros E. unfold bp_captures.
  destruct (r - 1 >? -1); [|constructor].
  apply Forall_app. split.
  - destruct (c - 1 >? -1); cbn [andb]; [|constructor].
    destruct (in_list (cell b (r - 1) (c - 1)) white_pieces) eqn:Ex;
      [|constructor].
    repeat constructor. apply goes_front_pawn; auto.
    now apply white_is_piece.
  - destruct (c + 1 <? 8); cbn [andb]; [|constructor].
    destruct (in_list (cell b (r - 1) (c + 1)) white_pieces) eqn:Ex;
      [|constructor].
    repeat constructor. apply goes_front_pawn; auto.
    now apply white_is_piece.
Qed.

Lemma bp_advances_back (b : Board) (r c : Z) :
  Forall (fun mv => goes_front mv = false) (bp_advances b r c).
Proof.
  unfold bp_advances.
  destruct (r - 1 >? -1); [|constructor].
  apply Forall_app. split.
  - destruct (Ascii.eqb_spec (cell b (r - 1) c) "."); [|constructor].
    repeat constructor. now apply goes_front_quiet.
  - destruct (Z.eqb_spec r 6) as [->|_]; cbn [andb]; [|constructor].
    destruct (Ascii.eqb (cell b 5 c) "."); cbn [andb]; [|constructor].
    destruct (Ascii.eqb_spec (cell b 4 c) "."); [|constructor].
    repeat constructor. now apply goes_front_quiet.
Qed.

Lemma extends_wp_moves (b : Board) (r c : Z) :
  shape8 b -> on_board r c -> cell b r c = "P" ->
  extends_list b (fun moves => wp_moves moves r c).
Proof.
  intros Hb Hrc E. exists (wp_captures b r c), (wp_advances b r c).
  split; [now apply wp_captures_front|].
  split; [apply wp_advances_back|].
  intros moves. now apply wp_moves_eq.
Qed.

Lemma extends_bp_moves (b : Board) (r c : Z) :
  shape8 b -> on_board r c -> cell b r c = "p" ->
  extends_list b (fun moves => bp_moves moves r c).
Proof.
  intros Hb Hrc E. exists (bp_captures b r c), (bp_advances b r c).
  split; [now apply bp_captures_front|].
  split; [apply bp_advances_back|].
  intros moves. now apply bp_moves_eq.
Qed.

(** The generator of a piece that is not a pawn, on the cell of the
    piece. *)
Ltac piece_extends lem E :=
  apply lem; auto; rewrite E; reflexivity.

Lemma extends_cell_white (b : Board) (r c : Z) :
  shape8 b -> on_board r c ->
  extends_list b
    (fun moves =>
       x <- get_cell r c ;;
       if Ascii.eqb x "P" then wp_moves moves r c
       else if Ascii.eqb x "R" then r_moves moves "w" r c
       else if Ascii.eqb x "B" then b_moves moves "w" r c
       else if Ascii.eqb x "N" then n_moves moves "w" r c
       else if Ascii.eqb x "Q" then q_moves moves "w" r c
       else if Ascii.eqb x "K" then k_moves moves "w" r c
       else ret moves).
Proof.
  intros Hb Hrc.
  apply (extends_get_cell b r c
           (fun x moves =>
              if Ascii.eqb x "P" then wp_moves moves r c
              else if Ascii.eqb x "R" then r_moves moves "w" r c
              else if Ascii.eqb x "B" then b_moves moves "w" r c
              else if Ascii.eqb x "N" then n_moves moves "w" r c
              else if Ascii.eqb x "Q" then q_moves moves "w" r c
              else if Ascii.eqb x "K" then k_moves moves "w" r c
              else ret moves)); auto.
  destruct (Ascii.eqb_spec (cell b r c) "P") as [EP|_];
    [now apply extends_wp_moves|].
  destruct (Ascii.eqb_spec (cell b r c) "R") as [E|_];
    [piece_extends extends_r_moves E|].
  destruct (Ascii.eqb_spec (cell b r c) "B") as [E|_];
    [piece_extends extends_b_moves E|].
  destruct (Ascii.eqb_spec (cell b r c) "N") as [E|_];
    [piece_extends extends_n_moves E|].
  destruct (Ascii.eqb_spec (cell b r c) "Q") as [E|_];
    [piece_extends extends_q_moves E|].
  destruct (Ascii.eqb_spec (cell b r c) "K") as [E|_];
    [piece_extends extends_k_moves E|].
  apply extends_ret.
Qed.

Lemma extends_cell_black (b : Board) (r c : Z) :
  shape8 b -> on_board r c ->
  extends_list b
    (fun moves =>
       x <- get_cell r c ;;
       if Ascii.eqb x "p" then bp_moves moves r c
       else if Ascii.eqb x "r" then r_moves moves "b" r c
       else if Ascii.eqb x "b" then b_moves moves "b" r c
       else if Ascii.eqb x "n" then n_moves moves "b" r c
       else if Ascii.eqb x "q" then q_moves moves "b" r c
       else if Ascii.eqb x "k" then k_moves moves "b" r c
       else ret moves).
Proof.
  intros Hb Hrc.
  apply (extends_get_cell b r c
           (fun x moves =>
              if Ascii.eqb x "p" then bp_moves moves r c
              else if Ascii.eqb x "r" then r_moves moves "b" r c
              else if Ascii.eqb x "b" then b_moves moves "b" r c
              else if Ascii.eqb x "n" then n_moves moves "b" r c
              else if Ascii.eqb x "q" then q_moves moves "b" r c
              else if Ascii.eqb x "k" then k_moves moves "b" r c
              else ret moves)); auto.
  destruct (Ascii.eqb_spec (cell b r c) "p") as [EP|_];
    [now apply extends_bp_moves|].
  destruct (Ascii.eqb_spec (cell b r c) "r") as [E|_];
    [piece_extends extends_r_moves E|].
  destruct (Ascii.eqb_spec (cell b r c) "b") as [E|_];
    [piece_extends extends_b_moves E|].
  destruct (Ascii.eqb_spec (cell b r c) "n") as [E|_];
    [piece_extends extends_n_moves E|].
  destruct (Ascii.eqb_spec (cell b r c) "q") as [E|_];
    [piece_extends extends_q_moves E|].
  destruct (Ascii.eqb_spec (cell b r c) "k") as [E|_];
    [piece_extends extends_k_moves E|].
  apply extends_ret.
Qed.

(** The list of [possible_moves]: the moves that go to the front, then the
    others. *)
Lemma possible_moves_split (b : Board) (color : string) :
  shape8 b ->
  exists front back,
    Forall (fun mv => goes_front mv = true) front
    /\ Forall (fun mv => goes_front mv = false) back
    /\ possible_moves color b = Some (front ++ back, b).
Proof.
  intros Hb.
  assert (Hcells : forall cellgen,
             (forall r c, on_board r c ->
                          extends_list b (fun moves => cellgen moves r c)) ->
             extends_list b
               (fun moves =>
                  foldM (fun moves r =>
                           foldM (fun moves c => cellgen moves r c)
                                 range8 moves)
                        range8 moves)).
  { intros cellgen Hgen.
    apply (extends_foldM b
             (fun moves r =>
                foldM (fun moves c => cellgen moves r c) range8 moves)).
    intros r Hr.
    apply (extends_foldM b (fun moves c => cellgen moves r c)).
    intros c Hc. apply Hgen. split; now apply range8_on_board. }
  unfold possible_moves.
  destruct (String.eqb_spec color "w") as [->|_];
    [|destruct (String.eqb_spec color "b") as [->|_]].
  - destruct (Hcells _ (fun r c Hrc => extends_cell_white b r c Hb Hrc))
      as (fr & bk & Hfr & Hbk & E).
    exists fr, bk. split; [exact Hfr|]. split; [exact Hbk|].
    exact (E []).
  - destruct (Hcells _ (fun r c Hrc => extends_cell_black b r c Hb Hrc))
      as (fr & bk & Hfr & Hbk & E).
    exists fr, bk. split; [exact Hfr|]. split; [exact Hbk|].
    exact (E []).
  - exists [], []. split; [constructor|]. split; [constructor|].
    reflexivity.
Qed.

Lemma inserts_intro (b : Board) (g : list Move -> M (list Move))
    (S : Move -> Prop) :
  extends_list b g -> (forall moves, adds b (g moves) moves S) ->
  inserts b g S.
Proof.
  intros (fr & bk & Hfr & Hbk & E) Hadds.
  rewrite Forall_forall in Hfr, Hbk.
  exists fr, bk. split; [exact E|].
  specialize (Hadds []). apply reads_elim in Hadds.
  destruct Hadds as (ms & Ems & Hmem). rewrite E in Ems.
  injection Ems as <-. cbn [app] in Hmem.
  assert (HS : forall mv, In mv (fr ++ bk) <-> S mv).
  { intros mv. rewrite Hmem. simpl. tauto. }
  split; intros mv; rewrite <- HS, in_app_iff; split.
  - intros Hin. auto.
  - intros [[Hin|Hin] Hf]; [exact Hin|].
    rewrite (Hbk mv Hin) in Hf. discriminate.
  - intros Hin. auto.
  - intros [[Hin|Hin] Hf]; [|exact Hin].
    rewrite (Hfr mv Hin) in Hf. discriminate.
Qed.

(** C6.  The moves that go to the front of the list are the captures by a
    pawn and the captures of a piece heavier than the piece that takes it.
    [add_move_in_dir], at the cell where the walk meets a piece of the other
    side, puts the capture at the front of the list it is given when the
    absolute weight of the piece taken exceeds that of the piece that takes,
    and at the back otherwise.  [wp_moves] and [bp_moves] put the diagonal
    captures of the pawn in front of the list, whatever the weights, and
    its advances behind.  The generators of rook, bishop, queen, knight and
    king, on the cell of a piece of the side, add the moves of the piece to
    the list they are given, those that go to the front before it and the
    others behind it.  The list of [possible_moves] is therefore the moves
    of the side that go to the front, followed by the others. *)
Theorem capture_ordering :
  (forall (fuel : nat) (moves : list Move) (color : string)
          (r c dr dc depth : Z) (b : Board),
      shape8 b -> on_board r c ->
      on_board (r + depth * dr) (c + depth * dc) ->
      (r + depth * dr, c + depth * dc) <> (r, c) ->
      is_piece (cell b r c) = true ->
      opposing_piece color (cell b (r + depth * dr) (c + depth * dc))
      = true ->
      add_move_in_dir_fuel (S fuel) moves color r c dr dc depth b
      = Some (if Qgt_bool
                   (Qabs (weight (cell b (r + depth * dr) (c + depth * dc))))
                   (Qabs (weight (cell b r c)))
              then step_move b (r + depth * dr) (c + depth * dc)
                     (cell b r c) r c :: moves
              else moves ++ [step_move b (r + depth * dr) (c + depth * dc)
                               (cell b r c) r c], b))
  /\ (forall (moves : list Move) (r c : Z) (b : Board),
         shape8 b -> on_board r c ->
         wp_moves moves r c b
         = Some (wp_captures b r c ++ moves ++ wp_advances b r c, b))
  /\ (forall (moves : list Move) (r c : Z) (b : Board),
         shape8 b -> on_board r c ->
         bp_moves moves r c b
         = Some (bp_captures b r c ++ moves ++ bp_advances b r c, b))
  /\ (forall (b : Board) (color : string) (r c : Z),
         shape8 b -> on_board r c ->
         own_piece color (cell b r c) = true ->
         Ascii.eqb (cell b r c) "P" = false ->
         Ascii.eqb (cell b r c) "p" = false ->
         inserts b (fun moves => r_moves moves color r c)
                 (fun mv => exists d, In d rook_dirs
                                      /\ reach b color r c d mv)
         /\ inserts b (fun moves => b_moves moves color r c)
                    (fun mv => exists d, In d bishop_dirs
                                         /\ reach b color r c d mv)
         /\ inserts b (fun moves => q_moves moves color r c)
                    (fun mv => exists d, In d queen_dirs
                                         /\ reach b color r c d mv)
         /\ inserts b (fun moves => n_moves moves color r c)
                    (fun mv => exists d, In d knight_jumps
                                         /\ reach b color r c d mv)
         /\ inserts b (fun moves => k_moves moves color r c)
                    (fun mv => exists d, In d adjacent_offsets
                                         /\ reach b color r c d mv))
  /\ (forall (b : Board) (color : string),
         shape8 b ->
         exists front back,
           possible_moves color b = Some (front ++ back, b)
           /\ (forall mv,
                  In mv front <->
                  (exists r c, on_board r c /\ piece_move b color r c mv)
                  /\ goes_front mv = true)
           /\ (forall mv,
                  In mv back <->
                  (exists r c, on_board r c /\ piece_move b color r c mv)
                  /\ goes_front mv = false)).
Proof.
  split; [|split; [|split; [|split]]].
  - intros fuel moves color r c dr dc depth b Hb Hrc Hon Hne Hp Hopp.
    rewrite add_move_in_dir_fuel_on by assumption. cbv zeta.
    rewrite (opposing_not_own _ _ Hopp), Hopp. reflexivity.
  - intros. now apply wp_moves_eq.
  - intros. now apply bp_moves_eq.
  - intros b color r c Hb Hrc Hown HP Hp.
    split; [|split; [|split; [|split]]]; apply inserts_intro.
    + now apply extends_r_moves.
    + intros moves. now apply adds_r_moves.
    + now apply extends_b_moves.
    + intros moves. now apply adds_b_moves.
    + now apply extends_q_moves.
    + intros moves. now apply adds_q_moves.
    + now apply extends_n_moves.
    + intros moves. now apply adds_n_moves.
    + now apply extends_k_moves.
    + intros moves. now apply adds_k_moves.
  - intros b color Hb.
    destruct (possible_moves_split b color Hb)
      as (fr & bk & Hfr & Hbk & E).
    destruct (possible_moves_set b color Hb) as (ms & Ems & Hmem).
    rewrite E in Ems. injection Ems as <-.
    rewrite Forall_forall in Hfr, Hbk.
    exists fr, bk. split; [exact E|].
    split; intros mv; rewrite <- Hmem, in_app_iff; split.
    + intros Hin. auto.
    + intros [[Hin|Hin] Hf]; [exact Hin|].
      rewrite (Hbk mv Hin) in Hf. discriminate.
    + intros Hin. auto.
    + intros [[Hin|Hin] Hf]; [|exact Hin].
      rewrite (Hfr mv Hin) in Hf. discriminate.
Qed.

Lemma capture_ordering_witness :
  (forall moves,
      add_move_in_dir_fuel 1 moves "w" 2 2 0 1 1 ordering_board
      = Some (moves ++ [step_move ordering_board 2 3 "R" 2 2],
              ordering_board))
  /\ (forall moves,
         add_move_in_dir_fuel 1 moves "w" 2 2 1 0 1 ordering_board
         = Some (step_move ordering_board 3 2 "R" 2 2 :: moves,
                 ordering_board))
  /\ (forall moves,
         wp_moves moves 4 4 ordering_board
         = Some (step_move ordering_board 5 5 "P" 4 4 :: moves
                 ++ [step_move ordering_board 5 4 "P" 4 4], ordering_board))
  /\ (forall moves,
         bp_moves moves 5 5 ordering_board
         = Some (step_move ordering_board 4 4 "p" 5 5 :: moves
                 ++ [step_move ordering_board 4 5 "p" 5 5], ordering_board))
  /\ inserts ordering_board (fun moves => r_moves moves "w" 2 2)
             (fun mv => exists d, In d rook_dirs
                                  /\ reach ordering_board "w" 2 2 d mv)
  /\ (exists front back,
         possible_moves "w" ordering_board
         = Some (front ++ back, ordering_board)
         /\ (forall mv,
                In mv front <->
                (exists r c, on_board r c
                             /\ piece_move ordering_board "w" r c mv)
                /\ goes_front mv = true)
         /\ (forall mv,
                In mv back <->
                (exists r c, on_board r c
                             /\ piece_move ordering_board "w" r c mv)
                /\ goes_front mv = false)).
Proof.
  destruct capture_ordering as (Hdir & Hwp & Hbp & Hgen & Hall).
  assert (Hb : shape8 ordering_board) by (vm_compute; reflexivity).
  split; [|split; [|split; [|split; [|split]]]].
  - intros moves.
    rewrite (Hdir 0%nat moves "w"%string 2 2 0 1 1 ordering_board);
      vm_compute; intuition congruence.
  - intros moves.
    rewrite (Hdir 0%nat moves "w"%string 2 2 1 0 1 ordering_board);
      vm_compute; intuition congruence.
  - intros moves. rewrite (Hwp moves 4 4 ordering_board);
      vm_compute; intuition congruence.
  - intros moves. rewrite (Hbp moves 5 5 ordering_board);
      vm_compute; intuition congruence.
  - destruct (Hgen ordering_board "w"%string 2 2) as [Hrook _];
      [exact Hb | unfold on_board; lia | reflexivity | reflexivity
      | reflexivity | exact Hrook].
  - apply (Hall ordering_board "w"%string Hb).
Defined.
